(** * pdebc: the multi-threaded Differential Evolution engine

    A shallow embedding of [ThreadsDESolver.hpp] (the per-thread solver) and
    [ThreadsDE.hpp] (the coordinator), followed by the properties of the
    specification that were checked against it and by further properties of
    the code.

    Conventions of the embedding.
    - A [std::array<POP_TYPE,POP_DIM>] is a [list POP_TYPE]; the matrix
      [population_] ([Matrix] comes with [BaseDE.hpp]) is a list of rows.  A
      subscript that is out of range is undefined behaviour in C++: every
      operation returns [None] there.
    - [POP_DIM] and [POP_SIZE] are parameters.  The solver takes [POP_SIZE]
      as a template argument while the coordinator passes the share
      [kPopSize_ / kNProcess_] to its constructor; the solvers of a
      coordinator are run with [POP_SIZE] equal to that share.
    - The random functions [random_cr_], [random_trials_], ... are
      [std::bind]-objects with hidden engine state.  Each one is a function
      from the number of calls made so far to the value returned by the next
      call; the solver and the coordinator carry the call counters.
    - [double] constants and draws are rationals, compared exactly.  The
      arithmetic of [POP_TYPE] is a parameter; where [POP_TYPE] is [double]
      in a concrete configuration it is the arithmetic of the rationals,
      without rounding.
    - The two [while] loops of [mutation] are rejection loops that need not
      terminate.  They take a [fuel] bound and return [None] when it is used
      up.
    - A request wakes the worker thread, which runs the command and raises
      [work_ready_].  [ThreadsDE] is the sequential reading: the worker runs
      its command to completion at the request, as it does whenever the
      command is waited for before the next statement that touches the
      solver.  [Threaded] interleaves the statements of the coordinator's
      thread with those of the worker threads; what the source does when a
      request is not waited for is stated there. *)

From Stdlib Require Import QArith.
From stdpp Require Import base option list.

Close Scope Q_scope.

(** ** Shared declarations *)

Inductive WorkType :=
  | SOLVE_GENERATION
  | GET_BEST_CANDIDATE.

(** The arithmetic the templates require of [POP_TYPE]: [a + b], [a - b] and
    [kF_ * a] with [kF_] a [double]. *)
Class PopArith (POP_TYPE : Type) := {
  pop_add : POP_TYPE -> POP_TYPE -> POP_TYPE;
  pop_sub : POP_TYPE -> POP_TYPE -> POP_TYPE;
  pop_scale : Q -> POP_TYPE -> POP_TYPE
}.

(** What [ThreadsDE::getBestCandidate] does with errors.  It keeps the
    least error in a local [double min_error]: an error is converted to
    [double] when it is stored there, compared with it by the built-in
    [get<0>(bc) < min_error], and [min_error] is converted back to
    [ERROR_TYPE] in the tuple returned. *)
Class ErrorNum (ERROR_TYPE : Type) := {
  error_to_double : ERROR_TYPE -> Q;
  error_lt_double : ERROR_TYPE -> Q -> bool;
  error_of_double : Q -> ERROR_TYPE
}.

(** Modelled from the spec: [BaseDE.hpp] is not part of the sources.  It is
    the configuration holder that stores the three user callbacks and the two
    scalar constants (crossover rate, mutation weight); the field names are
    those the solver and the coordinator use.  The generator is a nullary
    [std::function]: like the random functions it is given by the value of
    its n-th call, and a pure generator is a constant sequence. *)
Record BaseDE (POP_TYPE ERROR_TYPE : Type) := mkBaseDE {
  kCR_ : Q;
  kF_ : Q;
  callback_population_generator_ : nat -> POP_TYPE;
  callback_calc_error_ : list POP_TYPE -> ERROR_TYPE;
  callback_error_evaluation_ : ERROR_TYPE -> ERROR_TYPE -> bool
}.
Arguments kCR_ {_ _} _.
Arguments kF_ {_ _} _.
Arguments callback_population_generator_ {_ _} _ _.
Arguments callback_calc_error_ {_ _} _ _.
Arguments callback_error_evaluation_ {_ _} _ _ _.

(** [a < b] on doubles. *)
Definition Qlt_bool (a b : Q) : bool := negb (Qle_bool b a).

(** [a[i] = v]; undefined when [i] is out of range. *)
Definition store {A} (i : nat) (v : A) (a : list A) : option (list A) :=
  if decide (i < length a) then Some (<[i := v]> a) else None.

(** [m[i][j]] *)
Definition at2 {A} (m : list (list A)) (i j : nat) : option A :=
  row ← m !! i; row !! j.

(** [std::min_element(first, last, comp)] as an index: the scan keeps the
    position of the smallest element seen so far and moves it only when
    [comp] says that the current element is smaller. *)
Fixpoint min_element_scan {E} (comp : E -> E -> bool)
    (l : list E) (idx smallest : nat) (sm : E) : nat :=
  match l with
  | [] => smallest
  | x :: l' =>
      if comp x sm then min_element_scan comp l' (S idx) idx x
      else min_element_scan comp l' (S idx) smallest sm
  end.

Definition min_element {E} (comp : E -> E -> bool) (l : list E) : nat :=
  match l with
  | [] => 0
  | x :: l' => min_element_scan comp l' 1 0 x
  end.

(** ** The solver, [ThreadsDESolver] *)

Module ThreadsDESolver.

(** The three private random functions of one solver. *)
Record Streams := mkStreams {
  random_cr_ : nat -> Q;
  random_trials_ : nat -> nat;
  random_j_ : nat -> nat
}.

Section ThreadsDESolver.
Context {POP_TYPE ERROR_TYPE : Type} `{PopArith POP_TYPE}.

(** [pop_trials_] is omitted: [mutation] fills it before reading it and
    nothing else uses it.  [best_candidate_] is [None] until the first
    GET_BEST_CANDIDATE command. *)
Record t := mk {
  kID_ : nat;
  population_ : list (list POP_TYPE);
  pop_candidate_ : list POP_TYPE;
  pop_errors_ : list ERROR_TYPE;
  best_candidate_ : option (ERROR_TYPE * list POP_TYPE);
  pending_work_ : bool;
  work_ready_ : bool;
  work_type_ : WorkType;
  cr_calls : nat;
  trials_calls : nat;
  j_calls : nat
}.

Definition with_population (s : t) (p : list (list POP_TYPE)) : t :=
  mk (kID_ s) p (pop_candidate_ s) (pop_errors_ s) (best_candidate_ s)
     (pending_work_ s) (work_ready_ s) (work_type_ s)
     (cr_calls s) (trials_calls s) (j_calls s).

Definition with_errors (s : t) (e : list ERROR_TYPE) : t :=
  mk (kID_ s) (population_ s) (pop_candidate_ s) e (best_candidate_ s)
     (pending_work_ s) (work_ready_ s) (work_type_ s)
     (cr_calls s) (trials_calls s) (j_calls s).

Definition with_best (s : t) (b : ERROR_TYPE * list POP_TYPE) : t :=
  mk (kID_ s) (population_ s) (pop_candidate_ s) (pop_errors_ s) (Some b)
     (pending_work_ s) (work_ready_ s) (work_type_ s)
     (cr_calls s) (trials_calls s) (j_calls s).

Definition with_trial (s : t) (c : list POP_TYPE) (cr tr j : nat) : t :=
  mk (kID_ s) (population_ s) c (pop_errors_ s) (best_candidate_ s)
     (pending_work_ s) (work_ready_ s) (work_type_ s) cr tr j.

Definition with_flags (s : t) (pending ready : bool) (w : WorkType) : t :=
  mk (kID_ s) (population_ s) (pop_candidate_ s) (pop_errors_ s)
     (best_candidate_ s) pending ready w
     (cr_calls s) (trials_calls s) (j_calls s).

Variable POP_DIM : nat.
Variable POP_SIZE : nat.
Variable base_de_ : BaseDE POP_TYPE ERROR_TYPE.
Variable rng : Streams.

(** [while (bad v) v = random_trials_();], started with [v] after [n] calls. *)
Fixpoint redraw (fuel : nat) (bad : nat -> bool) (v n : nat)
    : option (nat * nat) :=
  if bad v then
    match fuel with
    | 0 => None
    | S fuel' => redraw fuel' bad (random_trials_ rng n) (S n)
    end
  else Some (v, n).

(** Lines 199-207 of [mutation]: the three trial indices. *)
Definition trial_indices (fuel n : nat) : option (nat * nat * nat * nat) :=
  let it0 := random_trials_ rng n in
  '(it1, n1) ← redraw fuel (λ v, bool_decide (v = it0))
                 (random_trials_ rng (S n)) (S (S n));
  '(it2, n2) ← redraw fuel
                 (λ v, bool_decide (v = it1) || bool_decide (v = it0))
                 (random_trials_ rng n1) (S n1);
  Some (it0, it1, it2, n2).

(** [pop_trials_[0][j] + kF_ * (pop_trials_[1][j] - pop_trials_[2][j])] *)
Definition combination (t0 t1 t2 : list POP_TYPE) (j : nat)
    : option POP_TYPE :=
  x0 ← t0 !! j; x1 ← t1 !! j; x2 ← t2 !! j;
  Some (pop_add x0 (pop_scale (kF_ base_de_) (pop_sub x1 x2))).

(** The loop [for (int k = 1; k < POP_DIM; ++k)] of [mutation], with [k]
    iterations left. *)
Fixpoint crossover (k : nat) (population : list (list POP_TYPE))
    (actual_index : nat) (t0 t1 t2 : list POP_TYPE)
    (j : nat) (cand : list POP_TYPE) (cr : nat)
    : option (list POP_TYPE * nat) :=
  match k with
  | 0 => Some (cand, cr)
  | S k' =>
      v ← (if Qle_bool (random_cr_ rng cr) (kCR_ base_de_)
           then combination t0 t1 t2 j
           else at2 population actual_index j);
      cand' ← store j v cand;
      crossover k' population actual_index t0 t1 t2
                ((j + 1) mod POP_DIM) cand' (S cr)
  end.

Definition mutation (fuel : nat) (actual_index : nat) (s : t) : option t :=
  let j := random_j_ rng (j_calls s) in
  '(it0, it1, it2, tr) ← trial_indices fuel (trials_calls s);
  t0 ← population_ s !! it0;
  t1 ← population_ s !! it1;
  t2 ← population_ s !! it2;
  v ← combination t0 t1 t2 j;
  cand ← store j v (pop_candidate_ s);
  '(cand', cr) ← crossover (POP_DIM - 1) (population_ s) actual_index
                   t0 t1 t2 ((j + 1) mod POP_DIM) cand (cr_calls s);
  Some (with_trial s cand' cr tr (S (j_calls s))).

Definition select (actual_index : nat) (s : t) : option t :=
  let error_new := callback_calc_error_ base_de_ (pop_candidate_ s) in
  old ← pop_errors_ s !! actual_index;
  if callback_error_evaluation_ base_de_ error_new old then
    p ← store actual_index (pop_candidate_ s) (population_ s);
    e ← store actual_index error_new (pop_errors_ s);
    Some (with_errors (with_population s p) e)
  else Some s.

(** [for (i = from; ...) { mutation(i); select(i); }] with [k] slots left. *)
Fixpoint evolve_slots (fuel k from : nat) (s : t) : option t :=
  match k with
  | 0 => Some s
  | S k' =>
      s1 ← mutation fuel from s;
      s2 ← select from s1;
      evolve_slots fuel k' (S from) s2
  end.

(** The SOLVE_GENERATION branch of [run]. *)
Definition evolve_generation (fuel : nat) (s : t) : option t :=
  evolve_slots fuel POP_SIZE 0 s.

(** The GET_BEST_CANDIDATE branch of [run]. *)
Definition compute_local_best (s : t) : option t :=
  let min := min_element (callback_error_evaluation_ base_de_)
               (pop_errors_ s) in
  r ← population_ s !! min;
  e ← pop_errors_ s !! min;
  Some (with_best s (e, r)).

(** One pass of the worker loop of [run] over a pending command. *)
Definition run_command (fuel : nat) (s : t) : option t :=
  if pending_work_ s then
    s' ← match work_type_ s with
         | SOLVE_GENERATION => evolve_generation fuel s
         | GET_BEST_CANDIDATE => compute_local_best s
         end;
    Some (with_flags s' false true (work_type_ s'))
  else Some s.

(** [generatePopulation] and [calcGenerationError], the start of [run];
    [calls] is the number of calls the generator has served before. *)
Definition generatePopulation (calls : nat) : list (list POP_TYPE) :=
  map (λ i,
         map (λ d, callback_population_generator_ base_de_
                     (calls + i * POP_DIM + d))
             (seq 0 POP_DIM))
      (seq 0 POP_SIZE).

Definition calcGenerationError (p : list (list POP_TYPE))
    : list ERROR_TYPE :=
  map (callback_calc_error_ base_de_) p.

(** The state in which the worker enters its command loop.  The solvers are
    initialised one after the other, in the order of their ids.
    [calcGenerationError] leaves the last row in [pop_candidate_].
    [work_type_] has no initial value in the source and is not read before
    the first request sets it. *)
Definition start (id : nat) : t :=
  let p := generatePopulation (id * (POP_SIZE * POP_DIM)) in
  mk id p (default [] (last p)) (calcGenerationError p) None
     false false SOLVE_GENERATION 0 0 0.

(** The request side, called from the coordinator's thread; the worker then
    runs the command. *)
Definition solveOneGeneration (fuel : nat) (s : t) : option t :=
  run_command fuel (with_flags s true false SOLVE_GENERATION).

Definition solveBestCandidate (fuel : nat) (s : t) : option t :=
  run_command fuel (with_flags s true false GET_BEST_CANDIDATE).

Definition getBestCandidate (s : t) : option (ERROR_TYPE * list POP_TYPE) :=
  best_candidate_ s.

(** [waitWork] returns once [work_ready_] holds; a wait that nothing will
    ever satisfy blocks for ever. *)
Definition waitWork (s : t) : option t :=
  if work_ready_ s then Some s else None.

End ThreadsDESolver.
End ThreadsDESolver.

(** ** The coordinator, [ThreadsDE] *)

Module ThreadsDE.

(** The two random functions of the migration step. *)
Record Streams := mkStreams {
  random_phi_ : nat -> Q;
  random_migration_index_ : nat -> nat
}.

(** What the coordinator's thread does to the solvers, in program order:
    a request to solver [i], a [waitWork] on solver [i], the assignment
    [solvers_[dst]->population_[slot] = cand] made while serving solver
    [src].  The trace is not in the source; it records the calls so that
    statements about them can be made. *)
Inductive Event (CANDIDATE : Type) :=
  | Request (w : WorkType) (i : nat)
  | Wait (i : nat)
  | Assign (src dst slot : nat) (cand : CANDIDATE).
Arguments Request {_} _ _.
Arguments Wait {_} _.
Arguments Assign {_} _ _ _ _.

Section ThreadsDE.
Context {POP_TYPE ERROR_TYPE : Type} `{PopArith POP_TYPE, ErrorNum ERROR_TYPE}.

Local Abbreviation solver := (@ThreadsDESolver.t POP_TYPE ERROR_TYPE).

Record t := mk {
  solvers_ : list solver;
  phi_calls : nat;
  migration_calls : nat;
  trace : list (Event (list POP_TYPE))
}.

Variable POP_DIM : nat.
Variable kNProcess_ : nat.
Variable kMigrationPhi_ : Q.
Variable kPopSize_ : nat.
Variable base_de : BaseDE POP_TYPE ERROR_TYPE.
Variable solver_rng : nat -> ThreadsDESolver.Streams.
Variable rng : Streams.

(** Each solver keeps [kPopSize_ / kNProcess_] entities. *)
Definition share : nat := kPopSize_ / kNProcess_.

(** The constructor, with every solver past its initialisation. *)
Definition init : t :=
  mk (map (ThreadsDESolver.start POP_DIM share base_de) (seq 0 kNProcess_))
     0 0 [].

(** [for (auto& s : solvers_) s->solveOneGeneration();] and
    [for (auto& s : solvers_) s->solveBestCandidate();], each request with
    the command it starts (the sequential reading; [Threaded] has the
    requests and the commands as separate steps). *)
Definition request_all (w : WorkType) (fuel : nat) (st : t) : option t :=
  ss ← mapM (λ s : solver,
               match w with
               | SOLVE_GENERATION =>
                   ThreadsDESolver.solveOneGeneration POP_DIM share base_de
                     (solver_rng (ThreadsDESolver.kID_ s)) fuel s
               | GET_BEST_CANDIDATE =>
                   ThreadsDESolver.solveBestCandidate POP_DIM share base_de
                     (solver_rng (ThreadsDESolver.kID_ s)) fuel s
               end) (solvers_ st);
  Some (mk ss (phi_calls st) (migration_calls st)
           (trace st ++ map (Request w) (seq 0 (length (solvers_ st))))).

(** [for (auto& s : solvers_) s->waitWork();] *)
Definition wait_all (st : t) : option t :=
  ss ← mapM ThreadsDESolver.waitWork (solvers_ st);
  Some (mk ss (phi_calls st) (migration_calls st)
           (trace st ++ map Wait (seq 0 (length (solvers_ st))))).

(** The body of the [if] in [migration]. *)
Definition migrate (i : nat) (st : t) : option t :=
  s ← solvers_ st !! i;
  _ ← ThreadsDESolver.waitWork s;
  bc ← ThreadsDESolver.getBestCandidate s;
  let mi := random_migration_index_ rng (migration_calls st) in
  let dst := (i + 1) mod length (solvers_ st) in
  d ← solvers_ st !! dst;
  p ← store mi bc.2 (ThreadsDESolver.population_ d);
  Some (mk (<[dst := ThreadsDESolver.with_population d p]> (solvers_ st))
           (phi_calls st) (S (migration_calls st))
           (trace st ++ [Wait i; Assign i dst mi bc.2])).

(** [for (int i = from; i < solvers_.size(); ++i)] with [k] solvers left. *)
Fixpoint migration_loop (k from : nat) (st : t) : option t :=
  match k with
  | 0 => Some st
  | S k' =>
      let u := random_phi_ rng (phi_calls st) in
      let st1 := mk (solvers_ st) (S (phi_calls st)) (migration_calls st)
                    (trace st) in
      st2 ← (if Qlt_bool u kMigrationPhi_ then migrate from st1
             else Some st1);
      migration_loop k' (S from) st2
  end.

Definition migration (fuel : nat) (st : t) : option t :=
  st1 ← request_all GET_BEST_CANDIDATE fuel st;
  migration_loop (length (solvers_ st1)) 0 st1.

Definition solveOneGeneration (fuel : nat) (st : t) : option t :=
  st1 ← request_all SOLVE_GENERATION fuel st;
  st2 ← wait_all st1;
  migration fuel st2.

Fixpoint solveNGenerations (fuel N : nat) (st : t) : option t :=
  match N with
  | 0 => Some st
  | S N' => st1 ← solveOneGeneration fuel st; solveNGenerations fuel N' st1
  end.

(** The second loop of [getBestCandidate], with the locals
    [double min_error] and [min_error_pos]. *)
Fixpoint reduce_best (l : list solver)
    (min_error : Q) (min_error_pos : list POP_TYPE)
    : option (Q * list POP_TYPE) :=
  match l with
  | [] => Some (min_error, min_error_pos)
  | s :: l' =>
      _ ← ThreadsDESolver.waitWork s;
      bc ← ThreadsDESolver.getBestCandidate s;
      if error_lt_double bc.1 min_error
      then reduce_best l' (error_to_double bc.1) bc.2
      else reduce_best l' min_error min_error_pos
  end.

Definition getBestCandidate (fuel : nat) (st : t)
    : option (t * (ERROR_TYPE * list POP_TYPE)) :=
  st1 ← request_all GET_BEST_CANDIDATE fuel st;
  s0 ← solvers_ st1 !! 0;
  _ ← ThreadsDESolver.waitWork s0;
  first ← ThreadsDESolver.getBestCandidate s0;
  r ← reduce_best (solvers_ st1) (error_to_double first.1) first.2;
  Some (mk (solvers_ st1) (phi_calls st1) (migration_calls st1)
           (trace st1 ++ Wait 0 :: map Wait (seq 0 (length (solvers_ st1)))),
        (error_of_double r.1, r.2)).

End ThreadsDE.
End ThreadsDE.

(** ** The threads, interleaved

    The coordinator's thread and the worker threads, one statement at a
    time.  A schedule says which thread moves next.  The command of a
    worker (lines 151-167) is one step, and so is each store of a flag and
    the assignment of [migration]; a subscript that is out of range, and a
    rejection loop that does not stop within the fuel, are [Undefined]. *)

Module Threaded.

(** Where a worker stands in the loop of [run] (lines 140-176): at
    [cond_.wait(lock, pending_work_)] (line 143); past it, with the command
    next (lines 151-167); past the command, with [pending_work_ = false]
    next (line 172); past that, with [work_ready_ = true] next (lines
    173-175), after which it is back at the wait.  [finish_] is set by
    [join] only, which the coordinator does not call, and is left out. *)
Inductive Position :=
  | AtWait
  | AtCommand
  | AtClear
  | AtReady.

(** The statements of the coordinator's thread.  A request
    ([solveOneGeneration], [solveBestCandidate], lines 67-83) is three
    stores made while holding [mutex_]: [SetPending] locks it and stores
    [pending_work_ = true], [ClearReady] stores [work_ready_ = false],
    [SetType] stores [work_type_], notifies and unlocks.  [WaitWork] is
    [waitWork] (lines 89-93).  [Draw i] is the test
    [random_phi_() < kMigrationPhi_] of [migration] for the solver [i]
    (line 407) and [Copy i] the rest of the body of the [if] (lines
    409-411). *)
Inductive Statement :=
  | SetPending (i : nat)
  | ClearReady (i : nat)
  | SetType (w : WorkType) (i : nat)
  | WaitWork (i : nat)
  | Draw (i : nat)
  | Copy (i : nat).

Inductive Thread :=
  | Coordinator
  | Worker (k : nat).

(** What the next step of a thread gives: the next state; [Blocked] when
    the thread cannot move (its wait is not over, the mutex it needs is
    taken, or it has nothing to execute); [Undefined]. *)
Inductive Outcome (A : Type) :=
  | Next (a : A)
  | Blocked
  | Undefined.
Arguments Next {_} _.
Arguments Blocked {_}.
Arguments Undefined {_}.

(** [for (auto& s : solvers_) s->solveOneGeneration();] and
    [for (auto& s : solvers_) s->solveBestCandidate();] *)
Definition requests (w : WorkType) (n : nat) : list Statement :=
  flat_map (λ i, [SetPending i; ClearReady i; SetType w i]) (seq 0 n).

(** The statements of [ThreadsDE::solveOneGeneration] with [n] solvers, up
    to the loop of [migration]; a [Draw] that allows the migration puts the
    body of its [if] in front of the remaining ones. *)
Definition solveOneGeneration (n : nat) : list Statement :=
  requests SOLVE_GENERATION n ++ map WaitWork (seq 0 n)
  ++ requests GET_BEST_CANDIDATE n ++ map Draw (seq 0 n).

Fixpoint solveNGenerations (N n : nat) : list Statement :=
  match N with
  | 0 => []
  | S N' => solveOneGeneration n ++ solveNGenerations N' n
  end.

(** Every worker of [n] solvers in turn, each through one pass of its
    loop: past the wait, the command, the two stores. *)
Definition workers_pass (n : nat) : list Thread :=
  flat_map (λ k, replicate 4 (Worker k)) (seq 0 n).

(** The schedule of one [solveOneGeneration] of [n] solvers in which every
    worker finishes its command before the coordinator's thread moves on;
    [drawn] is the number of solvers whose draw allows the migration. *)
Definition in_step (n drawn : nat) : list Thread :=
  replicate (3 * n) Coordinator ++ workers_pass n
  ++ replicate n Coordinator
  ++ replicate (3 * n) Coordinator ++ workers_pass n
  ++ replicate (n + 2 * drawn) Coordinator.

Section Threaded.
Context {POP_TYPE ERROR_TYPE : Type} `{PopArith POP_TYPE}.

Local Abbreviation solver := (@ThreadsDESolver.t POP_TYPE ERROR_TYPE).

(** The solvers, each with the position of its worker; the positions of the
    coordinator's two random functions; the statements the coordinator's
    thread still has to execute ([todo] is empty when it is back in the
    caller) and, for the statements about them, those it has executed. *)
Record t := mk {
  solvers_ : list (solver * Position);
  phi_calls : nat;
  migration_calls : nat;
  todo : list Statement;
  log : list Statement
}.

Variable POP_DIM : nat.
Variable kNProcess_ : nat.
Variable kMigrationPhi_ : Q.
Variable kPopSize_ : nat.
Variable base_de : BaseDE POP_TYPE ERROR_TYPE.
Variable solver_rng : nat -> ThreadsDESolver.Streams.
Variable rng : ThreadsDE.Streams.
Variable fuel : nat.

(** A coordinator whose workers are all at their wait. *)
Definition idle (st : @ThreadsDE.t POP_TYPE ERROR_TYPE) : t :=
  mk (map (λ s, (s, AtWait)) (ThreadsDE.solvers_ st))
     (ThreadsDE.phi_calls st) (ThreadsDE.migration_calls st) [] [].

(** The caller invokes a method of the coordinator. *)
Definition call (program : list Statement) (st : t) : t :=
  mk (solvers_ st) (phi_calls st) (migration_calls st) program (log st).

(** The coordinator's thread stores into the solver [i]. *)
Definition store_in (i : nat) (f : solver -> solver) (c : Statement)
    (rest : list Statement) (st : t) : Outcome t :=
  match solvers_ st !! i with
  | Some (s, pos) =>
      Next (mk (<[i := (f s, pos)]> (solvers_ st)) (phi_calls st)
              (migration_calls st) rest (log st ++ [c]))
  | None => Undefined
  end.

Definition coordinator_step (st : t) : Outcome t :=
  match todo st with
  | [] => Blocked
  | c :: rest =>
      match c with
      | SetPending i =>
          store_in i
            (λ s, ThreadsDESolver.with_flags s true
                    (ThreadsDESolver.work_ready_ s)
                    (ThreadsDESolver.work_type_ s)) c rest st
      | ClearReady i =>
          store_in i
            (λ s, ThreadsDESolver.with_flags s
                    (ThreadsDESolver.pending_work_ s) false
                    (ThreadsDESolver.work_type_ s)) c rest st
      | SetType w i =>
          store_in i
            (λ s, ThreadsDESolver.with_flags s
                    (ThreadsDESolver.pending_work_ s)
                    (ThreadsDESolver.work_ready_ s) w) c rest st
      | WaitWork i =>
          match solvers_ st !! i with
          | Some (s, _) =>
              if ThreadsDESolver.work_ready_ s
              then Next (mk (solvers_ st) (phi_calls st) (migration_calls st)
                            rest (log st ++ [c]))
              else Blocked
          | None => Undefined
          end
      | Draw i =>
          let u := ThreadsDE.random_phi_ rng (phi_calls st) in
          Next (mk (solvers_ st) (S (phi_calls st)) (migration_calls st)
                  (if Qlt_bool u kMigrationPhi_
                   then WaitWork i :: Copy i :: rest else rest)
                  (log st ++ [c]))
      | Copy i =>
          let mi :=
            ThreadsDE.random_migration_index_ rng (migration_calls st) in
          let dst := (i + 1) mod length (solvers_ st) in
          match solvers_ st !! i with
          | Some (s, _) =>
              match ThreadsDESolver.getBestCandidate s,
                    solvers_ st !! dst with
              | Some bc, Some (d, pos) =>
                  match store mi bc.2 (ThreadsDESolver.population_ d) with
                  | Some p =>
                      Next (mk (<[dst := (ThreadsDESolver.with_population d p,
                                          pos)]> (solvers_ st))
                              (phi_calls st) (S (migration_calls st))
                              rest (log st ++ [c]))
                  | None => Undefined
                  end
              | _, _ => Undefined
              end
          | None => Undefined
          end
      end
  end.

(** The coordinator's thread holds [mutex_] of the solver [k]: it is
    between the first and the last store of a request to it. *)
Definition holds_mutex (k : nat) (st : t) : bool :=
  match todo st with
  | ClearReady i :: _ | SetType _ i :: _ => bool_decide (i = k)
  | _ => false
  end.

(** The next step of the worker of the solver [k]. *)
Definition worker_step (k : nat) (st : t) : Outcome t :=
  match solvers_ st !! k with
  | None => Blocked
  | Some (s, pos) =>
      let move s' pos' :=
        Next (mk (<[k := (s', pos')]> (solvers_ st)) (phi_calls st)
                (migration_calls st) (todo st) (log st)) in
      match pos with
      | AtWait =>
          if ThreadsDESolver.pending_work_ s && negb (holds_mutex k st)
          then move s AtCommand else Blocked
      | AtCommand =>
          match
            match ThreadsDESolver.work_type_ s with
            | SOLVE_GENERATION =>
                ThreadsDESolver.evolve_generation POP_DIM
                  (ThreadsDE.share kNProcess_ kPopSize_) base_de
                  (solver_rng (ThreadsDESolver.kID_ s)) fuel s
            | GET_BEST_CANDIDATE =>
                ThreadsDESolver.compute_local_best base_de s
            end
          with
          | Some s' => move s' AtClear
          | None => Undefined
          end
      | AtClear =>
          move (ThreadsDESolver.with_flags s false
                  (ThreadsDESolver.work_ready_ s)
                  (ThreadsDESolver.work_type_ s)) AtReady
      | AtReady =>
          move (ThreadsDESolver.with_flags s
                  (ThreadsDESolver.pending_work_ s) true
                  (ThreadsDESolver.work_type_ s)) AtWait
      end
  end.

Definition step (th : Thread) (st : t) : Outcome t :=
  match th with
  | Coordinator => coordinator_step st
  | Worker k => worker_step k st
  end.

(** The threads move in the order of the schedule. *)
Fixpoint run (schedule : list Thread) (st : t) : Outcome t :=
  match schedule with
  | [] => Next st
  | th :: schedule' =>
      match step th st with
      | Next st' => run schedule' st'
      | Blocked => Blocked
      | Undefined => Undefined
      end
  end.

(** The coordinator's thread is inside a call and no thread can move. *)
Definition deadlocked (st : t) : Prop :=
  todo st <> [] /\ forall th, step th st = Blocked.

(** The candidates and errors at every slot of every solver. *)
Definition subpopulations (st : t)
    : list (list (list POP_TYPE) * list ERROR_TYPE) :=
  map (λ sp : solver * Position,
         (ThreadsDESolver.population_ sp.1, ThreadsDESolver.pop_errors_ sp.1))
      (solvers_ st).

End Threaded.
End Threaded.

(** ** The usual instance: [POP_TYPE = ERROR_TYPE = double] *)

#[export] Instance Q_PopArith : PopArith Q :=
  {| pop_add := Qplus; pop_sub := Qminus; pop_scale := Qmult |}.

#[export] Instance Q_ErrorNum : ErrorNum Q :=
  {| error_to_double := λ e, e;
     error_lt_double := Qlt_bool;
     error_of_double := λ d, d |}.

(** ** Vocabulary of the statements *)

(** A stream that keeps delivering a value outside any two given ones. *)
Definition keeps_offering (f : nat -> nat) : Prop :=
  forall p x y, exists q, p <= q /\ f q <> x /\ f q <> y.

(** After its call number [n], which gives [it0], the stream delivers the
    values the selection needs: a first value other than [it0] at call
    [q1], which gives [it1], and later, at call [q2], a value other than
    both. *)
Definition offers_distinct (f : nat -> nat) (n : nat) : Prop :=
  exists q1 q2,
    n < q1 < q2 /\ f q1 <> f n /\ (forall q, n < q < q1 -> f q = f n) /\
    f q2 <> f n /\ f q2 <> f q1.

Section OrderVocabulary.
Context {E : Type}.
Variable comp : E -> E -> bool.

Definition irreflexive : Prop := forall a, comp a a = false.

Definition transitive : Prop :=
  forall a b c, comp a b = true -> comp b c = true -> comp a c = true.

(** Neither element is better than the other. *)
Definition tied (a b : E) : Prop := comp a b = false /\ comp b a = false.

(** With the two properties above this makes [comp] a strict weak
    ordering, what [std::min_element] asks of its comparison. *)
Definition tied_transitive : Prop :=
  forall a b c, tied a b -> tied b c -> tied a c.

(** The position [m] holds [e], a least element of [l], and is the first
    position holding it. *)
Definition first_least (l : list E) (m : nat) (e : E) : Prop :=
  l !! m = Some e /\
  (forall k ek, l !! k = Some ek -> comp ek e = false) /\
  (forall k ek, k < m -> l !! k = Some ek -> ek <> e).

(** Every element before position [m] is strictly worse than [e]. *)
Definition beats_earlier (l : list E) (m : nat) (e : E) : Prop :=
  forall k ek, k < m -> l !! k = Some ek -> comp e ek = true.

End OrderVocabulary.

Section SolverVocabulary.
Context {POP_TYPE ERROR_TYPE : Type} `{PopArith POP_TYPE}.
Variable base_de_ : BaseDE POP_TYPE ERROR_TYPE.

(** What one pass of the crossover loop stores at dimension [j], given the
    draw [u]. *)
Definition crossed (population : list (list POP_TYPE)) (actual_index : nat)
    (t0 t1 t2 : list POP_TYPE) (u : Q) (j : nat) : option POP_TYPE :=
  if Qle_bool u (kCR_ base_de_)
  then ThreadsDESolver.combination base_de_ t0 t1 t2 j
  else at2 population actual_index j.

(** Slot [x] holds the same candidate and the same error in [s'] as in [s]. *)
Definition slot_kept (s s' : @ThreadsDESolver.t POP_TYPE ERROR_TYPE)
    (x : nat) : Prop :=
  ThreadsDESolver.population_ s' !! x = ThreadsDESolver.population_ s !! x /\
  ThreadsDESolver.pop_errors_ s' !! x = ThreadsDESolver.pop_errors_ s !! x.

(** Slot [x] of [s'] holds a trial, with its error, that the predicate
    judges better than the error slot [x] had in [s]. *)
Definition slot_improved (s s' : @ThreadsDESolver.t POP_TYPE ERROR_TYPE)
    (x : nat) : Prop :=
  exists trial e_old,
    ThreadsDESolver.pop_errors_ s !! x = Some e_old /\
    ThreadsDESolver.population_ s' !! x = Some trial /\
    ThreadsDESolver.pop_errors_ s' !! x
      = Some (callback_calc_error_ base_de_ trial) /\
    callback_error_evaluation_ base_de_
      (callback_calc_error_ base_de_ trial) e_old = true.

(** The arrays of [s] have the sizes their types give them. *)
Definition well_formed (POP_DIM POP_SIZE : nat)
    (s : @ThreadsDESolver.t POP_TYPE ERROR_TYPE) : Prop :=
  length (ThreadsDESolver.population_ s) = POP_SIZE /\
  length (ThreadsDESolver.pop_errors_ s) = POP_SIZE /\
  length (ThreadsDESolver.pop_candidate_ s) = POP_DIM /\
  Forall (λ row, length row = POP_DIM) (ThreadsDESolver.population_ s).

End SolverVocabulary.

(** The index streams stay within [uniform_int_distribution(0, POP_SIZE-1)]
    and [uniform_int_distribution(0, POP_DIM-1)]. *)
Definition in_range (POP_DIM POP_SIZE : nat) (rng : ThreadsDESolver.Streams)
    : Prop :=
  (forall n, ThreadsDESolver.random_trials_ rng n < POP_SIZE) /\
  (forall n, ThreadsDESolver.random_j_ rng n < POP_DIM).

Section CoordinatorVocabulary.
Context {POP_TYPE ERROR_TYPE : Type}.

(** The solvers on which a piece of trace waits, in order. *)
Fixpoint waited (evs : list (ThreadsDE.Event (list POP_TYPE))) : list nat :=
  match evs with
  | [] => []
  | ThreadsDE.Wait i :: evs' => i :: waited evs'
  | _ :: evs' => waited evs'
  end.

(** The draw of [random_phi_] after [c] calls allows a migration. *)
Definition allows (kMigrationPhi_ : Q) (rng : ThreadsDE.Streams) (c : nat)
    : bool :=
  Qlt_bool (ThreadsDE.random_phi_ rng c) kMigrationPhi_.

(** The candidates and errors at every slot of every solver. *)
Definition subpopulations (st : @ThreadsDE.t POP_TYPE ERROR_TYPE)
    : list (list (list POP_TYPE) * list ERROR_TYPE) :=
  map (λ s : @ThreadsDESolver.t POP_TYPE ERROR_TYPE,
         (ThreadsDESolver.population_ s, ThreadsDESolver.pop_errors_ s))
      (ThreadsDE.solvers_ st).

End CoordinatorVocabulary.

Section ClaimVocabulary.
Context {POP_TYPE ERROR_TYPE : Type}.

(** [r] is the best of the local bests of [solvers] under [better]: it is
    the local best of one of them and no local best is strictly better. *)
Definition best_of_local_bests (better : ERROR_TYPE -> ERROR_TYPE -> bool)
    (solvers : list (@ThreadsDESolver.t POP_TYPE ERROR_TYPE))
    (r : ERROR_TYPE * list POP_TYPE) : Prop :=
  (exists s, In s solvers /\ ThreadsDESolver.best_candidate_ s = Some r) /\
  (forall s b, In s solvers -> ThreadsDESolver.best_candidate_ s = Some b ->
     better b.1 r.1 = false).

(** The events that [st'] has recorded since [st]. *)
Definition events_since (st st' : @ThreadsDE.t POP_TYPE ERROR_TYPE)
    : list (ThreadsDE.Event (list POP_TYPE)) :=
  drop (length (ThreadsDE.trace st)) (ThreadsDE.trace st').

(** The solver at position [i] has the same candidates and errors in [st']
    as in [st]. *)
Definition subpopulation_unchanged (i : nat)
    (st st' : @ThreadsDE.t POP_TYPE ERROR_TYPE) : Prop :=
  subpopulations st' !! i = subpopulations st !! i.

End ClaimVocabulary.

(** ** Vocabulary of the further properties *)

Section InvariantVocabulary.
Context {POP_TYPE ERROR_TYPE : Type}.

(** The stored errors are the errors of the stored candidates: running
    [calcGenerationError] again would change nothing. *)
Definition errors_current (base_de_ : BaseDE POP_TYPE ERROR_TYPE)
    (s : @ThreadsDESolver.t POP_TYPE ERROR_TYPE) : Prop :=
  ThreadsDESolver.pop_errors_ s
  = ThreadsDESolver.calcGenerationError base_de_
      (ThreadsDESolver.population_ s).

(** The coordinator has [kNProcess_] solvers and the arrays of each have
    the sizes of its share. *)
Definition shaped (POP_DIM kNProcess_ kPopSize_ : nat)
    (st : @ThreadsDE.t POP_TYPE ERROR_TYPE) : Prop :=
  length (ThreadsDE.solvers_ st) = kNProcess_ /\
  Forall (well_formed POP_DIM (ThreadsDE.share kNProcess_ kPopSize_))
    (ThreadsDE.solvers_ st).




(** What the commands of a solver read: its id, its arrays and the
    positions of its three random functions.  [best_candidate_] and the
    flags of the request protocol are left out. *)
Definition solver_core (s : @ThreadsDESolver.t POP_TYPE ERROR_TYPE)
    : nat * list (list POP_TYPE) * list POP_TYPE * list ERROR_TYPE
      * (nat * nat * nat) :=
  (ThreadsDESolver.kID_ s, ThreadsDESolver.population_ s,
   ThreadsDESolver.pop_candidate_ s, ThreadsDESolver.pop_errors_ s,
   (ThreadsDESolver.cr_calls s, ThreadsDESolver.trials_calls s,
    ThreadsDESolver.j_calls s)).


(** The number of entities the solvers hold together. *)
Definition entities (st : @ThreadsDE.t POP_TYPE ERROR_TYPE) : nat :=
  list_sum (map (λ s : @ThreadsDESolver.t POP_TYPE ERROR_TYPE,
                   length (ThreadsDESolver.population_ s))
                (ThreadsDE.solvers_ st)).

End InvariantVocabulary.


Definition always_crosses {POP_TYPE ERROR_TYPE}
    (base_de_ : BaseDE POP_TYPE ERROR_TYPE) (rng : ThreadsDESolver.Streams)
    : Prop :=
  forall n, Qle_bool (ThreadsDESolver.random_cr_ rng n) (kCR_ base_de_) = true.

(** What the loop of [migration] may have made of the solver [s] of [st]:
    only its candidate array differs, it has kept its size, and each of its
    rows is a row [s] had or the local best recorded by a solver of [st]. *)
Definition migrated_from {POP_TYPE ERROR_TYPE}
    (st : @ThreadsDE.t POP_TYPE ERROR_TYPE)
    (s s' : @ThreadsDESolver.t POP_TYPE ERROR_TYPE) : Prop :=
  exists p,
    s' = ThreadsDESolver.with_population s p /\
    length p = length (ThreadsDESolver.population_ s) /\
    forall row, In row p ->
      In row (ThreadsDESolver.population_ s) \/
      exists src bc, In src (ThreadsDE.solvers_ st) /\
        ThreadsDESolver.best_candidate_ src = Some bc /\ row = bc.2.

(** The built-in [<] between an error and the [double] accumulator of
    [getBestCandidate] compares the error as a [double], as it does for
    the arithmetic types the conversion to [double] widens. *)
Definition compares_in_double (ERROR_TYPE : Type) `{ErrorNum ERROR_TYPE}
    : Prop :=
  forall (e : ERROR_TYPE) (d : Q),
    error_lt_double e d = Qlt_bool (error_to_double e) d.

(** Every error is a [double]: the conversion to [double] and back returns
    it. *)
Definition exact_in_double (ERROR_TYPE : Type) `{ErrorNum ERROR_TYPE}
    : Prop :=
  forall e : ERROR_TYPE, error_of_double (error_to_double e) = e.

(** The order of the errors as doubles. *)
Definition less_as_double {ERROR_TYPE : Type} `{ErrorNum ERROR_TYPE}
    (a b : ERROR_TYPE) : bool :=
  Qlt_bool (error_to_double a) (error_to_double b).

(** ** Concrete configurations

    [POP_TYPE = ERROR_TYPE = double]; the error of a candidate is its first
    component. *)

Module Example.

(** A generator that returns the values of [l], one per call. *)
Definition values (l : list Z) (n : nat) : Q :=
  inject_Z (default 0%Z (l !! n)).

Definition first_component (c : list Q) : Q := default 0%Q (c !! 0).

(** Minimisation, [callback_error_evaluation = a < b], CR = 1/2, F = 1. *)
Definition minimise : BaseDE Q Q :=
  mkBaseDE Q Q (1 # 2)%Q 1%Q
    (values [4; 1; 3; 8; 7; 2; 9; 6; 5; 0; 2; 1]%Z) first_component Qlt_bool.

(** Maximisation, [callback_error_evaluation = a > b], CR = 9/10,
    F = 8/10. *)
Definition maximise : BaseDE Q Q :=
  mkBaseDE Q Q (9 # 10)%Q (8 # 10)%Q (values [5; 1; 4; 2; 3; 2; 1; 0]%Z)
    first_component (λ a b, Qlt_bool b a).

(** Crossover draws 1/4, 3/4, 1/4, ...; trial indices 0, 1, 2, 0, ...;
    start dimension [j]. *)
Definition cycle (j : nat) : ThreadsDESolver.Streams :=
  ThreadsDESolver.mkStreams (λ n, if Nat.even n then (1 # 4)%Q else (3 # 4)%Q)
    (λ n, n mod 3) (λ _, j).

(** Trial indices 0, 0, 1, 1, 0, 2 and then 2: both loops reject draws. *)
Definition stutter : ThreadsDESolver.Streams :=
  ThreadsDESolver.mkStreams (λ _, 0%Q)
    (λ n, default 2 ([0; 0; 1; 1; 0; 2] !! n)) (λ _, 0).

(** Trial indices 0, 1, 0, 1, ...: a subpopulation of two. *)
Definition two_indices : ThreadsDESolver.Streams :=
  ThreadsDESolver.mkStreams (λ _, 0%Q) (λ n, n mod 2) (λ _, 0).

(** Migration draws 3/4, 1/4, 3/4, ...; slot 1 every time. *)
Definition alternate : ThreadsDE.Streams :=
  ThreadsDE.mkStreams (λ n, if Nat.even n then (3 # 4)%Q else (1 # 4)%Q)
    (λ _, 1).

(** Migration draws 1/4 every time; slot 1 every time. *)
Definition always : ThreadsDE.Streams :=
  ThreadsDE.mkStreams (λ _, (1 # 4)%Q) (λ _, 1).

(** One solver of four one-dimensional entities 4, 1, 3, 8. *)
Definition line : @ThreadsDESolver.t Q Q :=
  ThreadsDESolver.start 1 4 minimise 0.

(** One solver of four three-dimensional entities
    (4,1,3), (8,7,2), (9,6,5), (0,2,1). *)
Definition cube : @ThreadsDESolver.t Q Q :=
  ThreadsDESolver.start 3 4 minimise 0.

(** Two solvers of four one-dimensional entities each, 5, 1, 4, 2 and
    3, 2, 1, 0, under the maximising strategy. *)
Definition pair : @ThreadsDE.t Q Q := ThreadsDE.init 1 2 8 maximise.

(** Two solvers of four one-dimensional entities each, 4, 1, 3, 8 and
    7, 2, 9, 6, under the minimising strategy; the same after the
    generation phase of [solveOneGeneration]; and the same once the
    migration has requested the local bests. *)
Definition quads : @ThreadsDE.t Q Q := ThreadsDE.init 1 2 8 minimise.

Definition quads_evolved : @ThreadsDE.t Q Q :=
  default quads
    (ThreadsDE.request_all 1 2 8 minimise (λ _, cycle 0)
       SOLVE_GENERATION 0 quads ≫= ThreadsDE.wait_all).

Definition quads_ready : @ThreadsDE.t Q Q :=
  default quads
    (ThreadsDE.request_all 1 2 8 minimise (λ _, cycle 0)
       GET_BEST_CANDIDATE 0 quads_evolved).

(** A single solver of four one-dimensional entities 4, 1, 3, 8, at the
    same three points of [solveOneGeneration]. *)
Definition single : @ThreadsDE.t Q Q := ThreadsDE.init 1 1 4 minimise.

Definition single_evolved : @ThreadsDE.t Q Q :=
  default single
    (ThreadsDE.request_all 1 1 4 minimise (λ _, cycle 0)
       SOLVE_GENERATION 0 single ≫= ThreadsDE.wait_all).

Definition single_ready : @ThreadsDE.t Q Q :=
  default single
    (ThreadsDE.request_all 1 1 4 minimise (λ _, cycle 0)
       GET_BEST_CANDIDATE 0 single_evolved).


(** Three solvers of two one-dimensional entities each: two of the eight
    entities asked for are not created. *)
Definition triple : @ThreadsDE.t Q Q := ThreadsDE.init 1 3 8 minimise.

(** The two solvers of [quads] with their workers at the wait. *)
Definition quads_threads : @Threaded.t Q Q := Threaded.idle quads.

(** [k] consecutive steps of one thread.  A request takes the coordinator's
    thread three steps; a command takes its worker four: past the wait, the
    command, [pending_work_ = false], [work_ready_ = true]. *)
Definition turns (th : Threaded.Thread) (k : nat) : list Threaded.Thread :=
  replicate k th.

(** One [solveOneGeneration] of two solvers in which every worker finishes
    its command before the coordinator's thread moves on.  The migration
    draws twice and the second draw allows the migration: [Draw 0],
    [Draw 1], [WaitWork 1], [Copy 1]. *)
Definition in_step : list Threaded.Thread := Threaded.in_step 2 1.

(** The same, except that the worker of solver 0 has not moved since the
    local bests were requested when [solveOneGeneration] returns. *)
Definition worker_late : list Threaded.Thread :=
  turns Threaded.Coordinator 6
  ++ turns (Threaded.Worker 0) 4 ++ turns (Threaded.Worker 1) 4
  ++ turns Threaded.Coordinator 2
  ++ turns Threaded.Coordinator 6
  ++ turns (Threaded.Worker 1) 4
  ++ turns Threaded.Coordinator 4.

(** The same, except that the worker of solver 0 has run its local best
    command and not yet stored [pending_work_ = false] when
    [solveOneGeneration] returns. *)
Definition worker_between : list Threaded.Thread :=
  turns Threaded.Coordinator 6
  ++ turns (Threaded.Worker 0) 4 ++ turns (Threaded.Worker 1) 4
  ++ turns Threaded.Coordinator 2
  ++ turns Threaded.Coordinator 6
  ++ turns (Threaded.Worker 1) 4 ++ turns (Threaded.Worker 0) 2
  ++ turns Threaded.Coordinator 4.

(** A second [solveOneGeneration] after [worker_between]: the generation
    is requested of solver 0, then its worker stores
    [pending_work_ = false] and [work_ready_ = true] for the command it ran
    before; the rest is in step. *)
Definition overtaken : list Threaded.Thread :=
  turns Threaded.Coordinator 3 ++ turns (Threaded.Worker 0) 2
  ++ turns Threaded.Coordinator 3 ++ turns (Threaded.Worker 1) 4
  ++ turns Threaded.Coordinator 2
  ++ turns Threaded.Coordinator 6
  ++ turns (Threaded.Worker 0) 4 ++ turns (Threaded.Worker 1) 4
  ++ turns Threaded.Coordinator 4.

(** A second [solveOneGeneration] after [worker_between]: the two stores of
    the worker of solver 0 fall between [pending_work_ = true] and
    [work_ready_ = false] of the request to it. *)
Definition crossed_stores : list Threaded.Thread :=
  [Threaded.Coordinator; Threaded.Worker 0; Threaded.Worker 0;
   Threaded.Coordinator; Threaded.Coordinator]
  ++ turns Threaded.Coordinator 3 ++ turns (Threaded.Worker 1) 4.


(** [ERROR_TYPE = int64_t].  An integer that is stored in the [double]
    accumulator of [getBestCandidate] is rounded to 53 significant bits, to
    the nearest value and to the even one of two nearest; the conversion
    back truncates. *)
Definition int64_to_double (z : Z) : Q :=
  let m := Z.abs z in
  let s := Z.max 0 (Z.log2 m - 52) in
  let q := Z.shiftr m s in
  let r := (m - Z.shiftl q s)%Z in
  let half := Z.shiftl 1 (s - 1) in
  let q' := if (s =? 0)%Z then q
            else if (r <? half)%Z then q
            else if (half <? r)%Z then (q + 1)%Z
            else if Z.even q then q else (q + 1)%Z in
  inject_Z (Z.sgn z * Z.shiftl q' s).

Definition double_to_int64 (d : Q) : Z := Z.quot (Qnum d) (Z.pos (Qden d)).

Definition int64_errors : ErrorNum Z :=
  {| error_to_double := int64_to_double;
     error_lt_double := λ e d, Qlt_bool (int64_to_double e) d;
     error_of_double := double_to_int64 |}.

(** Candidates 0 and 1 with the errors 2^53 + 1 and 2^53, smaller is
    better. *)
Definition large_errors : BaseDE Q Z :=
  mkBaseDE Q Z (1 # 2)%Q 1%Q (values [0; 1]%Z)
    (λ c, (2 ^ 53 + 1 - double_to_int64 (first_component c))%Z) Z.ltb.

End Example.

(** ** Properties of the trial index selection *)

Section TrialIndices.
Import ThreadsDESolver.
Variable rng : ThreadsDESolver.Streams.

Local Abbreviation stream := (random_trials_ rng).

Lemma redraw_accepts fuel bad v n v' n' :
  redraw rng fuel bad v n = Some (v', n') -> bad v' = false.
Proof.
  revert v n. induction fuel as [|fuel IH]; intros v n; simpl.
  - destruct (bad v) eqn:Hb; [discriminate|]. intros [= <- <-]. exact Hb.
  - destruct (bad v) eqn:Hb; [apply IH|]. intros [= <- <-]. exact Hb.
Qed.

(** A redrawn value is the initial one or a value of the stream. *)
Lemma redraw_from_stream fuel bad v n v' n' :
  redraw rng fuel bad v n = Some (v', n') ->
  v' = v \/ exists m, v' = stream m.
Proof.
  revert v n. induction fuel as [|fuel IH]; intros v n; simpl.
  - destruct (bad v); [discriminate|]. intros [= <- <-]. by left.
  - destruct (bad v).
    + intros Hr. right. destruct (IH _ _ Hr) as [->|Hm]; eauto.
    + intros [= <- <-]. by left.
Qed.

Lemma redraw_mono fuel fuel' bad v n r :
  fuel <= fuel' ->
  redraw rng fuel bad v n = Some r ->
  redraw rng fuel' bad v n = Some r.
Proof.
  revert fuel' v n. induction fuel as [|fuel IH]; intros fuel' v n Hle; simpl.
  - destruct fuel'; simpl; destruct (bad v); done.
  - destruct fuel' as [|fuel']; [lia|]. simpl.
    destruct (bad v); [|done]. apply IH. lia.
Qed.

(** The loop stops as soon as the stream delivers an acceptable value. *)
Lemma redraw_stops d bad v n :
  bad (stream (n + d)) = false ->
  exists r, redraw rng (S d) bad v n = Some r.
Proof.
  revert v n. induction d as [|d IH]; intros v n Hd.
  - simpl. destruct (bad v); [|eauto].
    replace (n + 0) with n in Hd by lia. rewrite Hd. eauto.
  - cbn [redraw]. destruct (bad v); [|eauto].
    apply IH. by replace (S n + d) with (n + S d) by lia.
Qed.

Lemma trial_indices_inv fuel n it0 it1 it2 n' :
  trial_indices rng fuel n = Some (it0, it1, it2, n') ->
  exists n1,
    it0 = stream n /\
    redraw rng fuel (λ v, bool_decide (v = it0))
      (stream (S n)) (S (S n)) = Some (it1, n1) /\
    redraw rng fuel
      (λ v, bool_decide (v = it1) || bool_decide (v = it0))
      (stream n1) (S n1) = Some (it2, n').
Proof.
  unfold trial_indices. intros Hsel.
  destruct (redraw _ _ _ _ _) as [[i1 n1]|] eqn:H1; [|done].
  simpl in Hsel.
  destruct (redraw _ _ _ (stream n1) _) as [[i2 n2]|] eqn:H2;
    [|done].
  simpl in Hsel. injection Hsel as <- <- <- <-. by exists n1.
Qed.

Lemma trial_indices_terminates n :
  keeps_offering stream ->
  exists fuel r, trial_indices rng fuel n = Some r.
Proof.
  intros Hfair. unfold trial_indices.
  set (it0 := stream n).
  destruct (Hfair (S (S n)) it0 it0) as (q1 & Hq1 & Hne1 & _).
  destruct (redraw_stops (q1 - S (S n)) (λ v, bool_decide (v = it0))
              (stream (S n)) (S (S n))) as [[it1 n1] H1].
  { replace (S (S n) + (q1 - S (S n))) with q1 by lia.
    by apply bool_decide_eq_false. }
  destruct (Hfair (S n1) it1 it0) as (q2 & Hq2 & Hne2 & Hne2').
  destruct (redraw_stops (q2 - S n1)
              (λ v, bool_decide (v = it1) || bool_decide (v = it0))
              (stream n1) (S n1)) as [[it2 n2] H2].
  { replace (S n1 + (q2 - S n1)) with q2 by lia.
    apply orb_false_iff. split; by apply bool_decide_eq_false. }
  pose proof (Nat.le_max_l (S (q1 - S (S n))) (S (q2 - S n1))) as Hl.
  pose proof (Nat.le_max_r (S (q1 - S (S n))) (S (q2 - S n1))) as Hr.
  remember (S (q1 - S (S n)) `max` S (q2 - S n1)) as fuel eqn:Hfuel.
  clear Hfuel. exists fuel, (it0, it1, it2, n2).
  rewrite (redraw_mono _ _ _ _ _ _ Hl H1). simpl.
  rewrite (redraw_mono _ _ _ _ _ _ Hr H2). done.
Qed.

(** The loop returns the first acceptable value the stream delivers. *)
Lemma redraw_reaches d bad :
  forall v n,
  bad v = true -> (forall q, n <= q < n + d -> bad (stream q) = true) ->
  bad (stream (n + d)) = false ->
  redraw rng (S d) bad v n = Some (stream (n + d), S (n + d)).
Proof.
  induction d as [|d IH]; intros v n Hv Hbad Hgood.
  - simpl. rewrite Hv. replace (n + 0) with n in * by lia. by rewrite Hgood.
  - cbn [redraw]. rewrite Hv.
    replace (n + S d) with (S n + d) in * by lia.
    apply IH; [apply Hbad; lia| |done]. intros q Hq. apply Hbad. lia.
Qed.

Lemma trial_indices_terminates_at n :
  offers_distinct stream n ->
  exists fuel r, trial_indices rng fuel n = Some r.
Proof.
  intros (q1 & q2 & Hq & Hne1 & Hfirst & Hne2 & Hne2').
  set (bad1 := λ v, bool_decide (v = stream n)).
  set (bad2 := λ v, bool_decide (v = stream q1) || bool_decide (v = stream n)).
  assert (H1 : exists f1, redraw rng f1 bad1 (stream (S n)) (S (S n))
                          = Some (stream q1, S q1)).
  { destruct (decide (q1 = S n)) as [->|Hq1].
    - exists 0. simpl. unfold bad1. by rewrite bool_decide_eq_false_2.
    - exists (S (q1 - S (S n))).
      replace q1 with (S (S n) + (q1 - S (S n))) at 2 3 by lia.
      apply redraw_reaches.
      + unfold bad1. apply bool_decide_eq_true_2, Hfirst. lia.
      + intros q Hq'. unfold bad1. apply bool_decide_eq_true_2, Hfirst. lia.
      + unfold bad1. apply bool_decide_eq_false_2.
        by replace (S (S n) + (q1 - S (S n))) with q1 by lia. }
  destruct H1 as [f1 H1].
  assert (H2 : exists f2 r, redraw rng f2 bad2 (stream (S q1)) (S (S q1))
                            = Some r).
  { assert (Hgood : bad2 (stream q2) = false).
    { unfold bad2. apply orb_false_iff.
      split; by apply bool_decide_eq_false_2. }
    destruct (decide (q2 = S q1)) as [->|Hq2].
    - exists 0. simpl. rewrite Hgood. eauto.
    - exists (S (q2 - S (S q1))). apply redraw_stops.
      by replace (S (S q1) + (q2 - S (S q1))) with q2 by lia. }
  destruct H2 as (f2 & [it2 n2] & H2).
  pose proof (Nat.le_max_l f1 f2) as Hl. pose proof (Nat.le_max_r f1 f2) as Hr.
  exists (f1 `max` f2), (stream n, stream q1, it2, n2).
  unfold trial_indices. fold bad1.
  rewrite (redraw_mono _ _ _ _ _ _ Hl H1). simpl. fold bad2.
  by rewrite (redraw_mono _ _ _ _ _ _ Hr H2).
Qed.

(** The second loop of the selection cannot stop when the two indices to
    avoid are all the indices there are. *)
Lemma redraw_exhausted POP_SIZE fuel it0 it1 v n :
  POP_SIZE < 3 -> (forall m, stream m < POP_SIZE) ->
  it1 <> it0 -> it0 < POP_SIZE -> it1 < POP_SIZE -> v < POP_SIZE ->
  redraw rng fuel
    (λ v, bool_decide (v = it1) || bool_decide (v = it0)) v n = None.
Proof.
  intros Hsz Hrange Hne H0 H1. revert v n.
  assert (Hbad : forall v, v < POP_SIZE ->
            bool_decide (v = it1) || bool_decide (v = it0) = true).
  { intros v Hv. destruct (decide (v = it1)) as [->|Hv1].
    - by rewrite bool_decide_eq_true_2.
    - rewrite (bool_decide_eq_true_2 (v = it0)) by lia.
      apply orb_true_r. }
  induction fuel as [|fuel IH]; intros v n Hv; simpl; rewrite Hbad by done.
  - done.
  - apply IH, Hrange.
Qed.

(** C6.  Distinct trial indices: whenever the index selection of
    [mutation] terminates, whatever the stream [random_trials_] delivers,
    the three indices satisfy [it1 <> it0], [it2 <> it0] and
    [it2 <> it1]. *)
Theorem trial_indices_distinct fuel n it0 it1 it2 n' :
  trial_indices rng fuel n = Some (it0, it1, it2, n') ->
  it1 <> it0 /\ it2 <> it0 /\ it2 <> it1.
Proof.
  intros Hsel. apply trial_indices_inv in Hsel as (n1 & _ & H1 & H2).
  apply redraw_accepts in H1, H2.
  apply bool_decide_eq_false in H1.
  apply orb_false_iff in H2 as [H2a H2b].
  apply bool_decide_eq_false in H2a, H2b. done.
Qed.

(** C8.  Degenerate configuration: with a subpopulation of fewer than 3
    entities (and a stream that delivers indices of the subpopulation) the
    index selection of [mutation] never terminates, and its second loop,
    the search for [it2], terminates for no such stream; with at least 3
    entities the selection terminates for every stream that eventually
    delivers the distinct values it needs. *)
Theorem trial_indices_degenerate POP_SIZE :
  (forall m, stream m < POP_SIZE) ->
  (POP_SIZE < 3 ->
     (forall fuel n, trial_indices rng fuel n = None) /\
     (forall fuel it0 it1 v n,
        it1 <> it0 -> it0 < POP_SIZE -> it1 < POP_SIZE -> v < POP_SIZE ->
        redraw rng fuel
          (λ v, bool_decide (v = it1) || bool_decide (v = it0)) v n
        = None)) /\
  (3 <= POP_SIZE ->
     forall n, offers_distinct stream n ->
     exists fuel r, trial_indices rng fuel n = Some r).
Proof.
  intros Hrange. split.
  - intros Hsz. split.
    + intros fuel n.
      destruct (trial_indices rng fuel n)
        as [[[[it0 it1] it2] n']|] eqn:Hsel; [exfalso|done].
      apply trial_indices_inv in Hsel as (n1 & -> & H1 & H2).
      assert (Hit1 : it1 < POP_SIZE).
      { apply redraw_from_stream in H1 as [->|[m ->]]; apply Hrange. }
      pose proof (Hrange n) as Hit0.
      apply redraw_accepts in H1. apply bool_decide_eq_false in H1.
      by rewrite (redraw_exhausted POP_SIZE) in H2.
    + intros fuel it0 it1 v n. by apply redraw_exhausted.
  - intros _ n. apply trial_indices_terminates_at.
Qed.

End TrialIndices.

(** ** Arithmetic of the dimension cycle [j = (j + 1) % POP_DIM] *)

Lemma mod_cycle j c D :
  j < D -> c < D ->
  (j + c) mod D = if decide (j + c < D) then j + c else j + c - D.
Proof.
  intros Hj Hc. case_decide as Hlt.
  - by apply Nat.mod_small.
  - symmetry. apply (Nat.mod_unique _ _ 1); lia.
Qed.

Lemma mod_cycle_lt j c D : j < D -> (j + c) mod D < D.
Proof. intros Hj. apply Nat.mod_upper_bound. lia. Qed.

Lemma mod_cycle_moves j c D :
  j < D -> 0 < c < D -> (j + c) mod D <> j.
Proof. intros Hj Hc. rewrite mod_cycle by lia. case_decide; lia. Qed.

Lemma mod_cycle_succ j m D :
  ((j + 1) mod D + m) mod D = (j + S m) mod D.
Proof.
  rewrite Nat.Div0.add_mod_idemp_l. f_equal. lia.
Qed.

(** A list that agrees with [a] below [k] and with [c] from [k] on. *)
Lemma take_drop_agree {A} (a b c : list A) k :
  length a = length b -> length c = length b ->
  (forall x, x < k -> b !! x = a !! x) ->
  (forall x, k <= x -> b !! x = c !! x) ->
  b = take k a ++ drop k c.
Proof.
  intros Ha Hc Hlow Hhigh. apply list_eq. intros i.
  destruct (decide (i < k)) as [Hik|Hik].
  - destruct (decide (i < length b)) as [Hib|Hib].
    + rewrite lookup_app_l by (rewrite length_take; lia).
      rewrite lookup_take_lt by done. by apply Hlow.
    + rewrite (lookup_ge_None_2 b) by lia. symmetry.
      apply lookup_ge_None_2. rewrite length_app, length_take, length_drop.
      lia.
  - rewrite lookup_app_r by (rewrite length_take; lia).
    rewrite lookup_drop, length_take, Hhigh by lia.
    destruct (decide (k <= length a)) as [Hka|Hka].
    + f_equal. lia.
    + rewrite !lookup_ge_None_2; [done|lia..].
Qed.

Lemma store_Some {A} i (v : A) a a' :
  store i v a = Some a' -> i < length a /\ a' = <[i := v]> a.
Proof. unfold store. case_decide; [|done]. by intros [= <-]. Qed.

(** ** Properties of [mutation] and [select] *)

Section Generation.
Import ThreadsDESolver.
Context {POP_TYPE ERROR_TYPE : Type} `{PopArith POP_TYPE}.
Variable POP_DIM : nat.
Variable POP_SIZE : nat.
Variable base_de_ : BaseDE POP_TYPE ERROR_TYPE.
Variable rng : ThreadsDESolver.Streams.

Local Abbreviation solver := (@ThreadsDESolver.t POP_TYPE ERROR_TYPE).
Local Abbreviation combination := (ThreadsDESolver.combination base_de_).
Local Abbreviation crossover :=
  (ThreadsDESolver.crossover POP_DIM base_de_ rng).
Local Abbreviation mutation := (ThreadsDESolver.mutation POP_DIM base_de_ rng).
Local Abbreviation select := (ThreadsDESolver.select base_de_).
Local Abbreviation evolve_slots :=
  (ThreadsDESolver.evolve_slots POP_DIM base_de_ rng).
Local Abbreviation better := (callback_error_evaluation_ base_de_).
Local Abbreviation calc_error := (callback_calc_error_ base_de_).

Lemma crossover_spec population i t0 t1 t2 k :
  forall j cand cr cand' cr',
  j < POP_DIM -> length cand = POP_DIM -> k < POP_DIM ->
  crossover k population i t0 t1 t2 j cand cr = Some (cand', cr') ->
  cr' = cr + k /\ length cand' = POP_DIM /\
  (forall m, m < k ->
     exists v, cand' !! ((j + m) mod POP_DIM) = Some v /\
       crossed base_de_ population i t0 t1 t2
         (random_cr_ rng (cr + m)) ((j + m) mod POP_DIM) = Some v) /\
  (forall x, (forall m, m < k -> x <> (j + m) mod POP_DIM) ->
     cand' !! x = cand !! x).
Proof.
  induction k as [|k IH]; intros j cand cr cand' cr' Hj Hlen Hk; simpl.
  - intros [= <- <-]. split; [lia|]. split; [done|].
    split; [intros m Hm; lia|done].
  - intros Hrun.
    destruct (if Qle_bool _ _ then _ else _) as [v|] eqn:Hv; [|done].
    simpl in Hrun.
    destruct (store j v cand) as [cand1|] eqn:Hst; [|done]. simpl in Hrun.
    apply store_Some in Hst as [Hjl ->].
    apply IH in Hrun as (-> & Hlen' & Hset & Hframe);
      [|by apply mod_cycle_lt|by rewrite length_insert|lia].
    split; [lia|]. split; [done|]. split.
    + intros [|m] Hm.
      * replace (j + 0) with j by lia. rewrite Nat.mod_small by done.
        exists v. split.
        -- rewrite Hframe.
           ++ by apply list_lookup_insert_eq.
           ++ intros m Hm'. rewrite mod_cycle_succ.
              intros Heq. symmetry in Heq. revert Heq.
              apply mod_cycle_moves; lia.
        -- unfold crossed. by replace (cr + 0) with cr by lia.
      * destruct (Hset m) as (w & Hw1 & Hw2); [lia|].
        rewrite mod_cycle_succ in Hw1, Hw2.
        replace (S cr + m) with (cr + S m) in Hw2 by lia. eauto.
    + intros x Hx. rewrite Hframe.
      * apply list_lookup_insert_ne. specialize (Hx 0 ltac:(lia)).
        replace (j + 0) with j in Hx by lia.
        rewrite Nat.mod_small in Hx by done. done.
      * intros m Hm. rewrite mod_cycle_succ. apply Hx. lia.
Qed.

Lemma mutation_frame fuel i (s s' : solver) :
  mutation fuel i s = Some s' ->
  population_ s' = population_ s /\
  pop_errors_ s' = pop_errors_ s /\
  best_candidate_ s' = best_candidate_ s.
Proof.
  unfold ThreadsDESolver.mutation. intros Hm.
  repeat (match type of Hm with
          | (?x ≫= _) = Some _ =>
              let E := fresh "E" in
              destruct x as [?|] eqn:E; [simpl in Hm|done]
          | (let '(_, _) := ?p in _) = _ => destruct p
          | (match ?p with (_, _) => _ end) = _ => destruct p
          end).
  by injection Hm as <-.
Qed.


Lemma slot_kept_trans (s1 s2 s3 : solver) x :
  slot_kept s1 s2 x -> slot_kept s2 s3 x -> slot_kept s1 s3 x.
Proof. intros [? ?] [? ?]. split; congruence. Qed.

Lemma mutation_slot_kept fuel i (s s' : solver) x :
  mutation fuel i s = Some s' -> slot_kept s s' x.
Proof.
  intros Hm. apply mutation_frame in Hm as (Hp & He & _).
  split; congruence.
Qed.

Lemma select_slots i (s s' : solver) :
  select i s = Some s' ->
  (slot_kept s s' i \/ slot_improved base_de_ s s' i) /\
  (forall x, x <> i -> slot_kept s s' x) /\
  length (population_ s') = length (population_ s) /\
  length (pop_errors_ s') = length (pop_errors_ s).
Proof.
  unfold ThreadsDESolver.select. intros Hs.
  destruct (pop_errors_ s !! i) as [old|] eqn:Hold; [simpl in Hs|done].
  destruct (better _ old) eqn:Hb.
  - destruct (store i _ (population_ s)) as [p|] eqn:Hp;
      [simpl in Hs|done].
    destruct (store i _ (pop_errors_ s)) as [e|] eqn:He;
      [simpl in Hs|done].
    injection Hs as <-. simpl.
    apply store_Some in Hp as [Hip ->]. apply store_Some in He as [Hie ->].
    split; [right|split; [|by rewrite !length_insert]].
    + exists (pop_candidate_ s), old. simpl.
      by rewrite !list_lookup_insert_eq.
    + intros x Hx. split; simpl; by apply list_lookup_insert_ne.
  - injection Hs as <-. split; [by left|done].
Qed.

Lemma evolve_slots_slots fuel k :
  forall from (s s' : solver),
  evolve_slots fuel k from s = Some s' ->
  (forall x, x < from \/ from + k <= x -> slot_kept s s' x) /\
  (forall x, slot_kept s s' x \/ slot_improved base_de_ s s' x) /\
  length (population_ s') = length (population_ s) /\
  length (pop_errors_ s') = length (pop_errors_ s).
Proof.
  induction k as [|k IH]; intros from s s'; simpl.
  - intros [= <-]. split; [done|]. split; [by left|done].
  - intros Hrun.
    destruct (mutation fuel from s) as [s1|] eqn:Hm; [simpl in Hrun|done].
    destruct (select from s1) as [s2|] eqn:Hs; [simpl in Hrun|done].
    apply IH in Hrun as (Hout & Hall & Hlp & Hle).
    pose proof (mutation_frame _ _ _ _ Hm) as (Hmp & Hme & _).
    apply select_slots in Hs as (Hat & Hoth & Hsp & Hse).
    assert (Hmk : forall x, slot_kept s s1 x)
      by (intros x; by apply (mutation_slot_kept fuel from)).
    split; [|split; [|split; congruence]].
    + intros x Hx. apply (slot_kept_trans _ s1); [done|].
      apply (slot_kept_trans _ s2); [apply Hoth|apply Hout]; lia.
    + intros x. destruct (decide (x = from)) as [->|Hne].
      * assert (Hk : slot_kept s2 s' from) by (apply Hout; lia).
        destruct Hat as [Hat|(trial & e_old & Ho & Hp & He & Hb)].
        -- left. apply (slot_kept_trans _ s1); [done|].
           by apply (slot_kept_trans _ s2).
        -- right. exists trial, e_old. destruct Hk as [Hkp Hke].
           rewrite Hkp, Hke, <- Hme. done.
      * assert (Hk : slot_kept s s2 x).
        { apply (slot_kept_trans _ s1); [done|]. by apply Hoth. }
        destruct (Hall x) as [Hx|(trial & e_old & Ho & Hp & He & Hb)].
        -- left. by apply (slot_kept_trans _ s2).
        -- right. exists trial, e_old. destruct Hk as [Hkp Hke].
           rewrite <- Hke. done.
Qed.

(** C4.  Per-slot monotonicity of EvolveGeneration: after the command,
    every slot either holds the candidate and the error it held before, or
    it holds a trial together with that trial's error, and the ordering
    predicate judges this error better than the error stored there
    before. *)
Theorem evolve_generation_slot_monotone fuel (s s' : solver) :
  evolve_generation POP_DIM POP_SIZE base_de_ rng fuel s = Some s' ->
  forall i, slot_kept s s' i \/ slot_improved base_de_ s s' i.
Proof.
  unfold evolve_generation. intros Hrun i.
  by apply evolve_slots_slots in Hrun as (_ & Hall & _).
Qed.

Lemma evolve_slots_split fuel a b from (s : solver) :
  evolve_slots fuel (a + b) from s
  = evolve_slots fuel a from s ≫= evolve_slots fuel b (from + a).
Proof.
  revert from s. induction a as [|a IH]; intros from s; simpl.
  - by replace (from + 0) with from by lia.
  - destruct (mutation fuel from s) as [s1|]; [simpl|done].
    destruct (select from s1) as [s2|]; [simpl|done].
    rewrite IH. by replace (S from + a) with (from + S a) by lia.
Qed.

(** C9.  In-place generation update: EvolveGeneration visits the slots in
    index order, and when it reaches slot [k] the selections of the slots
    [0 .. k-1] have already been written.  The state [sk] on which
    [mutation k] and [select k] run has the slots below [k] as they are at
    the end of the generation and the slots from [k] on as they were at its
    start; [mutation k] reads its three trial candidates from this
    population, not from a snapshot of the previous generation. *)
Theorem evolve_generation_in_place fuel (s s' : solver) k :
  evolve_generation POP_DIM POP_SIZE base_de_ rng fuel s = Some s' ->
  k < POP_SIZE ->
  exists sk sm sk',
    evolve_slots fuel k 0 s = Some sk /\
    population_ sk
      = take k (population_ s') ++ drop k (population_ s) /\
    pop_errors_ sk
      = take k (pop_errors_ s') ++ drop k (pop_errors_ s) /\
    mutation fuel k sk = Some sm /\
    select k sm = Some sk' /\
    evolve_slots fuel (POP_SIZE - S k) (S k) sk' = Some s'.
Proof.
  unfold evolve_generation. intros Hrun Hk.
  replace POP_SIZE with (k + S (POP_SIZE - S k)) in Hrun at 1 by lia.
  rewrite evolve_slots_split in Hrun.
  destruct (evolve_slots fuel k 0 s) as [sk|] eqn:Hsk; [simpl in Hrun|done].
  destruct (mutation fuel k sk) as [sm|] eqn:Hm; [simpl in Hrun|done].
  destruct (select k sm) as [sk'|] eqn:Hs; [simpl in Hrun|done].
  assert (Hrest : evolve_slots fuel (S (POP_SIZE - S k)) k sk = Some s')
    by (simpl; rewrite Hm; simpl; by rewrite Hs).
  pose proof (evolve_slots_slots _ _ _ _ _ Hsk) as (Hout & _ & Hlp & Hle).
  apply evolve_slots_slots in Hrest as (Hout' & _ & Hlp' & Hle').
  exists sk, sm, sk'. split; [done|]. split; [|split; [|done]].
  - apply take_drop_agree; [congruence|congruence| |].
    + intros x Hx. symmetry. apply Hout'. lia.
    + intros x Hx. apply Hout. lia.
  - apply take_drop_agree; [congruence|congruence| |].
    + intros x Hx. symmetry. apply Hout'. lia.
    + intros x Hx. apply Hout. lia.
Qed.

End Generation.

(** ** Completion of a generation

    With arrays of the right sizes and index streams within their
    distributions, EvolveGeneration completes as soon as the trial index
    stream keeps delivering fresh values. *)

Section Completion.
Import ThreadsDESolver.
Context {POP_TYPE ERROR_TYPE : Type} `{PopArith POP_TYPE}.
Variable POP_DIM : nat.
Variable POP_SIZE : nat.
Variable base_de_ : BaseDE POP_TYPE ERROR_TYPE.
Variable rng : ThreadsDESolver.Streams.
Hypothesis Hrange : in_range POP_DIM POP_SIZE rng.

Local Abbreviation solver := (@ThreadsDESolver.t POP_TYPE ERROR_TYPE).

Lemma trial_indices_mono fuel fuel' n r :
  fuel <= fuel' ->
  trial_indices rng fuel n = Some r -> trial_indices rng fuel' n = Some r.
Proof.
  unfold trial_indices. intros Hle Hsel.
  destruct (redraw rng fuel _ _ _) as [[it1 n1]|] eqn:H1; [|done].
  rewrite (redraw_mono _ _ _ _ _ _ _ Hle H1). simpl in *.
  destruct (redraw rng fuel _ (random_trials_ rng n1) _) as [[it2 n2]|] eqn:H2;
    [|done].
  by rewrite (redraw_mono _ _ _ _ _ _ _ Hle H2).
Qed.

Lemma trial_indices_in_range fuel n it0 it1 it2 n' :
  trial_indices rng fuel n = Some (it0, it1, it2, n') ->
  it0 < POP_SIZE /\ it1 < POP_SIZE /\ it2 < POP_SIZE.
Proof.
  destruct Hrange as [Htr _]. intros Hsel.
  apply trial_indices_inv in Hsel as (n1 & -> & H1 & H2).
  apply redraw_from_stream in H1, H2.
  split; [apply Htr|]. split.
  - destruct H1 as [->|[m ->]]; apply Htr.
  - destruct H2 as [->|[m ->]]; apply Htr.
Qed.

Lemma combination_defined t0 t1 t2 j :
  length t0 = POP_DIM -> length t1 = POP_DIM -> length t2 = POP_DIM ->
  j < POP_DIM -> is_Some (combination base_de_ t0 t1 t2 j).
Proof.
  intros H0 H1 H2 Hj. unfold combination.
  destruct (lookup_lt_is_Some_2 t0 j) as [x0 ->]; [lia|].
  destruct (lookup_lt_is_Some_2 t1 j) as [x1 ->]; [lia|].
  destruct (lookup_lt_is_Some_2 t2 j) as [x2 ->]; [lia|].
  simpl. eauto.
Qed.

Lemma crossover_defined population i t0 t1 t2 k :
  Forall (λ row, length row = POP_DIM) population ->
  i < length population ->
  length t0 = POP_DIM -> length t1 = POP_DIM -> length t2 = POP_DIM ->
  forall j cand cr, j < POP_DIM -> length cand = POP_DIM ->
  exists cand' cr',
    crossover POP_DIM base_de_ rng k population i t0 t1 t2 j cand cr
    = Some (cand', cr') /\ length cand' = POP_DIM.
Proof.
  intros Hrows Hi H0 H1 H2.
  induction k as [|k IH]; intros j cand cr Hj Hlen; simpl; [eauto|].
  assert (Hv : is_Some (if Qle_bool (random_cr_ rng cr) (kCR_ base_de_)
                        then combination base_de_ t0 t1 t2 j
                        else at2 population i j)).
  { destruct (Qle_bool _ _); [by apply combination_defined|].
    unfold at2. destruct (lookup_lt_is_Some_2 population i) as [row Hrow];
      [done|].
    rewrite Hrow. simpl. apply lookup_lt_is_Some_2.
    rewrite Forall_lookup in Hrows. by rewrite (Hrows _ _ Hrow). }
  destruct Hv as [v ->]. simpl. unfold store at 1.
  rewrite decide_True by lia. simpl.
  apply IH; [by apply mod_cycle_lt|by rewrite length_insert].
Qed.

Lemma mutation_defined fuel i (s : solver) r :
  well_formed POP_DIM POP_SIZE s -> i < POP_SIZE ->
  trial_indices rng fuel (trials_calls s) = Some r ->
  exists s', mutation POP_DIM base_de_ rng fuel i s = Some s' /\
             well_formed POP_DIM POP_SIZE s'.
Proof.
  intros (Hp & He & Hc & Hrows) Hi Hsel. destruct r as [[[it0 it1] it2] tr].
  pose proof (trial_indices_in_range _ _ _ _ _ _ Hsel) as (Hi0 & Hi1 & Hi2).
  unfold mutation. rewrite Hsel. simpl.
  destruct (lookup_lt_is_Some_2 (population_ s) it0) as [t0 Ht0]; [lia|].
  destruct (lookup_lt_is_Some_2 (population_ s) it1) as [t1 Ht1]; [lia|].
  destruct (lookup_lt_is_Some_2 (population_ s) it2) as [t2 Ht2]; [lia|].
  rewrite Ht0, Ht1, Ht2. simpl.
  rewrite Forall_lookup in Hrows.
  pose proof (Hrows _ _ Ht0) as Hl0. pose proof (Hrows _ _ Ht1) as Hl1.
  pose proof (Hrows _ _ Ht2) as Hl2. simpl in Hl0, Hl1, Hl2.
  destruct Hrange as [_ Hj]. specialize (Hj (j_calls s)).
  destruct (combination_defined t0 t1 t2 _ Hl0 Hl1 Hl2 Hj) as [v ->]. simpl.
  unfold store at 1. rewrite decide_True by lia. simpl.
  destruct (crossover_defined (population_ s) i t0 t1 t2 (POP_DIM - 1))
    with (j := (random_j_ rng (j_calls s) + 1) mod POP_DIM)
         (cand := <[random_j_ rng (j_calls s) := v]> (pop_candidate_ s))
         (cr := cr_calls s)
    as (cand' & cr' & -> & Hlen');
    [by apply Forall_lookup|lia|done|done|done|by apply mod_cycle_lt
    |by rewrite length_insert|].
  simpl. eexists. split; [done|].
  repeat split; simpl; [done|done|done|by apply Forall_lookup].
Qed.

Lemma mutation_mono fuel fuel' i (s s' : solver) :
  fuel <= fuel' ->
  mutation POP_DIM base_de_ rng fuel i s = Some s' ->
  mutation POP_DIM base_de_ rng fuel' i s = Some s'.
Proof.
  unfold mutation. intros Hle Hm.
  destruct (trial_indices rng fuel _) as [r|] eqn:Hsel; [|done].
  by rewrite (trial_indices_mono _ _ _ _ Hle Hsel).
Qed.

Lemma select_defined i (s : solver) :
  well_formed POP_DIM POP_SIZE s -> i < POP_SIZE ->
  exists s', select base_de_ i s = Some s' /\ well_formed POP_DIM POP_SIZE s'.
Proof.
  intros (Hp & He & Hc & Hrows) Hi. unfold select.
  destruct (lookup_lt_is_Some_2 (pop_errors_ s) i) as [old ->]; [lia|].
  simpl. destruct (callback_error_evaluation_ _ _ old).
  - unfold store. rewrite !decide_True by lia. simpl.
    eexists. split; [done|].
    repeat split; simpl; rewrite ?length_insert; try done.
    by apply Forall_insert.
  - by exists s.
Qed.

Lemma evolve_slots_mono fuel fuel' k from (s s' : solver) :
  fuel <= fuel' ->
  evolve_slots POP_DIM base_de_ rng fuel k from s = Some s' ->
  evolve_slots POP_DIM base_de_ rng fuel' k from s = Some s'.
Proof.
  intros Hle. revert from s.
  induction k as [|k IH]; intros from s; simpl; [done|]. intros Hrun.
  destruct (mutation _ _ _ fuel from s) as [s1|] eqn:Hm; [|done].
  rewrite (mutation_mono _ _ _ _ _ Hle Hm). simpl in *.
  destruct (select base_de_ from s1) as [s2|]; [simpl in *|done].
  by apply IH.
Qed.

Lemma evolve_slots_completes k :
  keeps_offering (random_trials_ rng) ->
  forall from (s : solver),
  well_formed POP_DIM POP_SIZE s -> from + k <= POP_SIZE ->
  exists fuel s',
    evolve_slots POP_DIM base_de_ rng fuel k from s = Some s' /\
    well_formed POP_DIM POP_SIZE s'.
Proof.
  intros Hfair. induction k as [|k IH]; intros from s Hwf Hk.
  { exists 0, s. by split. }
  destruct (trial_indices_terminates rng (trials_calls s) Hfair)
    as (f1 & r & Hsel).
  destruct (mutation_defined f1 from s r Hwf ltac:(lia) Hsel)
    as (s1 & Hm & Hwf1).
  destruct (select_defined from s1 Hwf1 ltac:(lia)) as (s2 & Hs & Hwf2).
  destruct (IH (S from) s2 Hwf2 ltac:(lia)) as (f2 & s' & Hrest & Hwf').
  exists (f1 `max` f2), s'. split; [|done]. simpl.
  rewrite (mutation_mono f1 _ _ _ _ (Nat.le_max_l _ _) Hm). simpl.
  rewrite Hs. simpl.
  by apply (evolve_slots_mono f2 _ _ _ _ _ (Nat.le_max_r _ _)).
Qed.

(** The state built by [start] is well formed. *)
Lemma start_well_formed id :
  0 < POP_SIZE ->
  well_formed POP_DIM POP_SIZE
    (ThreadsDESolver.start POP_DIM POP_SIZE base_de_ id).
Proof.
  intros Hpos. unfold ThreadsDESolver.start, well_formed.
  cbn [population_ pop_errors_ pop_candidate_].
  generalize (id * (POP_SIZE * POP_DIM)). intros calls.
  assert (Hlen : length (generatePopulation POP_DIM POP_SIZE base_de_ calls)
                 = POP_SIZE).
  { unfold generatePopulation. by rewrite length_map, length_seq. }
  assert (Hrows : Forall (λ row, length row = POP_DIM)
                    (generatePopulation POP_DIM POP_SIZE base_de_ calls)).
  { unfold generatePopulation. apply Forall_forall. intros row Hrow.
    apply list_elem_of_In, in_map_iff in Hrow as (i & <- & _).
    by rewrite length_map, length_seq. }
  split; [done|]. split; [|split; [|done]].
  { unfold calcGenerationError. by rewrite length_map. }
  destruct (last (generatePopulation _ _ _ _)) as [row|] eqn:Hlast; simpl.
  - apply last_Some in Hlast as [p' Hp]. rewrite Hp in Hrows.
    apply Forall_app in Hrows as [_ Hrow]. by inversion Hrow.
  - apply last_None in Hlast. rewrite Hlast in Hlen. simpl in Hlen. lia.
Qed.

(** Enough fuel lets EvolveGeneration return. *)
Lemma evolve_generation_completes (s : solver) :
  keeps_offering (random_trials_ rng) ->
  well_formed POP_DIM POP_SIZE s ->
  exists fuel s',
    evolve_generation POP_DIM POP_SIZE base_de_ rng fuel s = Some s' /\
    well_formed POP_DIM POP_SIZE s'.
Proof.
  intros Hfair Hwf. by apply evolve_slots_completes.
Qed.

End Completion.

(** ** Properties of [std::min_element] and of ComputeLocalBest *)

Section MinElement.
Context {E : Type}.
Variable comp : E -> E -> bool.

Lemma weak_cotransitive :
  transitive comp -> tied_transitive comp ->
  forall a b c, comp a b = true -> comp c b = false -> comp a c = true.
Proof.
  intros Htr Hti a b c Hab Hcb.
  destruct (comp a c) eqn:Hac; [done|].
  destruct (comp c a) eqn:Hca.
  { by rewrite (Htr _ _ _ Hca Hab) in Hcb. }
  destruct (comp b c) eqn:Hbc.
  { by rewrite (Htr _ _ _ Hab Hbc) in Hac. }
  destruct (Hti a c b) as [Hab' _]; [done|done|congruence].
Qed.

Lemma min_element_scan_valid l :
  forall pre smallest sm,
  pre !! smallest = Some sm ->
  exists e,
    (pre ++ l) !! min_element_scan comp l (length pre) smallest sm = Some e.
Proof.
  induction l as [|x l IH]; intros pre smallest sm Hsm; simpl.
  - exists sm. by rewrite app_nil_r.
  - destruct (comp x sm).
    + destruct (IH (pre ++ [x]) (length pre) x) as [e He].
      { by rewrite lookup_app_r, Nat.sub_diag by lia. }
      exists e. rewrite length_app, <- app_assoc in He. simpl in He.
      by replace (length pre + 1) with (S (length pre)) in He by lia.
    + destruct (IH (pre ++ [x]) smallest sm) as [e He].
      { by apply lookup_app_l_Some. }
      exists e. rewrite length_app, <- app_assoc in He. simpl in He.
      by replace (length pre + 1) with (S (length pre)) in He by lia.
Qed.

Lemma min_element_scan_least l :
  irreflexive comp -> transitive comp ->
  forall pre smallest sm,
  first_least comp pre smallest sm ->
  exists e,
    first_least comp (pre ++ l)
      (min_element_scan comp l (length pre) smallest sm) e.
Proof.
  intros Hirr Htr.
  induction l as [|x l IH]; intros pre smallest sm Hinv; simpl.
  - exists sm. by rewrite app_nil_r.
  - destruct Hinv as (Hsm & Hleast & Hfirst).
    assert (Hstep : forall m e, first_least comp (pre ++ [x]) m e ->
              exists e', first_least comp (pre ++ x :: l)
                (min_element_scan comp l (S (length pre)) m e) e').
    { intros m e Hme. destruct (IH _ _ _ Hme) as [e' He'].
      exists e'. rewrite length_app, <- app_assoc in He'. simpl in He'.
      by replace (length pre + 1) with (S (length pre)) in He' by lia. }
    destruct (comp x sm) eqn:Hx; apply Hstep.
    + split; [by rewrite lookup_app_r, Nat.sub_diag by lia|]. split.
      * intros k ek Hk. apply lookup_app_Some in Hk as [Hk|[_ Hk]].
        -- destruct (comp ek x) eqn:Hc; [|done].
           pose proof (Htr _ _ _ Hc Hx) as Ht. by rewrite (Hleast _ _ Hk) in Ht.
        -- apply list_lookup_singleton_Some in Hk as [_ <-]. apply Hirr.
      * intros k ek Hk Hek ->. rewrite lookup_app_l in Hek by done.
        by rewrite (Hleast _ _ Hek) in Hx.
    + split; [by apply lookup_app_l_Some|]. split.
      * intros k ek Hk. apply lookup_app_Some in Hk as [Hk|[_ Hk]].
        -- by apply (Hleast k).
        -- by apply list_lookup_singleton_Some in Hk as [_ <-].
      * intros k ek Hk Hek. apply (Hfirst k); [done|].
        rewrite lookup_app_l in Hek; [done|].
        apply lookup_lt_Some in Hsm. lia.
Qed.

Lemma min_element_scan_beats l :
  irreflexive comp -> transitive comp -> tied_transitive comp ->
  forall pre smallest sm,
  pre !! smallest = Some sm ->
  (forall k ek, pre !! k = Some ek -> comp ek sm = false) ->
  beats_earlier comp pre smallest sm ->
  exists e, (pre ++ l) !! min_element_scan comp l (length pre) smallest sm
              = Some e /\
    beats_earlier comp (pre ++ l)
      (min_element_scan comp l (length pre) smallest sm) e.
Proof.
  intros Hirr Htr Hti.
  induction l as [|x l IH]; intros pre smallest sm Hsm Hleast Hbeats; simpl.
  - exists sm. by rewrite app_nil_r.
  - assert (Hstep : forall m e,
              (pre ++ [x]) !! m = Some e ->
              (forall k ek, (pre ++ [x]) !! k = Some ek -> comp ek e = false) ->
              beats_earlier comp (pre ++ [x]) m e ->
              exists e', (pre ++ x :: l) !!
                  min_element_scan comp l (S (length pre)) m e = Some e' /\
                beats_earlier comp (pre ++ x :: l)
                  (min_element_scan comp l (S (length pre)) m e) e').
    { intros m e H1 H2 H3. destruct (IH _ _ _ H1 H2 H3) as [e' He'].
      exists e'. rewrite length_app, <- app_assoc in He'. simpl in He'.
      by replace (length pre + 1) with (S (length pre)) in He' by lia. }
    destruct (comp x sm) eqn:Hx; apply Hstep.
    + by rewrite lookup_app_r, Nat.sub_diag by lia.
    + intros k ek Hk. apply lookup_app_Some in Hk as [Hk|[_ Hk]].
      * destruct (comp ek x) eqn:Hc; [|done].
        pose proof (Htr _ _ _ Hc Hx) as Ht. by rewrite (Hleast _ _ Hk) in Ht.
      * apply list_lookup_singleton_Some in Hk as [_ <-]. apply Hirr.
    + intros k ek Hk Hek. rewrite lookup_app_l in Hek by done.
      apply (weak_cotransitive Htr Hti _ sm); [done|]. by apply (Hleast k).
    + by apply lookup_app_l_Some.
    + intros k ek Hk. apply lookup_app_Some in Hk as [Hk|[_ Hk]].
      * by apply (Hleast k).
      * by apply list_lookup_singleton_Some in Hk as [_ <-].
    + intros k ek Hk Hek. apply (Hbeats k); [done|].
      rewrite lookup_app_l in Hek; [done|].
      apply lookup_lt_Some in Hsm. lia.
Qed.

Lemma min_element_valid l :
  0 < length l -> exists e, l !! min_element comp l = Some e.
Proof.
  destruct l as [|x l]; simpl; [lia|]. intros _.
  by apply (min_element_scan_valid l [x] 0 x).
Qed.

Lemma min_element_least l e :
  irreflexive comp -> transitive comp ->
  l !! min_element comp l = Some e ->
  first_least comp l (min_element comp l) e.
Proof.
  intros Hirr Htr. destruct l as [|x l]; simpl; [done|]. intros He.
  destruct (min_element_scan_least l Hirr Htr [x] 0 x) as [e' He'].
  - split; [done|]. split; [|lia].
    intros [|k] ek; [|done]. intros [= <-]. apply Hirr.
  - simpl in He'. destruct He' as (He1 & He2). simpl in He1.
    assert (e' = e) as -> by congruence. by split.
Qed.

Lemma min_element_beats l e :
  irreflexive comp -> transitive comp -> tied_transitive comp ->
  l !! min_element comp l = Some e ->
  beats_earlier comp l (min_element comp l) e.
Proof.
  intros Hirr Htr Hti. destruct l as [|x l]; simpl; [done|]. intros He.
  destruct (min_element_scan_beats l Hirr Htr Hti [x] 0 x) as (e' & He1 & He2).
  - done.
  - intros [|k] ek; [|done]. intros [= <-]. apply Hirr.
  - intros k ek Hk. lia.
  - simpl in He1, He2. by assert (e' = e) as -> by congruence.
Qed.

End MinElement.

Section LocalBest.
Import ThreadsDESolver.
Context {POP_TYPE ERROR_TYPE : Type}.
Variable base_de_ : BaseDE POP_TYPE ERROR_TYPE.

Local Abbreviation solver := (@ThreadsDESolver.t POP_TYPE ERROR_TYPE).
Local Abbreviation better := (callback_error_evaluation_ base_de_).

(** C7.  ComputeLocalBest scans the error array with [std::min_element]
    under the ordering predicate and records a copy of the candidate at the
    position found, together with its error, as [best_candidate_]; the
    population and the error array are left as they were.  For a strict
    (irreflexive, transitive) predicate the recorded error is a least
    element (no stored error is better than it) and the position found is
    the first one that holds it; if being tied is transitive as well, every
    earlier position holds a strictly worse error, so ties go to the lowest
    index. *)
Theorem compute_local_best_spec (s : solver) :
  0 < length (pop_errors_ s) ->
  length (population_ s) = length (pop_errors_ s) ->
  exists s' m e cand,
    compute_local_best base_de_ s = Some s' /\
    m = min_element better (pop_errors_ s) /\
    pop_errors_ s !! m = Some e /\
    population_ s !! m = Some cand /\
    best_candidate_ s' = Some (e, cand) /\
    population_ s' = population_ s /\
    pop_errors_ s' = pop_errors_ s /\
    (irreflexive better -> transitive better ->
       first_least better (pop_errors_ s) m e) /\
    (irreflexive better -> transitive better -> tied_transitive better ->
       beats_earlier better (pop_errors_ s) m e).
Proof.
  intros Hpos Hlen.
  destruct (min_element_valid better _ Hpos) as [e He].
  destruct (lookup_lt_is_Some_2 (population_ s)
              (min_element better (pop_errors_ s))) as [cand Hc].
  { rewrite Hlen. by apply lookup_lt_Some in He. }
  exists (with_best s (e, cand)),
    (min_element better (pop_errors_ s)), e, cand.
  unfold compute_local_best. rewrite Hc, He. simpl.
  repeat (split; [done|]). split.
  - intros Hirr Htr. by apply min_element_least.
  - intros Hirr Htr Hti. by apply min_element_beats.
Qed.

End LocalBest.

(** ** Properties of the migration step *)

Section Migration.
Import ThreadsDESolver.
Context {POP_TYPE ERROR_TYPE : Type} `{PopArith POP_TYPE, ErrorNum ERROR_TYPE}.
Variable POP_DIM : nat.
Variable kNProcess_ : nat.
Variable kMigrationPhi_ : Q.
Variable kPopSize_ : nat.
Variable base_de : BaseDE POP_TYPE ERROR_TYPE.
Variable solver_rng : nat -> ThreadsDESolver.Streams.
Variable rng : ThreadsDE.Streams.

Local Abbreviation solver := (@ThreadsDESolver.t POP_TYPE ERROR_TYPE).
Local Abbreviation coordinator := (@ThreadsDE.t POP_TYPE ERROR_TYPE).
Local Abbreviation better := (callback_error_evaluation_ base_de).

Lemma ring_successor_differs i n : 2 <= n -> i < n -> (i + 1) mod n <> i.
Proof. intros Hn Hi. apply mod_cycle_moves; lia. Qed.

Lemma migrate_unfold i (st st' : coordinator) :
  ThreadsDE.migrate rng i st = Some st' ->
  let dst := (i + 1) mod length (ThreadsDE.solvers_ st) in
  let mi :=
    ThreadsDE.random_migration_index_ rng (ThreadsDE.migration_calls st) in
  exists s bc d,
    ThreadsDE.solvers_ st !! i = Some s /\
    work_ready_ s = true /\
    best_candidate_ s = Some bc /\
    ThreadsDE.solvers_ st !! dst = Some d /\
    mi < length (population_ d) /\
    st' = ThreadsDE.mk
            (<[dst := with_population d
                        (<[mi := bc.2]> (population_ d))]>
               (ThreadsDE.solvers_ st))
            (ThreadsDE.phi_calls st) (S (ThreadsDE.migration_calls st))
            (ThreadsDE.trace st
               ++ [ThreadsDE.Wait i; ThreadsDE.Assign i dst mi bc.2]).
Proof.
  intros Hm dst mi. unfold ThreadsDE.migrate in Hm. fold dst mi in Hm.
  destruct (ThreadsDE.solvers_ st !! i) as [s|] eqn:Hs; [simpl in Hm|done].
  unfold waitWork in Hm.
  destruct (work_ready_ s) eqn:Hr; [simpl in Hm|done].
  destruct (ThreadsDESolver.getBestCandidate s) as [bc|] eqn:Hbc;
    [simpl in Hm|done].
  destruct (ThreadsDE.solvers_ st !! dst) as [d|] eqn:Hd; [simpl in Hm|done].
  destruct (store mi bc.2 _) as [p|] eqn:Hp; [simpl in Hm|done].
  injection Hm as <-. apply store_Some in Hp as [Hmi ->].
  by exists s, bc, d.
Qed.

(** C10 (amended).  One migration write, made while serving solver [i],
    assigns solver [i]'s local best candidate to one slot of the candidate
    array of the ring successor and changes nothing else in any solver:
    the other slots of the destination keep their candidates, the
    destination's error array is not updated (the error of the overwritten
    slot is still that of the replaced candidate), every solver other than
    the destination is untouched, and with at least two solvers the source
    is one of them. *)
Theorem migrate_frame i (st st' : coordinator) :
  ThreadsDE.migrate rng i st = Some st' ->
  let n := length (ThreadsDE.solvers_ st) in
  let dst := (i + 1) mod n in
  let mi :=
    ThreadsDE.random_migration_index_ rng (ThreadsDE.migration_calls st) in
  exists s bc d d',
    ThreadsDE.solvers_ st !! i = Some s /\
    best_candidate_ s = Some bc /\
    ThreadsDE.solvers_ st !! dst = Some d /\
    ThreadsDE.solvers_ st' !! dst = Some d' /\
    population_ d' !! mi = Some bc.2 /\
    (forall x, x <> mi ->
       population_ d' !! x = population_ d !! x) /\
    length (population_ d') = length (population_ d) /\
    pop_errors_ d' = pop_errors_ d /\
    d' = with_population d (population_ d') /\
    (forall k, k <> dst ->
       ThreadsDE.solvers_ st' !! k = ThreadsDE.solvers_ st !! k) /\
    (2 <= n -> ThreadsDE.solvers_ st' !! i = Some s).
Proof.
  intros Hm n dst mi.
  apply migrate_unfold in Hm as (s & bc & d & Hs & _ & Hbc & Hd & Hmi & ->).
  fold n dst mi in Hd, Hmi |- *. simpl.
  pose proof (lookup_lt_Some _ _ _ Hd) as Hdst.
  pose proof (lookup_lt_Some _ _ _ Hs) as Hi.
  exists s, bc, d, (with_population d (<[mi := bc.2]> (population_ d))).
  repeat (split; [done|]).
  split; [by apply list_lookup_insert_eq|]. simpl.
  split; [by apply list_lookup_insert_eq|].
  split; [intros x Hx; by apply list_lookup_insert_ne|].
  split; [by rewrite length_insert|].
  repeat (split; [done|]).
  split; [intros k Hk; by apply list_lookup_insert_ne|].
  intros Hn. rewrite list_lookup_insert_ne; [done|].
  by apply ring_successor_differs.
Qed.

Lemma allows_shift c from k :
  List.filter (λ i, allows kMigrationPhi_ rng (S (c + (i - S from))))
    (seq (S from) k)
  = List.filter (λ i, allows kMigrationPhi_ rng (c + (i - from)))
      (seq (S from) k).
Proof.
  apply List.filter_ext_in. intros a Ha. apply in_seq in Ha.
  f_equal. lia.
Qed.

Lemma migration_loop_spec k :
  forall from (st st' : coordinator),
  ThreadsDE.migration_loop kMigrationPhi_ rng k from st = Some st' ->
  length (ThreadsDE.solvers_ st') = length (ThreadsDE.solvers_ st) /\
  (forall i, best_candidate_ <$> ThreadsDE.solvers_ st' !! i
             = best_candidate_ <$> ThreadsDE.solvers_ st !! i) /\
  ThreadsDE.phi_calls st' = ThreadsDE.phi_calls st + k /\
  exists evs,
    ThreadsDE.trace st' = ThreadsDE.trace st ++ evs /\
    waited evs
      = List.filter
          (λ i,
             allows kMigrationPhi_ rng (ThreadsDE.phi_calls st + (i - from)))
          (seq from k) /\
    ThreadsDE.migration_calls st'
      = ThreadsDE.migration_calls st + length (waited evs) /\
    (forall i, In i (waited evs) ->
       exists slot cand,
         In (ThreadsDE.Assign i ((i + 1) mod length (ThreadsDE.solvers_ st))
               slot cand) evs) /\
    (forall src dst slot cand,
       In (ThreadsDE.Assign src dst slot cand) evs ->
       In src (waited evs) /\
       dst = (src + 1) mod length (ThreadsDE.solvers_ st) /\
       (exists c, ThreadsDE.migration_calls st <= c
                  < ThreadsDE.migration_calls st' /\
                  slot = ThreadsDE.random_migration_index_ rng c) /\
       (exists s bc, ThreadsDE.solvers_ st !! src = Some s /\
                     best_candidate_ s = Some bc /\ cand = bc.2)).
Proof.
  induction k as [|k IH]; intros from st st'; simpl.
  { intros [= <-]. split; [done|]. split; [done|]. split; [lia|].
    exists []. rewrite app_nil_r. simpl.
    split; [done|]. split; [done|]. split; [lia|]. split; by intros. }
  intros Hrun.
  fold (allows kMigrationPhi_ rng (ThreadsDE.phi_calls st)) in Hrun.
  replace (ThreadsDE.phi_calls st + (from - from))
    with (ThreadsDE.phi_calls st) by lia.
  destruct (allows kMigrationPhi_ rng (ThreadsDE.phi_calls st)) eqn:Hallow.
  - destruct (ThreadsDE.migrate rng from _) as [st2|] eqn:Hm;
      [simpl in Hrun|done].
    apply migrate_unfold in Hm as (s & bc & d & Hs & _ & Hbc & Hd & Hmi & ->).
    simpl in *.
    apply IH in Hrun
      as (Hlen & Hbest & Hphi & evs & Htr & Hw & Hmc & Hwr & Hin).
    simpl in *. rewrite length_insert in *. rewrite allows_shift in Hw.
    split; [done|]. split; [|split; [lia|]].
    { intros i. rewrite Hbest.
      destruct (decide (i = (from + 1) mod length (ThreadsDE.solvers_ st)))
        as [->|Hne].
      - rewrite list_lookup_insert_eq by (by apply lookup_lt_Some in Hd).
        by rewrite Hd.
      - by rewrite list_lookup_insert_ne. }
    eexists (_ :: _ :: evs). split.
    { rewrite Htr, <- app_assoc. simpl. reflexivity. }
    simpl. rewrite <- Hw. split; [done|]. split; [lia|]. split.
    { intros i [<-|Hi]; [eauto|].
      destruct (Hwr i Hi) as (slot & cand & Hev). eauto. }
    intros src dst slot cand [Hev|[Hev|Hev]]; [done| |].
    + injection Hev as <- <- <- <-. split; [by left|]. split; [done|].
      split; [exists (ThreadsDE.migration_calls st); split; [lia|done]|].
      by exists s, bc.
    + destruct (Hin _ _ _ _ Hev)
        as (Hsrc & -> & (c & Hc & ->) & s' & bc' & Hs' & Hbc' & ->).
      split; [by right|]. split; [done|].
      split; [exists c; split; [lia|done]|].
      destruct (decide (src = (from + 1) mod length (ThreadsDE.solvers_ st)))
        as [->|Hne].
      * rewrite list_lookup_insert_eq in Hs'
          by (by apply lookup_lt_Some in Hd).
        injection Hs' as <-. simpl in Hbc'. by exists d, bc'.
      * rewrite list_lookup_insert_ne in Hs' by done. by exists s', bc'.
  - simpl in Hrun.
    apply IH in Hrun
      as (Hlen & Hbest & Hphi & evs & Htr & Hw & Hmc & Hwr & Hin).
    simpl in *. rewrite allows_shift in Hw.
    split; [done|]. split; [done|]. split; [lia|].
    exists evs. by rewrite <- Hw.
Qed.

Lemma solveBestCandidate_spec share srng fuel (s s' : solver) :
  ThreadsDESolver.solveBestCandidate POP_DIM share base_de srng fuel s
  = Some s' ->
  exists e cand,
    pop_errors_ s !! min_element better (pop_errors_ s)
      = Some e /\
    population_ s !! min_element better (pop_errors_ s)
      = Some cand /\
    s' = with_flags (with_best s (e, cand))
           false true GET_BEST_CANDIDATE.
Proof.
  unfold ThreadsDESolver.solveBestCandidate, run_command. simpl.
  unfold compute_local_best. simpl. intros Hrun.
  destruct (population_ s !! _) as [cand|]; [simpl in Hrun|done].
  destruct (pop_errors_ s !! _) as [e|]; [simpl in Hrun|done].
  injection Hrun as <-. by exists e, cand.
Qed.

Lemma request_all_best_spec fuel (st st1 : coordinator) :
  ThreadsDE.request_all POP_DIM kNProcess_ kPopSize_ base_de solver_rng
    GET_BEST_CANDIDATE fuel st = Some st1 ->
  length (ThreadsDE.solvers_ st1) = length (ThreadsDE.solvers_ st) /\
  ThreadsDE.phi_calls st1 = ThreadsDE.phi_calls st /\
  ThreadsDE.migration_calls st1 = ThreadsDE.migration_calls st /\
  ThreadsDE.trace st1
    = ThreadsDE.trace st
      ++ map (ThreadsDE.Request GET_BEST_CANDIDATE)
           (seq 0 (length (ThreadsDE.solvers_ st))) /\
  (forall i s1, ThreadsDE.solvers_ st1 !! i = Some s1 ->
     exists s e cand,
       ThreadsDE.solvers_ st !! i = Some s /\
       pop_errors_ s !! min_element better (pop_errors_ s)
         = Some e /\
       population_ s !! min_element better (pop_errors_ s)
         = Some cand /\
       s1 = with_flags (with_best s (e, cand))
              false true GET_BEST_CANDIDATE).
Proof.
  unfold ThreadsDE.request_all. intros Hreq.
  destruct (mapM _ _) as [ss|] eqn:Hmap; [simpl in Hreq|done].
  injection Hreq as <-. simpl.
  apply mapM_Some_1 in Hmap.
  split; [symmetry; by eapply Forall2_length|]. repeat (split; [done|]).
  intros i s1 Hs1.
  destruct (Forall2_lookup_r _ _ _ _ _ Hmap Hs1) as (s & Hs & Hrun).
  apply solveBestCandidate_spec in Hrun as (e & cand & He & Hc & ->).
  by exists s, e, cand.
Qed.

Lemma migration_events fuel (st st' : coordinator) :
  ThreadsDE.migration POP_DIM kNProcess_ kMigrationPhi_ kPopSize_ base_de
    solver_rng rng fuel st = Some st' ->
  let n := length (ThreadsDE.solvers_ st) in
  exists evs,
    ThreadsDE.trace st'
      = ThreadsDE.trace st
        ++ map (ThreadsDE.Request GET_BEST_CANDIDATE) (seq 0 n) ++ evs /\
    ThreadsDE.phi_calls st' = ThreadsDE.phi_calls st + n /\
    waited evs
      = List.filter
          (λ i, allows kMigrationPhi_ rng (ThreadsDE.phi_calls st + i))
          (seq 0 n) /\
    ThreadsDE.migration_calls st'
      = ThreadsDE.migration_calls st + length (waited evs) /\
    (forall i, In i (waited evs) ->
       exists slot cand,
         In (ThreadsDE.Assign i ((i + 1) mod n) slot cand) evs) /\
    (forall src dst slot cand,
       In (ThreadsDE.Assign src dst slot cand) evs ->
       In src (waited evs) /\
       dst = (src + 1) mod n /\
       (exists c, ThreadsDE.migration_calls st <= c
                  < ThreadsDE.migration_calls st' /\
                  slot = ThreadsDE.random_migration_index_ rng c) /\
       (exists s, ThreadsDE.solvers_ st !! src = Some s /\
          population_ s !! min_element better (pop_errors_ s)
            = Some cand)).
Proof.
  intros Hm n. unfold ThreadsDE.migration in Hm.
  destruct (ThreadsDE.request_all _ _ _ _ _ _ _ _) as [st1|] eqn:Hreq;
    [simpl in Hm|done].
  apply request_all_best_spec in Hreq as (Hlen & Hphi & Hmc & Htr & Hsol).
  apply migration_loop_spec in Hm
    as (_ & _ & Hphi' & evs & Htr' & Hw & Hmc' & Hwr & Hin).
  rewrite Hlen, Hphi, Hmc in *. fold n in Hw, Hwr, Hin, Htr, Hphi'.
  assert (Hw' : waited evs
            = List.filter
                (λ i, allows kMigrationPhi_ rng (ThreadsDE.phi_calls st + i))
                (seq 0 n)).
  { rewrite Hw. apply List.filter_ext. intros i. f_equal. lia. }
  exists evs. split; [by rewrite Htr', Htr, <- app_assoc|].
  repeat (split; [done|]).
  intros src dst slot cand Hev.
  destruct (Hin _ _ _ _ Hev) as (Hsrc & -> & Hslot & s1 & bc & Hs1 & Hbc & ->).
  repeat (split; [done|]).
  destruct (Hsol _ _ Hs1) as (s & e & c & Hs & He & Hc & ->).
  simpl in Hbc. injection Hbc as <-. by exists s.
Qed.

End Migration.

Section Concrete.
Import ThreadsDESolver.

(** ** The reduction of [getBestCandidate] *)

(** C1.  [getBestCandidate] requests the local best of every solver and
    waits on each, but it reduces the local bests with the built-in [<] on
    errors, not with [callback_error_evaluation_].  Two solvers holding
    5, 1, 4, 2 and 3, 2, 1, 0 under a maximising strategy ([a > b]): the
    local bests are 5 and 3, the call returns 3, and the predicate judges 5
    better than 3, so the result is not the best of the local bests under
    the predicate. *)
Theorem getBestCandidate_compares_numerically :
  exists st',
    ThreadsDE.getBestCandidate 1 2 8 Example.maximise
      (λ _, Example.cycle 0) 0 Example.pair
    = Some (st', (3%Q, [3%Q])) /\
    subpopulations st'
    = [([[5%Q]; [1%Q]; [4%Q]; [2%Q]], [5%Q; 1%Q; 4%Q; 2%Q]);
       ([[3%Q]; [2%Q]; [1%Q]; [0%Q]], [3%Q; 2%Q; 1%Q; 0%Q])] /\
    best_candidate_ <$> ThreadsDE.solvers_ st' !! 0
    = Some (Some (5%Q, [5%Q])) /\
    best_candidate_ <$> ThreadsDE.solvers_ st' !! 1
    = Some (Some (3%Q, [3%Q])) /\
    waited (events_since Example.pair st') = [0; 0; 1] /\
    callback_error_evaluation_ Example.maximise 5%Q 3%Q = true /\
    ~ best_of_local_bests (callback_error_evaluation_ Example.maximise)
        (ThreadsDE.solvers_ st') (3%Q, [3%Q]).
Proof.
  eexists. split; [vm_compute; reflexivity|].
  do 5 (split; [reflexivity|]).
  intros [_ Hbest].
  specialize (Hbest _ (5%Q, [5%Q]) (or_introl eq_refl) eq_refl).
  discriminate Hbest.
Qed.

(** ** The claims at concrete configurations *)

Lemma Qlt_bool_iff a b : Qlt_bool a b = true <-> (a < b)%Q.
Proof.
  unfold Qlt_bool. rewrite negb_true_iff. split.
  - intros Hle. apply Qnot_le_lt. intros Hba.
    apply Qle_bool_iff in Hba. congruence.
  - intros Hlt. destruct (Qle_bool b a) eqn:Hle; [|done].
    apply Qle_bool_iff in Hle. by apply Qlt_not_le in Hlt.
Qed.

Lemma Qlt_bool_false a b : Qlt_bool a b = false <-> (b <= a)%Q.
Proof.
  unfold Qlt_bool. rewrite negb_false_iff. apply Qle_bool_iff.
Qed.

Lemma Qlt_bool_irreflexive : irreflexive Qlt_bool.
Proof. intros a. apply Qlt_bool_false, Qle_refl. Qed.

Lemma Qlt_bool_transitive : transitive Qlt_bool.
Proof.
  intros a b c Hab Hbc. apply Qlt_bool_iff in Hab, Hbc.
  apply Qlt_bool_iff. by apply (Qlt_trans _ b).
Qed.

Lemma Qlt_bool_tied_transitive : tied_transitive Qlt_bool.
Proof.
  intros a b c [Hab Hba] [Hbc Hcb].
  apply Qlt_bool_false in Hab, Hba, Hbc, Hcb.
  split; apply Qlt_bool_false.
  - by apply (Qle_trans _ b).
  - by apply (Qle_trans _ b).
Qed.

(** The streams 0, 0, 1, 1, 0, 2: the first loop rejects one draw, the
    second rejects two. *)
Lemma trial_indices_distinct_witness :
  trial_indices Example.stutter 2 0 = Some (0, 1, 2, 6) /\
  (1 <> 0 /\ 2 <> 0 /\ 2 <> 1).
Proof.
  split; [reflexivity|].
  apply (trial_indices_distinct Example.stutter 2 0 0 1 2 6). reflexivity.
Defined.

(** A subpopulation of two never completes the selection.  With the
    stream 0, 0, 1, 1, 0, 2 the selection from call 0 finds the first value
    other than 0 at call 2 and a value other than 0 and 1 at call 5. *)
Lemma trial_indices_degenerate_witness :
  (forall m, random_trials_ Example.two_indices m < 2) /\
  (forall fuel n, trial_indices Example.two_indices fuel n = None) /\
  (forall m, random_trials_ Example.stutter m < 3) /\
  offers_distinct (random_trials_ Example.stutter) 0 /\
  (exists fuel r, trial_indices Example.stutter fuel 0 = Some r).
Proof.
  assert (H2 : forall m, random_trials_ Example.two_indices m < 2)
    by (intros m; change (m mod 2 < 2); apply Nat.mod_upper_bound; lia).
  assert (H3 : forall m, random_trials_ Example.stutter m < 3).
  { intros m. do 6 (destruct m as [|m]; [simpl; lia|]). simpl. lia. }
  assert (Hoffer : offers_distinct (random_trials_ Example.stutter) 0).
  { exists 2, 5. split; [lia|]. split; [done|]. split; [|done].
    intros q Hq. by replace q with 1 by lia. }
  split; [exact H2|]. split.
  - apply (trial_indices_degenerate Example.two_indices 2 H2). lia.
  - split; [exact H3|]. split; [exact Hoffer|].
    apply (trial_indices_degenerate Example.stutter 3 H3); [lia|].
    exact Hoffer.
Defined.


(** The entities 4, 1, 3, 8 become 2, 0, -1, 3: every slot improves. *)
Lemma evolve_generation_slot_monotone_witness :
  exists s',
    evolve_generation 1 4 Example.minimise (Example.cycle 0) 0
      Example.line = Some s' /\
    pop_errors_ s' = [2%Q; 0%Q; (-1)%Q; 3%Q] /\
    forall i, slot_kept Example.line s' i \/
              slot_improved Example.minimise Example.line s' i.
Proof.
  eexists. split; [vm_compute; reflexivity|]. split; [reflexivity|].
  apply (evolve_generation_slot_monotone 1 4 Example.minimise
           (Example.cycle 0) 0 Example.line).
  vm_compute. reflexivity.
Defined.

(** The entities 4, 1, 3, 8 with F = 1: slot 0 is replaced by
    4 + (1 - 3) = 2, and the trial of slot 1 is 2 + (1 - 3) = 0, built on
    the replaced slot 0; from the previous generation it would have been
    4 + (1 - 3) = 2, which does not beat 1. *)
Lemma evolve_generation_in_place_witness :
  exists s',
    evolve_generation 1 4 Example.minimise (Example.cycle 0) 0
      Example.line = Some s' /\
    1 < 4 /\
    population_ s' = [[2%Q]; [0%Q]; [(-1)%Q]; [3%Q]] /\
    exists sk sm,
      ThreadsDESolver.evolve_slots 1 Example.minimise (Example.cycle 0) 0 1 0
        Example.line = Some sk /\
      population_ sk
        = take 1 (population_ s') ++ drop 1 (population_ Example.line) /\
      population_ sk = [[2%Q]; [1%Q]; [3%Q]; [8%Q]] /\
      ThreadsDESolver.mutation 1 Example.minimise (Example.cycle 0) 0 1 sk
      = Some sm /\
      pop_candidate_ sm = [0%Q].
Proof.
  destruct (evolve_generation 1 4 Example.minimise (Example.cycle 0)
              0 Example.line) as [s'|] eqn:Hrun;
    [|vm_compute in Hrun; discriminate Hrun].
  exists s'. split; [reflexivity|]. split; [lia|].
  destruct (evolve_generation_in_place 1 4 Example.minimise (Example.cycle 0)
              0 Example.line s' 1 Hrun ltac:(lia))
    as (sk & sm & sk' & Hsk & Hpop & _ & Hm & _).
  vm_compute in Hrun. injection Hrun as <-. split; [reflexivity|].
  exists sk, sm. split; [exact Hsk|]. split; [exact Hpop|].
  vm_compute in Hsk. injection Hsk as <-.
  split; [reflexivity|]. split; [exact Hm|].
  vm_compute in Hm. injection Hm as <-. reflexivity.
Defined.

(** The errors 4, 1, 3, 8 under [<]: position 1 is found. *)
Lemma compute_local_best_spec_witness :
  0 < length (pop_errors_ Example.line) /\
  length (population_ Example.line) = length (pop_errors_ Example.line) /\
  exists s',
    compute_local_best Example.minimise Example.line = Some s' /\
    best_candidate_ s' = Some (1%Q, [1%Q]) /\
    first_least Qlt_bool (pop_errors_ Example.line) 1 1%Q /\
    beats_earlier Qlt_bool (pop_errors_ Example.line) 1 1%Q.
Proof.
  split; [simpl; lia|]. split; [reflexivity|].
  destruct (compute_local_best_spec Example.minimise Example.line)
    as (s' & m & e & cand & Hrun & -> & He & Hcand & Hbest & _ & _ & Hleast
        & Hbeats); [simpl; lia|reflexivity|].
  exists s'. split; [exact Hrun|].
  vm_compute in He. injection He as <-.
  vm_compute in Hcand. injection Hcand as <-.
  split; [exact Hbest|]. split.
  - exact (Hleast Qlt_bool_irreflexive Qlt_bool_transitive).
  - exact (Hbeats Qlt_bool_irreflexive Qlt_bool_transitive
             Qlt_bool_tied_transitive).
Defined.

(** C10 as written fails: with a single solver the ring successor of
    solver 0 is solver 0.  After the generation the solver holds
    2, 0, -1, 3; its local best -1 is written over the entity 0 in slot 1,
    so the subpopulation of the source changes.  [solveOneGeneration]
    ends with this subpopulation. *)
Lemma migrate_single_solver_overwrites_source :
  exists st',
    ThreadsDE.migrate Example.always 0 Example.single_ready = Some st' /\
    subpopulations Example.single_ready
    = [([[2%Q]; [0%Q]; [(-1)%Q]; [3%Q]], [2%Q; 0%Q; (-1)%Q; 3%Q])] /\
    subpopulations st'
    = [([[2%Q]; [(-1)%Q]; [(-1)%Q]; [3%Q]], [2%Q; 0%Q; (-1)%Q; 3%Q])] /\
    subpopulations <$>
      ThreadsDE.solveOneGeneration 1 1 (1 # 2)%Q 4 Example.minimise
        (λ _, Example.cycle 0) Example.always 0 Example.single
    = Some (subpopulations st') /\
    ~ subpopulation_unchanged 0 Example.single_ready st'.
Proof.
  eexists. split; [vm_compute; reflexivity|]. split; [reflexivity|].
  split; [reflexivity|]. split; [vm_compute; reflexivity|].
  intros Hsame. vm_compute in Hsame. discriminate Hsame.
Qed.

(** Two solvers, migration from solver 1: the candidate -16 goes to slot 1
    of solver 0, whose error array keeps 2, 0, -1, 3; solver 1 is
    untouched. *)
Lemma migrate_frame_witness :
  exists st',
    ThreadsDE.migrate Example.always 1 Example.quads_ready = Some st' /\
    subpopulations Example.quads_ready
    = [([[2%Q]; [0%Q]; [(-1)%Q]; [3%Q]], [2%Q; 0%Q; (-1)%Q; 3%Q]);
       ([[0%Q]; [(-7)%Q]; [(-16)%Q]; [6%Q]],
        [0%Q; (-7)%Q; (-16)%Q; 6%Q])] /\
    subpopulations st'
    = [([[2%Q]; [(-16)%Q]; [(-1)%Q]; [3%Q]], [2%Q; 0%Q; (-1)%Q; 3%Q]);
       ([[0%Q]; [(-7)%Q]; [(-16)%Q]; [6%Q]],
        [0%Q; (-7)%Q; (-16)%Q; 6%Q])] /\
    ThreadsDE.solvers_ st' !! 1 = ThreadsDE.solvers_ Example.quads_ready !! 1.
Proof.
  destruct (ThreadsDE.migrate Example.always 1 Example.quads_ready)
    as [st'|] eqn:Hrun; [|vm_compute in Hrun; discriminate Hrun].
  destruct (migrate_frame Example.always 1 Example.quads_ready st' Hrun)
    as (s & bc & d & d' & Hs & _ & _ & _ & _ & _ & _ & _ & _ & _ & Hsrc).
  exists st'. split; [reflexivity|]. split; [reflexivity|].
  split.
  - vm_compute in Hrun. injection Hrun as <-. reflexivity.
  - rewrite Hs. apply Hsrc. vm_compute. lia.
Defined.

End Concrete.

(** ** Sizes, draws and stored errors across a generation *)

Section GenerationInvariants.
Import ThreadsDESolver.
Context {POP_TYPE ERROR_TYPE : Type} `{PopArith POP_TYPE}.
Variable POP_DIM : nat.
Variable POP_SIZE : nat.
Variable base_de_ : BaseDE POP_TYPE ERROR_TYPE.
Variable rng : ThreadsDESolver.Streams.

Local Abbreviation solver := (@ThreadsDESolver.t POP_TYPE ERROR_TYPE).
Local Abbreviation better := (callback_error_evaluation_ base_de_).
Local Abbreviation calc_error := (callback_calc_error_ base_de_).

Lemma redraw_counts fuel bad v n v' n' :
  redraw rng fuel bad v n = Some (v', n') -> n <= n'.
Proof.
  revert v n. induction fuel as [|fuel IH]; intros v n; simpl.
  - destruct (bad v); [done|]. intros [= <- <-]. lia.
  - destruct (bad v).
    + intros Hr. apply IH in Hr. lia.
    + intros [= <- <-]. lia.
Qed.

Lemma trial_indices_counts fuel n it0 it1 it2 n' :
  trial_indices rng fuel n = Some (it0, it1, it2, n') -> n + 3 <= n'.
Proof.
  intros Hsel. apply trial_indices_inv in Hsel as (n1 & _ & H1 & H2).
  apply redraw_counts in H1, H2. lia.
Qed.

(** What [mutation] does to the fields other than the trial. *)
Lemma mutation_effect fuel i (s s' : solver) :
  length (pop_candidate_ s) = POP_DIM ->
  mutation POP_DIM base_de_ rng fuel i s = Some s' ->
  length (pop_candidate_ s') = POP_DIM /\
  kID_ s' = kID_ s /\
  j_calls s' = S (j_calls s) /\
  cr_calls s' = cr_calls s + (POP_DIM - 1) /\
  trials_calls s + 3 <= trials_calls s'.
Proof.
  intros Hlen Hm. unfold mutation in Hm.
  destruct (trial_indices _ _ _) as [[[[it0 it1] it2] tr]|] eqn:Hsel;
    [simpl in Hm|done].
  destruct (population_ s !! it0) as [t0|]; [simpl in Hm|done].
  destruct (population_ s !! it1) as [t1|]; [simpl in Hm|done].
  destruct (population_ s !! it2) as [t2|]; [simpl in Hm|done].
  destruct (combination _ t0 t1 t2 _) as [v|]; [simpl in Hm|done].
  destruct (store _ v _) as [cand|] eqn:Hst; [simpl in Hm|done].
  destruct (crossover _ _ _ _ _ _ _ _ _ _ _ _) as [[cand' cr]|] eqn:Hx;
    [simpl in Hm|done].
  injection Hm as <-. simpl.
  apply store_Some in Hst as [Hj0 ->]. rewrite Hlen in Hj0.
  apply crossover_spec in Hx as (-> & Hlen' & _);
    [|by apply mod_cycle_lt|by rewrite length_insert|lia].
  apply trial_indices_counts in Hsel. done.
Qed.

(** What [select] does to the fields other than the slot it decides. *)
Lemma select_effect i (s s' : solver) :
  select base_de_ i s = Some s' ->
  pop_candidate_ s' = pop_candidate_ s /\
  kID_ s' = kID_ s /\
  best_candidate_ s' = best_candidate_ s /\
  j_calls s' = j_calls s /\
  cr_calls s' = cr_calls s /\
  trials_calls s' = trials_calls s /\
  (population_ s' = population_ s \/
   population_ s' = <[i := pop_candidate_ s]> (population_ s)).
Proof.
  unfold select. intros Hs.
  destruct (pop_errors_ s !! i) as [old|]; [simpl in Hs|done].
  destruct (better _ old).
  - destruct (store i _ (population_ s)) as [p|] eqn:Hp;
      [simpl in Hs|done].
    destruct (store i _ (pop_errors_ s)) as [e|]; [simpl in Hs|done].
    injection Hs as <-. simpl. apply store_Some in Hp as [_ ->].
    repeat (split; [done|]). by right.
  - injection Hs as <-. repeat (split; [done|]). by left.
Qed.

Lemma evolve_slots_effect fuel k :
  forall from (s s' : solver),
  length (pop_candidate_ s) = POP_DIM ->
  evolve_slots POP_DIM base_de_ rng fuel k from s = Some s' ->
  length (pop_candidate_ s') = POP_DIM /\
  kID_ s' = kID_ s /\
  best_candidate_ s' = best_candidate_ s /\
  j_calls s' = j_calls s + k /\
  cr_calls s' = cr_calls s + k * (POP_DIM - 1) /\
  trials_calls s + 3 * k <= trials_calls s' /\
  (Forall (λ row, length row = POP_DIM) (population_ s) ->
   Forall (λ row, length row = POP_DIM) (population_ s')).
Proof.
  induction k as [|k IH]; intros from s s' Hlen; simpl.
  - intros [= <-]. repeat (split; [done || lia|]). done.
  - intros Hrun.
    destruct (mutation _ _ _ fuel from s) as [s1|] eqn:Hm;
      [simpl in Hrun|done].
    destruct (select _ from s1) as [s2|] eqn:Hs; [simpl in Hrun|done].
    pose proof (mutation_frame _ _ _ _ _ _ _ Hm) as (Hmp & _ & Hmb).
    apply mutation_effect in Hm as (Hl1 & Hid1 & Hj1 & Hcr1 & Htr1); [|done].
    apply select_effect in Hs as (Hc2 & Hid2 & Hb2 & Hj2 & Hcr2 & Htr2 & Hp2).
    apply IH in Hrun as (Hl' & Hid' & Hb' & Hj' & Hcr' & Htr' & Hrows');
      [|congruence].
    split; [done|]. split; [congruence|]. split; [congruence|].
    split; [lia|]. split; [lia|]. split; [lia|].
    intros Hrows. apply Hrows'.
    destruct Hp2 as [->| ->]; rewrite Hmp; [done|].
    apply Forall_insert; [done|congruence].
Qed.

(** X1.  Draws of one generation: the SOLVE_GENERATION command of [run]
    draws exactly [POP_SIZE] start dimensions from [random_j_], exactly
    [POP_SIZE * (POP_DIM - 1)] crossover values from [random_cr_] and at
    least [3 * POP_SIZE] trial indices from [random_trials_] (more when the
    rejection loops redraw); it leaves the solver's id and its recorded
    local best as they were. *)
Theorem evolve_generation_draws fuel (s s' : solver) :
  length (pop_candidate_ s) = POP_DIM ->
  evolve_generation POP_DIM POP_SIZE base_de_ rng fuel s = Some s' ->
  j_calls s' = j_calls s + POP_SIZE /\
  cr_calls s' = cr_calls s + POP_SIZE * (POP_DIM - 1) /\
  trials_calls s + 3 * POP_SIZE <= trials_calls s' /\
  kID_ s' = kID_ s /\
  best_candidate_ s' = best_candidate_ s.
Proof.
  unfold evolve_generation. intros Hlen Hrun.
  by apply evolve_slots_effect in Hrun as (_ & ? & ? & ? & ? & ? & _).
Qed.

Lemma evolve_slots_well_formed fuel k from (s s' : solver) :
  well_formed POP_DIM POP_SIZE s ->
  evolve_slots POP_DIM base_de_ rng fuel k from s = Some s' ->
  well_formed POP_DIM POP_SIZE s'.
Proof.
  intros (Hp & He & Hc & Hrows) Hrun.
  pose proof (evolve_slots_slots _ _ _ _ _ _ _ _ Hrun) as (_ & _ & Hlp & Hle).
  apply evolve_slots_effect in Hrun as (Hc' & _ & _ & _ & _ & _ & Hrows');
    [|done].
  split; [congruence|]. split; [congruence|]. split; [done|]. by apply Hrows'.
Qed.

Lemma calcGenerationError_insert i (c : list POP_TYPE) p :
  calcGenerationError base_de_ (<[i := c]> p)
  = <[i := calc_error c]> (calcGenerationError base_de_ p).
Proof.
  unfold calcGenerationError. revert i.
  induction p as [|row p IH]; intros [|i]; simpl; [done..|].
  by rewrite IH.
Qed.

Lemma select_errors_current i (s s' : solver) :
  errors_current base_de_ s -> select base_de_ i s = Some s' ->
  errors_current base_de_ s'.
Proof.
  unfold errors_current, select. intros Hcur Hs.
  destruct (pop_errors_ s !! i) as [old|]; [simpl in Hs|done].
  destruct (better _ old).
  - destruct (store i _ (population_ s)) as [p|] eqn:Hp;
      [simpl in Hs|done].
    destruct (store i _ (pop_errors_ s)) as [e|] eqn:He; [simpl in Hs|done].
    injection Hs as <-. simpl.
    apply store_Some in Hp as [_ ->]. apply store_Some in He as [_ ->].
    by rewrite calcGenerationError_insert, Hcur.
  - by injection Hs as <-.
Qed.

Lemma evolve_slots_errors_current fuel k :
  forall from (s s' : solver),
  errors_current base_de_ s ->
  evolve_slots POP_DIM base_de_ rng fuel k from s = Some s' ->
  errors_current base_de_ s'.
Proof.
  induction k as [|k IH]; intros from s s' Hcur; simpl.
  - by intros [= <-].
  - intros Hrun.
    destruct (mutation _ _ _ fuel from s) as [s1|] eqn:Hm;
      [simpl in Hrun|done].
    destruct (select _ from s1) as [s2|] eqn:Hs; [simpl in Hrun|done].
    apply mutation_frame in Hm as (Hmp & Hme & _).
    assert (Hcur1 : errors_current base_de_ s1)
      by (unfold errors_current in *; congruence).
    apply (IH _ _ _ (select_errors_current _ _ _ Hcur1 Hs) Hrun).
Qed.

Lemma start_errors_current id :
  errors_current base_de_ (start POP_DIM POP_SIZE base_de_ id).
Proof. done. Qed.

(** X2.  Stored errors stay current: if every stored error is the error of
    the candidate stored beside it (as it is once [run] has called
    [generatePopulation] and [calcGenerationError]), the same holds after
    the SOLVE_GENERATION command: [select] writes a candidate and its error
    together. *)
Theorem evolve_generation_keeps_errors_current fuel (s s' : solver) :
  errors_current base_de_ s ->
  evolve_generation POP_DIM POP_SIZE base_de_ rng fuel s = Some s' ->
  errors_current base_de_ s'.
Proof. unfold evolve_generation. apply evolve_slots_errors_current. Qed.

(** X3.  The local best never regresses: for a strict (irreflexive,
    transitive) predicate, the error that GET_BEST_CANDIDATE records after a
    SOLVE_GENERATION command is beaten by no error the solver stored before
    that generation. *)
Theorem local_best_never_regresses fuel (s s' s'' : solver) e' c' :
  irreflexive better -> transitive better ->
  evolve_generation POP_DIM POP_SIZE base_de_ rng fuel s = Some s' ->
  compute_local_best base_de_ s' = Some s'' ->
  best_candidate_ s'' = Some (e', c') ->
  forall i e, pop_errors_ s !! i = Some e -> better e e' = false.
Proof.
  intros Hirr Htr Hrun Hbest Hbc i e He.
  unfold evolve_generation in Hrun.
  apply evolve_slots_slots in Hrun as (_ & Hall & _ & _).
  unfold compute_local_best in Hbest.
  destruct (population_ s' !! _) as [r|]; [simpl in Hbest|done].
  destruct (pop_errors_ s' !! _) as [em|] eqn:Hem; [simpl in Hbest|done].
  injection Hbest as <-. simpl in Hbc. injection Hbc as -> ->.
  apply (min_element_least better _ _ Hirr Htr) in Hem as (_ & Hleast & _).
  destruct (Hall i) as [[_ Hk]|(trial & e_old & Ho & _ & Hn & Hb)].
  - apply (Hleast i). by rewrite Hk.
  - rewrite He in Ho. injection Ho as <-.
    destruct (better e e') eqn:Hee; [|done].
    pose proof (Htr _ _ _ Hb Hee) as Hcontra.
    by rewrite (Hleast _ _ Hn) in Hcontra.
Qed.

(** Every dimension other than the start dimension is visited by the
    crossover loop. *)
Lemma cycle_reaches j0 x :
  j0 < POP_DIM -> x < POP_DIM -> x <> j0 ->
  exists m, m < POP_DIM - 1 /\ x = ((j0 + 1) mod POP_DIM + m) mod POP_DIM.
Proof.
  intros Hj Hx Hne.
  exists (if decide (j0 < x) then x - j0 - 1 else x + POP_DIM - j0 - 1).
  rewrite mod_cycle_succ. case_decide.
  - split; [lia|]. rewrite Nat.mod_small; lia.
  - split; [lia|]. rewrite mod_cycle by lia. case_decide; lia.
Qed.

Lemma mutation_trial fuel i (s s' : solver) :
  length (pop_candidate_ s) = POP_DIM ->
  mutation POP_DIM base_de_ rng fuel i s = Some s' ->
  let j0 := random_j_ rng (j_calls s) in
  exists it0 it1 it2 tr t0 t1 t2,
    trial_indices rng fuel (trials_calls s) = Some (it0, it1, it2, tr) /\
    population_ s !! it0 = Some t0 /\
    population_ s !! it1 = Some t1 /\
    population_ s !! it2 = Some t2 /\
    j0 < POP_DIM /\
    length (pop_candidate_ s') = POP_DIM /\
    pop_candidate_ s' !! j0 = combination base_de_ t0 t1 t2 j0 /\
    is_Some (combination base_de_ t0 t1 t2 j0) /\
    (forall x, x < POP_DIM -> x <> j0 ->
       exists m, m < POP_DIM - 1 /\
         is_Some (pop_candidate_ s' !! x) /\
         pop_candidate_ s' !! x
         = crossed base_de_ (population_ s) i t0 t1 t2
             (random_cr_ rng (cr_calls s + m)) x).
Proof.
  intros Hlen Hm j0. unfold mutation in Hm. fold j0 in Hm.
  destruct (trial_indices _ _ _) as [[[[it0 it1] it2] tr]|] eqn:Hsel;
    [simpl in Hm|done].
  destruct (population_ s !! it0) as [t0|] eqn:H0; [simpl in Hm|done].
  destruct (population_ s !! it1) as [t1|] eqn:H1; [simpl in Hm|done].
  destruct (population_ s !! it2) as [t2|] eqn:H2; [simpl in Hm|done].
  destruct (combination _ t0 t1 t2 j0) as [v|] eqn:Hv; [simpl in Hm|done].
  destruct (store j0 v _) as [cand|] eqn:Hst; [simpl in Hm|done].
  destruct (crossover _ _ _ _ _ _ _ _ _ _ _ _) as [[cand' cr]|] eqn:Hx;
    [simpl in Hm|done].
  injection Hm as <-. simpl.
  apply store_Some in Hst as [Hj0 ->]. rewrite Hlen in Hj0.
  apply crossover_spec in Hx as (-> & Hlen' & Hset & Hframe);
    [|by apply mod_cycle_lt|by rewrite length_insert|lia].
  exists it0, it1, it2, tr, t0, t1, t2. repeat (split; [done|]).
  split; [|split; [by eauto|]].
  - rewrite Hframe, Hv.
    + apply list_lookup_insert_eq. by rewrite Hlen.
    + intros m Hm. rewrite mod_cycle_succ. intros Heq. symmetry in Heq.
      revert Heq. apply mod_cycle_moves; lia.
  - intros x Hx Hne.
    destruct (cycle_reaches j0 x Hj0 Hx Hne) as (m & Hm & ->).
    destruct (Hset m Hm) as (w & Hw1 & Hw2).
    exists m. split; [done|]. rewrite Hw1. split; [by eauto|done].
Qed.


(** X5.  Crossover rate at its upper extreme: when every draw of
    [random_cr_] is at most [CR], every dimension of the trial that
    [mutation] builds is the combination of the three trial candidates, and
    the candidate of the slot being decided is not read. *)
Theorem mutation_full_crossover fuel i (s s' : solver) :
  always_crosses base_de_ rng ->
  length (pop_candidate_ s) = POP_DIM ->
  mutation POP_DIM base_de_ rng fuel i s = Some s' ->
  exists it0 it1 it2 tr t0 t1 t2,
    trial_indices rng fuel (trials_calls s) = Some (it0, it1, it2, tr) /\
    population_ s !! it0 = Some t0 /\
    population_ s !! it1 = Some t1 /\
    population_ s !! it2 = Some t2 /\
    length (pop_candidate_ s') = POP_DIM /\
    (forall x, x < POP_DIM ->
       is_Some (pop_candidate_ s' !! x) /\
       pop_candidate_ s' !! x = combination base_de_ t0 t1 t2 x) /\
    (forall i', pop_candidate_ <$> mutation POP_DIM base_de_ rng fuel i' s
                = Some (pop_candidate_ s')).
Proof.
  intros Halways Hlen Hm.
  assert (Hall : forall k (sk : solver),
    mutation POP_DIM base_de_ rng fuel k s = Some sk ->
    exists it0 it1 it2 tr t0 t1 t2,
      trial_indices rng fuel (trials_calls s) = Some (it0, it1, it2, tr) /\
      population_ s !! it0 = Some t0 /\
      population_ s !! it1 = Some t1 /\
      population_ s !! it2 = Some t2 /\
      length (pop_candidate_ sk) = POP_DIM /\
      (forall x, x < POP_DIM ->
         is_Some (pop_candidate_ sk !! x) /\
         pop_candidate_ sk !! x = combination base_de_ t0 t1 t2 x)).
  { intros k sk Hk.
    destruct (mutation_trial _ _ _ _ Hlen Hk)
      as (it0 & it1 & it2 & tr & t0 & t1 & t2 & Hsel & H0 & H1 & H2 & Hj0
          & Hlen' & Hat & Hv & Hrest).
    exists it0, it1, it2, tr, t0, t1, t2. repeat (split; [done|]).
    intros x Hx.
    destruct (decide (x = random_j_ rng (j_calls s))) as [->|Hne].
    - by rewrite Hat.
    - destruct (Hrest x Hx Hne) as (m & _ & Hsome & Heq).
      split; [done|]. rewrite Heq. unfold crossed. by rewrite Halways. }
  destruct (Hall _ _ Hm)
    as (it0 & it1 & it2 & tr & t0 & t1 & t2 & Hsel & H0 & H1 & H2 & Hlen'
        & Hdims).
  exists it0, it1, it2, tr, t0, t1, t2. repeat (split; [done|]).
  intros i'.
  destruct (mutation POP_DIM base_de_ rng fuel i' s) as [sk|] eqn:Hk.
  - simpl. f_equal.
    destruct (Hall _ _ Hk)
      as (it0' & it1' & it2' & tr' & t0' & t1' & t2' & Hsel' & H0' & H1' & H2'
          & Hlenk & Hdimsk).
    assert (it0' = it0 /\ it1' = it1 /\ it2' = it2) as (-> & -> & ->)
      by (rewrite Hsel in Hsel'; by injection Hsel' as <- <- <- <-).
    assert (t0' = t0) as -> by congruence.
    assert (t1' = t1) as -> by congruence.
    assert (t2' = t2) as -> by congruence.
    apply list_eq. intros x. destruct (decide (x < POP_DIM)) as [Hx|Hx].
    + destruct (Hdimsk x Hx) as [_ ->]. by destruct (Hdims x Hx) as [_ ->].
    + rewrite !lookup_ge_None_2; [done|lia..].
  - exfalso. revert Hm Hk. unfold mutation. rewrite Hsel. simpl.
    rewrite H0, H1, H2. simpl.
    destruct (combination _ _ _ _ _) as [v|]; [simpl|done].
    destruct (store _ v _) as [cand|] eqn:Hst; [simpl|done].
    apply store_Some in Hst as [Hj0 ->]. rewrite Hlen in Hj0.
    intros _ Hk.
    assert (Hdef : forall k j cand cr, j < POP_DIM -> length cand = POP_DIM ->
      (forall x, x < POP_DIM -> is_Some (combination base_de_ t0 t1 t2 x)) ->
      is_Some (crossover POP_DIM base_de_ rng k (population_ s) i'
                 t0 t1 t2 j cand cr)).
    { intros k. induction k as [|k IH]; intros j cand cr Hj Hl Hc;
        simpl; [by eauto|].
      rewrite Halways. destruct (Hc j Hj) as [w ->]. simpl.
      unfold store. rewrite decide_True by lia. simpl.
      apply IH; [by apply mod_cycle_lt|by rewrite length_insert|done]. }
    destruct (Hdef (POP_DIM - 1)
                ((random_j_ rng (j_calls s) + 1) mod POP_DIM)
                (<[random_j_ rng (j_calls s) := v]> (pop_candidate_ s))
                (cr_calls s)) as [[c cr] Hc];
      [by apply mod_cycle_lt|by rewrite length_insert| |].
    + intros x Hx. destruct (Hdims x Hx) as [Hsome Heq]. by rewrite <- Heq.
    + by rewrite Hc in Hk.
Qed.

(** X6.  The SOLVE_GENERATION command returns: with arrays of the sizes
    their types give them, index streams within their distributions and a
    trial index stream that keeps delivering fresh values, every subscript
    of the generation is in range and the two rejection loops of [mutation]
    stop.  (In the embedding: some bound on the iterations of the rejection
    loops suffices, and every larger bound gives the same state.)  The
    arrays keep their sizes. *)
Theorem evolve_generation_returns (s : solver) :
  in_range POP_DIM POP_SIZE rng ->
  keeps_offering (random_trials_ rng) ->
  well_formed POP_DIM POP_SIZE s ->
  exists fuel s',
    (forall fuel', fuel <= fuel' ->
       evolve_generation POP_DIM POP_SIZE base_de_ rng fuel' s = Some s') /\
    well_formed POP_DIM POP_SIZE s'.
Proof.
  intros Hrange Hfair Hwf.
  destruct (evolve_slots_completes POP_DIM POP_SIZE base_de_ rng Hrange
              POP_SIZE Hfair 0 s Hwf ltac:(lia)) as (fuel & s' & Hrun & Hwf').
  exists fuel, s'. split; [|done]. intros fuel' Hle.
  by apply (evolve_slots_mono _ _ _ fuel).
Qed.

End GenerationInvariants.

(** ** Invariants of the coordinator *)

Lemma In_insert {A} (l : list A) i x y :
  In x (<[i := y]> l) -> x = y \/ In x l.
Proof.
  revert i. induction l as [|a l IH]; intros [|i]; simpl; [done..| |].
  - intros [<-|Hx]; eauto.
  - intros [<-|Hx]; [eauto|]. destruct (IH _ Hx); eauto.
Qed.

Lemma In_lookup {A} (l : list A) i x : l !! i = Some x -> In x l.
Proof. intros Hx. apply list_elem_of_In. by eapply list_elem_of_lookup_2. Qed.

Lemma Forall2_transfer {A B} (R : A -> B -> Prop) (P : A -> Prop)
    (Q : B -> Prop) l k :
  Forall2 R l k -> Forall P l -> (forall x y, R x y -> P x -> Q y) ->
  Forall Q k.
Proof.
  intros HR HP Himp. induction HR as [|x y l k Hxy _ IH]; [done|].
  inversion HP; subst. constructor; [by eapply Himp|by apply IH].
Qed.

Section CoordinatorInvariants.
Import ThreadsDESolver.
Context {POP_TYPE ERROR_TYPE : Type} `{PopArith POP_TYPE, ErrorNum ERROR_TYPE}.
Variable POP_DIM : nat.
Variable kNProcess_ : nat.
Variable kMigrationPhi_ : Q.
Variable kPopSize_ : nat.
Variable base_de : BaseDE POP_TYPE ERROR_TYPE.
Variable solver_rng : nat -> ThreadsDESolver.Streams.
Variable rng : ThreadsDE.Streams.

Local Abbreviation solver := (@ThreadsDESolver.t POP_TYPE ERROR_TYPE).
Local Abbreviation coordinator := (@ThreadsDE.t POP_TYPE ERROR_TYPE).
Local Abbreviation better := (callback_error_evaluation_ base_de).
Local Abbreviation share := (ThreadsDE.share kNProcess_ kPopSize_).
Local Abbreviation request_all :=
  (ThreadsDE.request_all POP_DIM kNProcess_ kPopSize_ base_de solver_rng).
Local Abbreviation migration_loop :=
  (ThreadsDE.migration_loop kMigrationPhi_ rng).

Lemma solver_generation_inv srng fuel (s s' : solver) :
  ThreadsDESolver.solveOneGeneration POP_DIM share base_de srng fuel s
  = Some s' ->
  exists s2,
    evolve_generation POP_DIM share base_de srng fuel
      (with_flags s true false SOLVE_GENERATION) = Some s2 /\
    s' = with_flags s2 false true (work_type_ s2).
Proof.
  unfold ThreadsDESolver.solveOneGeneration, run_command. simpl. intros Hrun.
  destruct (evolve_generation _ _ _ _ _ _) as [s2|]; [simpl in Hrun|done].
  injection Hrun as <-. by exists s2.
Qed.

Lemma mapM_waitWork (l l' : list solver) :
  mapM waitWork l = Some l' ->
  l' = l /\ Forall (λ s, work_ready_ s = true) l.
Proof.
  revert l'. induction l as [|s l IH]; intros l'; simpl.
  - by intros [= <-].
  - destruct (waitWork s) as [s1|] eqn:Hw; simpl; [|done].
    unfold waitWork in Hw. destruct (work_ready_ s) eqn:Hr; [|done].
    injection Hw as <-.
    destruct (mapM waitWork l) as [k|]; simpl; [|done].
    intros [= <-]. destruct (IH k eq_refl) as [-> Hall].
    split; [done|]. by constructor.
Qed.

Lemma wait_all_inv (st st2 : coordinator) :
  ThreadsDE.wait_all st = Some st2 ->
  ThreadsDE.solvers_ st2 = ThreadsDE.solvers_ st /\
  ThreadsDE.phi_calls st2 = ThreadsDE.phi_calls st /\
  ThreadsDE.migration_calls st2 = ThreadsDE.migration_calls st.
Proof.
  unfold ThreadsDE.wait_all. intros Hw.
  destruct (mapM waitWork _) as [ss|] eqn:Hmap; [simpl in Hw|done].
  injection Hw as <-. simpl. by apply mapM_waitWork in Hmap as [-> _].
Qed.

Lemma request_all_solve_inv fuel (st st1 : coordinator) :
  request_all SOLVE_GENERATION fuel st = Some st1 ->
  Forall2
    (λ s s1 : solver,
       ThreadsDESolver.solveOneGeneration POP_DIM share base_de
         (solver_rng (kID_ s)) fuel s = Some s1)
    (ThreadsDE.solvers_ st) (ThreadsDE.solvers_ st1) /\
  ThreadsDE.phi_calls st1 = ThreadsDE.phi_calls st /\
  ThreadsDE.migration_calls st1 = ThreadsDE.migration_calls st.
Proof.
  unfold ThreadsDE.request_all. intros Hreq.
  destruct (mapM _ _) as [ss|] eqn:Hmap; [simpl in Hreq|done].
  injection Hreq as <-. simpl. by apply mapM_Some_1 in Hmap.
Qed.




Lemma migrated_from_refl (st : coordinator) (s : solver) :
  migrated_from st s s.
Proof.
  exists (population_ s). split; [by destruct s|]. split; [done|]. by left.
Qed.

Lemma migrated_from_all (st : coordinator) (l : list solver) :
  Forall2 (migrated_from st) l l.
Proof. induction l; constructor; [apply migrated_from_refl|done]. Qed.

Lemma migration_loop_populations k :
  forall from (st st' : coordinator),
  migration_loop k from st = Some st' ->
  Forall2 (migrated_from st) (ThreadsDE.solvers_ st) (ThreadsDE.solvers_ st').
Proof.
  induction k as [|k IH]; intros from st st'; simpl.
  { intros [= <-]. apply migrated_from_all. }
  intros Hrun.
  destruct (Qlt_bool _ _).
  - destruct (ThreadsDE.migrate rng from _) as [st2|] eqn:Hm;
      [simpl in Hrun|done].
    apply migrate_unfold in Hm as (s & bc & d & Hs & _ & Hbc & Hd & Hmi & ->).
    simpl in *. apply IH in Hrun. simpl in Hrun.
    set (dst := (from + 1) mod length (ThreadsDE.solvers_ st)) in *.
    set (mi := ThreadsDE.random_migration_index_ rng
                 (ThreadsDE.migration_calls st)) in *.
    apply Forall2_same_length_lookup in Hrun as [Hlen Hrel].
    rewrite length_insert in Hlen.
    apply Forall2_same_length_lookup. split; [done|].
    intros i x y Hx Hy.
    assert (Hbests : forall src2 bc2,
      In src2 (<[dst := with_population d (<[mi := bc.2]> (population_ d))]>
                 (ThreadsDE.solvers_ st)) ->
      best_candidate_ src2 = Some bc2 ->
      exists src, In src (ThreadsDE.solvers_ st) /\
                  best_candidate_ src = Some bc2).
    { intros src2 bc2 Hin Hb2. apply In_insert in Hin as [->|Hin].
      - exists d. split; [by eapply In_lookup|done].
      - by exists src2. }
    destruct (decide (i = dst)) as [->|Hne].
    + assert (x = d) as -> by congruence.
      destruct (Hrel dst _ y (list_lookup_insert_eq _ _ _
                  (lookup_lt_Some _ _ _ Hd)) Hy)
        as (p & -> & Hlp & Hrows).
      simpl in Hlp. rewrite length_insert in Hlp.
      exists p. split; [done|]. split; [done|].
      intros row Hrow. destruct (Hrows row Hrow) as [Hold|Hnew].
      * simpl in Hold. apply In_insert in Hold as [->|Hold]; [|by left].
        right. exists s, bc. split; [by eapply In_lookup|done].
      * right. destruct Hnew as (src2 & bc2 & Hin & Hb2 & ->).
        destruct (Hbests _ _ Hin Hb2) as (src & Hsrc & Hb). by exists src, bc2.
    + assert (Hx2 : <[dst := with_population d
                               (<[mi := bc.2]> (population_ d))]>
                      (ThreadsDE.solvers_ st) !! i = Some x)
        by by rewrite list_lookup_insert_ne.
      destruct (Hrel i _ y Hx2 Hy) as (p & -> & Hlp & Hrows).
      exists p. split; [done|]. split; [done|].
      intros row Hrow. destruct (Hrows row Hrow) as [Hold|Hnew]; [by left|].
      right. destruct Hnew as (src2 & bc2 & Hin & Hb2 & ->).
      destruct (Hbests _ _ Hin Hb2) as (src & Hsrc & Hb). by exists src, bc2.
  - simpl in Hrun. apply IH in Hrun. by simpl in Hrun.
Qed.

(** What [migration] leaves of each solver. *)
Lemma migration_inv fuel (st st' : coordinator) :
  ThreadsDE.migration POP_DIM kNProcess_ kMigrationPhi_ kPopSize_ base_de
    solver_rng rng fuel st = Some st' ->
  Forall2
    (λ s s' : solver,
       solver_core s'
       = solver_core (with_population s (population_ s')) /\
       work_ready_ s' = true /\
       length (population_ s') = length (population_ s) /\
       forall row, In row (population_ s') ->
         In row (population_ s) \/
         exists src, In src (ThreadsDE.solvers_ st) /\
           population_ src !! min_element better (pop_errors_ src)
           = Some row)
    (ThreadsDE.solvers_ st) (ThreadsDE.solvers_ st').
Proof.
  unfold ThreadsDE.migration. intros Hm.
  destruct (ThreadsDE.request_all _ _ _ _ _ _ _ _) as [st1|] eqn:Hreq;
    [simpl in Hm|done].
  apply request_all_best_spec in Hreq as (Hlen & _ & _ & _ & Hsol).
  apply migration_loop_populations in Hm.
  apply Forall2_same_length_lookup in Hm as [Hlen' Hrel].
  apply Forall2_same_length_lookup. split; [congruence|].
  intros i s s' Hs Hs'.
  destruct (lookup_lt_is_Some_2 (ThreadsDE.solvers_ st1) i) as [s1 Hs1].
  { rewrite Hlen. by apply lookup_lt_Some in Hs. }
  destruct (Hsol _ _ Hs1) as (s0 & e & cand & Hs0 & He & Hc & ->).
  assert (s0 = s) as -> by congruence.
  destruct (Hrel _ _ _ Hs1 Hs') as (p & -> & Hlp & Hrows). simpl in *.
  repeat (split; [done|]).
  intros row Hrow. destruct (Hrows row Hrow) as [?|Hnew]; [by left|].
  right. destruct Hnew as (src1 & bc & Hin & Hbc & ->).
  apply list_elem_of_In, list_elem_of_lookup_1 in Hin as [k Hk].
  destruct (Hsol _ _ Hk) as (src & e' & cand' & Hsrc & He' & Hc' & ->).
  simpl in Hbc. injection Hbc as <-. simpl.
  exists src. split; [by eapply In_lookup|done].
Qed.


Lemma solver_generation_well_formed srng fuel (s s' : solver) :
  well_formed POP_DIM share s ->
  ThreadsDESolver.solveOneGeneration POP_DIM share base_de srng fuel s
  = Some s' ->
  well_formed POP_DIM share s'.
Proof.
  intros Hwf Hrun. apply solver_generation_inv in Hrun as (s2 & Hrun & ->).
  assert (Hwf' : well_formed POP_DIM share
                   (with_flags s true false SOLVE_GENERATION)) by exact Hwf.
  unfold evolve_generation in Hrun.
  exact (evolve_slots_well_formed _ _ _ _ _ _ _ _ _ Hwf' Hrun).
Qed.

Lemma solveOneGeneration_shape fuel (st st' : coordinator) :
  shaped POP_DIM kNProcess_ kPopSize_ st ->
  ThreadsDE.solveOneGeneration POP_DIM kNProcess_ kMigrationPhi_ kPopSize_
    base_de solver_rng rng fuel st = Some st' ->
  shaped POP_DIM kNProcess_ kPopSize_ st'.
Proof.
  intros [Hn Hwf]. unfold ThreadsDE.solveOneGeneration. intros Hrun.
  destruct (ThreadsDE.request_all _ _ _ _ _ _ _ _) as [st1|] eqn:Hreq;
    [simpl in Hrun|done].
  destruct (ThreadsDE.wait_all st1) as [st2|] eqn:Hwait; [simpl in Hrun|done].
  apply request_all_solve_inv in Hreq as (Hgen & _ & _).
  apply wait_all_inv in Hwait as (Hsol & _ & _).
  apply migration_inv in Hrun. rewrite Hsol in Hrun.
  assert (Hwf1 : Forall (well_formed POP_DIM share) (ThreadsDE.solvers_ st1)).
  { apply (Forall2_transfer _ _ _ _ _ Hgen Hwf). intros s s1 Hs Hwfs.
    by eapply solver_generation_well_formed. }
  split.
  - rewrite <- (Forall2_length _ _ _ Hrun), <- (Forall2_length _ _ _ Hgen).
    done.
  - apply Forall_lookup. intros i s' Hs'.
    destruct (Forall2_lookup_r _ _ _ _ _ Hrun Hs')
      as (s1 & Hs1 & Hcore & _ & Hlen & Hrows).
    rewrite Forall_lookup in Hwf1.
    destruct (Hwf1 _ _ Hs1) as (Hp & He & Hc & Hr).
    unfold solver_core in Hcore. simpl in Hcore.
    injection Hcore as _ Hcand Herr _ _ _.
    split; [congruence|]. split; [congruence|]. split; [congruence|].
    apply Forall_forall. intros row Hrow. apply list_elem_of_In in Hrow.
    destruct (Hrows row Hrow) as [Hold|(src & Hsrc & Hbest)].
    + rewrite Forall_forall in Hr. apply Hr. by apply list_elem_of_In.
    + apply list_elem_of_In, list_elem_of_lookup_1 in Hsrc as [k Hk].
      destruct (Hwf1 _ _ Hk) as (_ & _ & _ & Hr').
      rewrite Forall_lookup in Hr'. by apply (Hr' _ _ Hbest).
Qed.

Lemma init_shaped :
  0 < share -> shaped POP_DIM kNProcess_ kPopSize_
                 (ThreadsDE.init POP_DIM kNProcess_ kPopSize_ base_de).
Proof.
  intros Hpos. unfold ThreadsDE.init. split; simpl.
  - by rewrite length_map, length_seq.
  - apply Forall_forall. intros s Hs.
    apply list_elem_of_In, in_map_iff in Hs as (id & <- & _).
    by apply start_well_formed.
Qed.

(** X8.  Sizes are invariant: a coordinator whose [kNProcess_] solvers have
    arrays of the sizes of their share ([kPopSize_ / kNProcess_] candidates
    of [POP_DIM] components, as many errors) is in the same shape after
    [solveNGenerations(N)], for every [N]; neither a generation nor a
    migration adds, removes or resizes anything. *)
Theorem solveNGenerations_keeps_shape fuel N (st st' : coordinator) :
  shaped POP_DIM kNProcess_ kPopSize_ st ->
  ThreadsDE.solveNGenerations POP_DIM kNProcess_ kMigrationPhi_ kPopSize_
    base_de solver_rng rng fuel N st = Some st' ->
  shaped POP_DIM kNProcess_ kPopSize_ st'.
Proof.
  revert st. induction N as [|N IH]; intros st Hsh; simpl.
  - by intros [= <-].
  - intros Hrun.
    destruct (ThreadsDE.solveOneGeneration _ _ _ _ _ _ _ _ _) as [st1|] eqn:H1;
      [simpl in Hrun|done].
    apply (IH st1); [|done]. by eapply solveOneGeneration_shape.
Qed.

Lemma solveOneGeneration_counts fuel (st st' : coordinator) :
  ThreadsDE.solveOneGeneration POP_DIM kNProcess_ kMigrationPhi_ kPopSize_
    base_de solver_rng rng fuel st = Some st' ->
  let n := length (ThreadsDE.solvers_ st) in
  length (ThreadsDE.solvers_ st') = n /\
  ThreadsDE.phi_calls st' = ThreadsDE.phi_calls st + n /\
  ThreadsDE.migration_calls st <= ThreadsDE.migration_calls st'
    <= ThreadsDE.migration_calls st + n.
Proof.
  intros Hrun n. unfold ThreadsDE.solveOneGeneration in Hrun.
  destruct (ThreadsDE.request_all _ _ _ _ _ _ _ _) as [st1|] eqn:Hreq;
    [simpl in Hrun|done].
  destruct (ThreadsDE.wait_all st1) as [st2|] eqn:Hwait; [simpl in Hrun|done].
  apply request_all_solve_inv in Hreq as (Hgen & Hphi1 & Hmc1).
  apply wait_all_inv in Hwait as (Hsol & Hphi2 & Hmc2).
  pose proof (migration_inv _ _ _ Hrun) as Hinv.
  apply Forall2_length in Hinv, Hgen.
  destruct (migration_events _ _ _ _ _ _ _ _ _ _ Hrun)
    as (evs & _ & Hphi & Hw & Hmc & _).
  assert (Hle : length (waited evs) <= length (ThreadsDE.solvers_ st2)).
  { rewrite Hw. etransitivity; [apply List.filter_length_le|].
    by rewrite length_seq. }
  rewrite Hsol in *. unfold n. split; [congruence|]. lia.
Qed.

(** X9.  Draws of the migration: [solveNGenerations(N)] keeps the number of
    solvers and draws exactly [N * thread_count] values from [random_phi_],
    one per solver and generation, and at most as many slots from
    [random_migration_index_]. *)
Theorem solveNGenerations_draws fuel N (st st' : coordinator) :
  ThreadsDE.solveNGenerations POP_DIM kNProcess_ kMigrationPhi_ kPopSize_
    base_de solver_rng rng fuel N st = Some st' ->
  let n := length (ThreadsDE.solvers_ st) in
  length (ThreadsDE.solvers_ st') = n /\
  ThreadsDE.phi_calls st' = ThreadsDE.phi_calls st + N * n /\
  ThreadsDE.migration_calls st <= ThreadsDE.migration_calls st'
    <= ThreadsDE.migration_calls st + N * n.
Proof.
  revert st. induction N as [|N IH]; intros st; simpl.
  - intros [= <-]. lia.
  - intros Hrun.
    destruct (ThreadsDE.solveOneGeneration _ _ _ _ _ _ _ _ _) as [st1|] eqn:H1;
      [simpl in Hrun|done].
    apply solveOneGeneration_counts in H1 as (Hn1 & Hphi1 & Hmc1).
    apply IH in Hrun as (Hn & Hphi & Hmc). rewrite Hn1 in *. lia.
Qed.

(** The solvers of [init], one by one. *)
Lemma init_lookup k (s : solver) :
  ThreadsDE.solvers_ (ThreadsDE.init POP_DIM kNProcess_ kPopSize_ base_de)
    !! k = Some s ->
  k < kNProcess_ /\ s = start POP_DIM share base_de k.
Proof.
  unfold ThreadsDE.init. simpl.
  change (map ?f ?l) with (f <$> l). rewrite list_lookup_fmap.
  destruct (seq 0 kNProcess_ !! k) as [id|] eqn:Hid; [simpl|done].
  apply lookup_seq in Hid as [-> Hk]. by intros [= <-].
Qed.

(** X11.  The constructor partitions the population: it creates
    [kNProcess_] solvers with the ids 0, 1, ..., each holding
    [kPopSize_ / kNProcess_] candidates of [POP_DIM] components and the
    error of each; together they hold [kPopSize_ - kPopSize_ mod kNProcess_]
    entities, so the remainder of the division is dropped. *)
Theorem init_partition :
  0 < kNProcess_ ->
  let st := ThreadsDE.init POP_DIM kNProcess_ kPopSize_ base_de in
  length (ThreadsDE.solvers_ st) = kNProcess_ /\
  (forall k s, ThreadsDE.solvers_ st !! k = Some s ->
     kID_ s = k /\
     length (population_ s) = kPopSize_ / kNProcess_ /\
     Forall (λ row, length row = POP_DIM) (population_ s) /\
     errors_current base_de s) /\
  entities st = kPopSize_ - kPopSize_ mod kNProcess_.
Proof.
  intros Hn st. split; [|split].
  - unfold st, ThreadsDE.init. simpl. by rewrite length_map, length_seq.
  - intros k s Hs. apply init_lookup in Hs as [Hk ->].
    unfold start, errors_current. simpl. split; [done|].
    unfold generatePopulation. split; [by rewrite length_map, length_seq|].
    split; [|done].
    apply Forall_forall. intros row Hrow.
    apply list_elem_of_In, in_map_iff in Hrow as (i & <- & _).
    by rewrite length_map, length_seq.
  - unfold entities, st, ThreadsDE.init. simpl. rewrite map_map.
    assert (Hsum : forall l : list nat,
      list_sum (map (λ id, length (population_
                                     (start POP_DIM share base_de id))) l)
      = length l * share).
    { induction l as [|id l IH]; [done|].
      unfold list_sum in *. cbn [map fold_right length]. rewrite IH.
      unfold start. cbn [population_]. unfold generatePopulation.
      rewrite length_map, length_seq. lia. }
    rewrite Hsum, length_seq. unfold ThreadsDE.share.
    pose proof (Nat.div_mod_eq kPopSize_ kNProcess_). lia.
Qed.

End CoordinatorInvariants.

(** ** The sequential reading as an interleaving

    What [ThreadsDE.solveNGenerations] computes is what the threads compute
    under the schedules in which every worker finishes its command before
    the coordinator's thread moves on. *)

Lemma insert_middle {A} (l1 l2 : list A) (x y : A) :
  <[length l1 := y]> (l1 ++ x :: l2) = l1 ++ y :: l2.
Proof. induction l1 as [|a l1 IH]; simpl; [done|]. by f_equal. Qed.

Section InStep.
Import ThreadsDESolver.
Context {POP_TYPE ERROR_TYPE : Type} `{PopArith POP_TYPE, ErrorNum ERROR_TYPE}.
Variable POP_DIM : nat.
Variable kNProcess_ : nat.
Variable kMigrationPhi_ : Q.
Variable kPopSize_ : nat.
Variable base_de : BaseDE POP_TYPE ERROR_TYPE.
Variable solver_rng : nat -> ThreadsDESolver.Streams.
Variable rng : ThreadsDE.Streams.
Variable fuel : nat.

Local Abbreviation solver := (@ThreadsDESolver.t POP_TYPE ERROR_TYPE).
Local Abbreviation coordinator := (@ThreadsDE.t POP_TYPE ERROR_TYPE).
Local Abbreviation share := (ThreadsDE.share kNProcess_ kPopSize_).
Local Abbreviation run :=
  (Threaded.run POP_DIM kNProcess_ kMigrationPhi_ kPopSize_ base_de
     solver_rng rng fuel).
Local Abbreviation request w s :=
  (match w with
   | SOLVE_GENERATION =>
       ThreadsDESolver.solveOneGeneration POP_DIM share base_de
         (solver_rng (kID_ s)) fuel s
   | GET_BEST_CANDIDATE =>
       ThreadsDESolver.solveBestCandidate POP_DIM share base_de
         (solver_rng (kID_ s)) fuel s
   end).
Local Abbreviation at_wait := (map (λ s : solver, (s, Threaded.AtWait))).

Lemma store_in_mk i (f : solver -> solver) c rest0 rest ss phi mig log
    (s : solver) pos :
  ss !! i = Some (s, pos) ->
  Threaded.store_in i f c rest (Threaded.mk ss phi mig rest0 log)
  = Threaded.Next
      (Threaded.mk (<[i := (f s, pos)]> ss) phi mig rest (log ++ [c])).
Proof. intros Hi. unfold Threaded.store_in. simpl. by rewrite Hi. Qed.

(** The three stores of a request. *)
Lemma run_request w i (s : solver) pos ss phi mig rest log :
  ss !! i = Some (s, pos) ->
  run (replicate 3 Threaded.Coordinator)
    (Threaded.mk ss phi mig
       (Threaded.SetPending i :: Threaded.ClearReady i
        :: Threaded.SetType w i :: rest) log)
  = Threaded.Next
      (Threaded.mk (<[i := (with_flags s true false w, pos)]> ss) phi mig
         rest
         (log ++ [Threaded.SetPending i; Threaded.ClearReady i;
                  Threaded.SetType w i])).
Proof.
  intros Hi. assert (Hlt : i < length ss) by (by eapply lookup_lt_Some).
  cbn [replicate Threaded.run Threaded.step Threaded.coordinator_step
       Threaded.todo].
  erewrite store_in_mk; [|exact Hi].
  cbn [Threaded.todo Threaded.coordinator_step].
  erewrite store_in_mk; [|by apply list_lookup_insert_eq].
  cbn [Threaded.todo Threaded.coordinator_step].
  erewrite store_in_mk;
    [|apply list_lookup_insert_eq; by rewrite length_insert].
  rewrite !list_insert_insert_eq, <- !app_assoc. reflexivity.
Qed.

(** One pass of a worker through its loop. *)
Lemma run_worker_pass k (s s' : solver) ss phi mig todo log :
  ss !! k = Some (s, Threaded.AtWait) ->
  Threaded.holds_mutex k (Threaded.mk ss phi mig todo log) = false ->
  run_command POP_DIM share base_de (solver_rng (kID_ s)) fuel s = Some s' ->
  pending_work_ s = true ->
  run (replicate 4 (Threaded.Worker k)) (Threaded.mk ss phi mig todo log)
  = Threaded.Next (Threaded.mk (<[k := (s', Threaded.AtWait)]> ss) phi mig
                     todo log).
Proof.
  intros Hk Hm Hcmd Hp.
  assert (Hlt : k < length ss) by (by eapply lookup_lt_Some).
  assert (Hstep : forall (x : solver) pos l,
            l !! k = Some (x, pos) ->
            Threaded.worker_step POP_DIM kNProcess_ kPopSize_ base_de
              solver_rng fuel k (Threaded.mk l phi mig todo log)
            = match pos with
              | Threaded.AtWait =>
                  if pending_work_ x
                  then Threaded.Next
                         (Threaded.mk (<[k := (x, Threaded.AtCommand)]> l)
                            phi mig todo log)
                  else Threaded.Blocked
              | Threaded.AtCommand =>
                  match
                    match work_type_ x with
                    | SOLVE_GENERATION =>
                        evolve_generation POP_DIM share base_de
                          (solver_rng (kID_ x)) fuel x
                    | GET_BEST_CANDIDATE => compute_local_best base_de x
                    end
                  with
                  | Some x' =>
                      Threaded.Next
                        (Threaded.mk (<[k := (x', Threaded.AtClear)]> l)
                           phi mig todo log)
                  | None => Threaded.Undefined
                  end
              | Threaded.AtClear =>
                  Threaded.Next
                    (Threaded.mk
                       (<[k := (with_flags x false (work_ready_ x)
                                  (work_type_ x), Threaded.AtReady)]> l)
                       phi mig todo log)
              | Threaded.AtReady =>
                  Threaded.Next
                    (Threaded.mk
                       (<[k := (with_flags x (pending_work_ x) true
                                  (work_type_ x), Threaded.AtWait)]> l)
                       phi mig todo log)
              end).
  { intros x pos l Hl. unfold Threaded.worker_step.
    cbn [Threaded.solvers_ Threaded.phi_calls Threaded.migration_calls
         Threaded.todo Threaded.log].
    rewrite Hl. destruct pos; try reflexivity.
    unfold Threaded.holds_mutex in *. cbn [Threaded.todo] in *.
    rewrite Hm. by destruct (pending_work_ x). }
  unfold run_command in Hcmd. rewrite Hp in Hcmd.
  destruct (match work_type_ s with
            | SOLVE_GENERATION => _
            | GET_BEST_CANDIDATE => _
            end) as [x|] eqn:Hx; [|done].
  injection Hcmd as <-.
  cbn [replicate Threaded.run Threaded.step].
  rewrite (Hstep _ _ _ Hk), Hp. cbv beta iota.
  erewrite Hstep; [|by apply list_lookup_insert_eq].
  rewrite Hx. cbv beta iota.
  erewrite Hstep;
    [|apply list_lookup_insert_eq; by rewrite length_insert].
  cbv beta iota.
  erewrite Hstep;
    [|apply list_lookup_insert_eq; by rewrite !length_insert].
  cbv beta iota. by rewrite !list_insert_insert_eq.
Qed.

(** A schedule in two parts runs the first part and then the second. *)
Lemma run_app (a b : list Threaded.Thread) (st : Threaded.t) :
  run (a ++ b) st
  = match run a st with
    | Threaded.Next st' => run b st'
    | Threaded.Blocked => Threaded.Blocked
    | Threaded.Undefined => Threaded.Undefined
    end.
Proof.
  revert st. induction a as [|th a IH]; intros st; [reflexivity|].
  simpl. destruct (Threaded.step _ _ _ _ _ _ _ _ th st); auto.
Qed.

(** The requests to the solvers from [length done] on. *)
Lemma run_requests w (done l : list (solver * Threaded.Position)) phi mig
    rest log :
  run (replicate (3 * length l) Threaded.Coordinator)
    (Threaded.mk (done ++ l) phi mig
       (flat_map (λ i, [Threaded.SetPending i; Threaded.ClearReady i;
                        Threaded.SetType w i])
          (seq (length done) (length l)) ++ rest) log)
  = Threaded.Next
      (Threaded.mk
         (done ++ map (λ sp, (with_flags sp.1 true false w, sp.2)) l)
         phi mig rest
         (log ++ flat_map (λ i, [Threaded.SetPending i; Threaded.ClearReady i;
                                 Threaded.SetType w i])
                   (seq (length done) (length l)))).
Proof.
  revert done log. induction l as [|[s pos] l IH]; intros done log.
  - simpl. by rewrite !app_nil_r.
  - replace (3 * length ((s, pos) :: l)) with (3 + 3 * length l)
      by (simpl; lia).
    rewrite replicate_add, run_app.
    cbn [length seq flat_map app].
    erewrite run_request; [|by apply list_lookup_middle].
    rewrite insert_middle.
    specialize (IH (done ++ [(with_flags s true false w, pos)])
                  (log ++ [Threaded.SetPending (length done);
                           Threaded.ClearReady (length done);
                           Threaded.SetType w (length done)])).
    rewrite length_app, Nat.add_1_r, <- !app_assoc in IH.
    cbn [map fst snd]. exact IH.
Qed.

Lemma request_as_command w (s s' : solver) :
  request w s = Some s' ->
  run_command POP_DIM share base_de
    (solver_rng (kID_ (with_flags s true false w))) fuel
    (with_flags s true false w) = Some s'.
Proof. by destruct w. Qed.

(** The workers of the solvers from [length done] on, each through the
    command requested of it. *)
Lemma run_workers w (done : list (solver * Threaded.Position))
    (l l' : list solver) phi mig todo log :
  (l <> [] ->
   forall k (ss : list (solver * Threaded.Position)),
     Threaded.holds_mutex k (Threaded.mk ss phi mig todo log) = false) ->
  mapM (λ s : solver, request w s) l = Some l' ->
  run (flat_map (λ k, replicate 4 (Threaded.Worker k))
         (seq (length done) (length l)))
    (Threaded.mk
       (done ++ map (λ s, (with_flags s true false w, Threaded.AtWait)) l)
       phi mig todo log)
  = Threaded.Next (Threaded.mk (done ++ at_wait l') phi mig todo log).
Proof.
  intros Hm. revert done l'.
  induction l as [|s l IH]; intros done l' Hmap.
  - simpl in Hmap. by injection Hmap as <-.
  - simpl in Hmap.
    destruct (request w s) as [s1|] eqn:Hs; [simpl in Hmap|done].
    destruct (mapM _ l) as [l1|] eqn:Hl; [simpl in Hmap|done].
    injection Hmap as <-.
    cbn [length seq flat_map map]. rewrite run_app.
    erewrite run_worker_pass;
      [|by apply list_lookup_middle|by apply Hm
       |by apply request_as_command|done].
    rewrite insert_middle.
    specialize (IH ltac:(intros _; by apply Hm)
                  (done ++ [(s1, Threaded.AtWait)]) l1 eq_refl).
    rewrite length_app, Nat.add_1_r, <- !app_assoc in IH. exact IH.
Qed.

(** The waits on the solvers from [from] on, all of them ready. *)
Lemma run_waits k from (ss : list (solver * Threaded.Position)) phi mig
    rest log :
  Forall (λ sp, work_ready_ sp.1 = true) ss ->
  from + k <= length ss ->
  run (replicate k Threaded.Coordinator)
    (Threaded.mk ss phi mig (map Threaded.WaitWork (seq from k) ++ rest) log)
  = Threaded.Next
      (Threaded.mk ss phi mig rest
         (log ++ map Threaded.WaitWork (seq from k))).
Proof.
  intros Hready. revert from log.
  induction k as [|k IH]; intros from log Hk.
  - simpl. by rewrite app_nil_r.
  - destruct (lookup_lt_is_Some_2 ss from ltac:(lia)) as [[s pos] Hs].
    assert (Hr : work_ready_ s = true).
    { rewrite Forall_forall in Hready.
      apply (Hready (s, pos)). by eapply list_elem_of_lookup_2. }
    cbn [replicate seq map app Threaded.run Threaded.step
         Threaded.coordinator_step Threaded.todo Threaded.solvers_
         Threaded.phi_calls Threaded.migration_calls Threaded.log].
    rewrite Hs, Hr.
    rewrite (IH (S from) (log ++ [Threaded.WaitWork from]) ltac:(lia)).
    by rewrite <- app_assoc.
Qed.

(** The loop of [migration] over the solvers from [from] on. *)
Lemma run_migration_loop k from (st1 st2 : coordinator) rest :
  ThreadsDE.migration_loop kMigrationPhi_ rng k from st1 = Some st2 ->
  exists drawn,
    drawn <= k /\
    forall log, exists log',
      run (replicate (k + 2 * drawn) Threaded.Coordinator)
        (Threaded.mk (at_wait (ThreadsDE.solvers_ st1))
           (ThreadsDE.phi_calls st1) (ThreadsDE.migration_calls st1)
           (map Threaded.Draw (seq from k) ++ rest) log)
      = Threaded.Next
          (Threaded.mk (at_wait (ThreadsDE.solvers_ st2))
             (ThreadsDE.phi_calls st2) (ThreadsDE.migration_calls st2)
             rest log').
Proof.
  revert from st1. induction k as [|k IH]; intros from st1 Hloop.
  - injection Hloop as <-. exists 0. split; [done|]. intros log.
    by exists log.
  - cbn [ThreadsDE.migration_loop] in Hloop.
    destruct (Qlt_bool (ThreadsDE.random_phi_ rng (ThreadsDE.phi_calls st1))
                kMigrationPhi_) eqn:Hu.
    + destruct (ThreadsDE.migrate rng from _) as [st1'|] eqn:Hmig;
        [simpl in Hloop|done].
      apply migrate_unfold in Hmig
        as (s & bc & d & Hs & Hr & Hbc & Hd & Hmi & ->).
      cbn [ThreadsDE.solvers_ ThreadsDE.phi_calls ThreadsDE.migration_calls]
        in *.
      destruct (IH _ _ Hloop) as (drawn & Hle & Hrun).
      exists (S drawn). split; [lia|]. intros log.
      destruct (Hrun (log ++ [Threaded.Draw from; Threaded.WaitWork from;
                              Threaded.Copy from])) as [log' Hrun'].
      exists log'.
      replace (S k + 2 * S drawn) with (3 + (k + 2 * drawn)) by lia.
      rewrite replicate_add, run_app.
      cbn [replicate seq map app Threaded.run Threaded.step
           Threaded.coordinator_step Threaded.todo Threaded.solvers_
           Threaded.phi_calls Threaded.migration_calls Threaded.log].
      rewrite Hu.
      assert (Hlook : forall i (x : solver),
                ThreadsDE.solvers_ st1 !! i = Some x ->
                at_wait (ThreadsDE.solvers_ st1) !! i
                = Some (x, Threaded.AtWait)).
      { intros i x Hx.
        change (map ?f ?l) with (f <$> l). by rewrite list_lookup_fmap, Hx. }
      cbn [Threaded.coordinator_step Threaded.todo Threaded.solvers_
           Threaded.phi_calls Threaded.migration_calls Threaded.log].
      rewrite (Hlook _ _ Hs), Hr.
      cbn [Threaded.coordinator_step Threaded.todo Threaded.solvers_
           Threaded.phi_calls Threaded.migration_calls Threaded.log].
      rewrite (Hlook _ _ Hs). unfold getBestCandidate. rewrite Hbc.
      rewrite length_map, (Hlook _ _ Hd). unfold store.
      rewrite decide_True by done.
      rewrite <- !app_assoc. cbn [app].
      change (at_wait (ThreadsDE.solvers_ st1))
        with ((λ s : solver, (s, Threaded.AtWait))
                <$> ThreadsDE.solvers_ st1).
      rewrite <- (list_fmap_insert (λ s : solver, (s, Threaded.AtWait))).
      exact Hrun'.
    + simpl in Hloop. destruct (IH _ _ Hloop) as (drawn & Hle & Hrun).
      exists drawn. split; [lia|]. intros log.
      destruct (Hrun (log ++ [Threaded.Draw from])) as [log' Hrun'].
      exists log'.
      cbn [Nat.add replicate seq map app Threaded.run Threaded.step
           Threaded.coordinator_step Threaded.todo Threaded.solvers_
           Threaded.phi_calls Threaded.migration_calls Threaded.log].
      rewrite Hu. exact Hrun'.
Qed.

Lemma request_all_unfold w (st st1 : coordinator) :
  ThreadsDE.request_all POP_DIM kNProcess_ kPopSize_ base_de solver_rng w
    fuel st = Some st1 ->
  mapM (λ s : solver, request w s) (ThreadsDE.solvers_ st)
  = Some (ThreadsDE.solvers_ st1) /\
  length (ThreadsDE.solvers_ st1) = length (ThreadsDE.solvers_ st) /\
  ThreadsDE.phi_calls st1 = ThreadsDE.phi_calls st /\
  ThreadsDE.migration_calls st1 = ThreadsDE.migration_calls st.
Proof.
  unfold ThreadsDE.request_all. intros Hreq.
  destruct (mapM _ _) as [ss|] eqn:Hmap; [simpl in Hreq|done].
  injection Hreq as <-. simpl. split; [|split; [|done]].
  - rewrite <- Hmap. by destruct w.
  - symmetry. by eapply length_mapM.
Qed.

(** The two phases of a broadcast with every worker at its wait: the
    requests, then the commands. *)
Lemma run_broadcast w (l l' : list solver) phi mig rest log :
  (l <> [] ->
   forall k (ss : list (solver * Threaded.Position)),
     Threaded.holds_mutex k (Threaded.mk ss phi mig rest log) = false) ->
  mapM (λ s : solver, request w s) l = Some l' ->
  run (replicate (3 * length l) Threaded.Coordinator
       ++ Threaded.workers_pass (length l))
    (Threaded.mk (at_wait l) phi mig
       (Threaded.requests w (length l) ++ rest) log)
  = Threaded.Next
      (Threaded.mk (at_wait l') phi mig rest
         (log ++ Threaded.requests w (length l))).
Proof.
  intros Hm Hmap. rewrite run_app.
  pose proof (run_requests w [] (at_wait l) phi mig rest log) as Hreq.
  rewrite length_map in Hreq. cbn [app length] in Hreq.
  unfold Threaded.requests. rewrite Hreq, map_map. cbn [fst snd].
  apply (run_workers w [] l l'); [|exact Hmap].
  intros Hne k ss. unfold Threaded.holds_mutex in *.
  cbn [Threaded.todo] in *. by apply Hm.
Qed.

(** One [solveOneGeneration] in step, inside a longer program. *)
Lemma solveOneGeneration_in_step (st st' : coordinator) rest log :
  ThreadsDE.solveOneGeneration POP_DIM kNProcess_ kMigrationPhi_ kPopSize_
    base_de solver_rng rng fuel st = Some st' ->
  exists drawn log',
    drawn <= length (ThreadsDE.solvers_ st) /\
    length (ThreadsDE.solvers_ st') = length (ThreadsDE.solvers_ st) /\
    run (Threaded.in_step (length (ThreadsDE.solvers_ st)) drawn)
      (Threaded.mk (at_wait (ThreadsDE.solvers_ st))
         (ThreadsDE.phi_calls st) (ThreadsDE.migration_calls st)
         (Threaded.solveOneGeneration (length (ThreadsDE.solvers_ st))
          ++ rest) log)
    = Threaded.Next
        (Threaded.mk (at_wait (ThreadsDE.solvers_ st'))
           (ThreadsDE.phi_calls st') (ThreadsDE.migration_calls st')
           rest log').
Proof.
  intros Hrun.
  destruct (solveOneGeneration_counts _ _ _ _ _ _ _ _ _ _ Hrun)
    as (Hlen' & _ & _).
  unfold ThreadsDE.solveOneGeneration, ThreadsDE.migration in Hrun.
  destruct (ThreadsDE.request_all _ _ _ _ _ _ _ st) as [st1|] eqn:Hreq;
    [simpl in Hrun|done].
  destruct (ThreadsDE.wait_all st1) as [st2|] eqn:Hwait;
    [simpl in Hrun|done].
  destruct (ThreadsDE.request_all _ _ _ _ _ _ _ st2) as [st3|] eqn:Hbest;
    [simpl in Hrun|done].
  apply request_all_unfold in Hreq as (Hgen & Hlen1 & Hphi1 & Hmc1).
  unfold ThreadsDE.wait_all in Hwait.
  destruct (mapM waitWork _) as [ss|] eqn:Hw; [simpl in Hwait|done].
  injection Hwait as <-. apply mapM_waitWork in Hw as [-> Hready].
  apply request_all_unfold in Hbest as (Hloc & Hlen3 & Hphi3 & Hmc3).
  cbn [ThreadsDE.solvers_ ThreadsDE.phi_calls ThreadsDE.migration_calls]
    in *.
  rewrite Hlen3 in Hrun.
  destruct (run_migration_loop _ _ _ _ rest Hrun) as (drawn & Hle & Hmig).
  exists drawn.
  destruct (Hmig
              (((log
                 ++ Threaded.requests SOLVE_GENERATION
                      (length (ThreadsDE.solvers_ st)))
                ++ map Threaded.WaitWork
                     (seq 0 (length (ThreadsDE.solvers_ st1))))
               ++ Threaded.requests GET_BEST_CANDIDATE
                    (length (ThreadsDE.solvers_ st1))))
    as [log' Hmig'].
  exists log'. split; [lia|]. split; [exact Hlen'|].
  unfold Threaded.in_step, Threaded.solveOneGeneration.
  rewrite <- !app_assoc.
  rewrite (app_assoc (replicate _ _) (Threaded.workers_pass _)), run_app.
  erewrite run_broadcast; [| |exact Hgen].
  2:{ destruct (ThreadsDE.solvers_ st); [done|]. intros _ k ss.
      reflexivity. }
  rewrite run_app, <- Hlen1.
  erewrite run_waits; [| |simpl; by rewrite length_map].
  2:{ rewrite Forall_forall in Hready. apply Forall_forall.
      intros [x pos] Hx.
      apply list_elem_of_fmap in Hx as (y & [= -> ->] & Hy).
      by apply Hready. }
  rewrite (app_assoc (replicate _ _) (Threaded.workers_pass _)), run_app.
  erewrite run_broadcast; [| |exact Hloc].
  2:{ destruct (ThreadsDE.solvers_ st1); [done|]. intros _ k ss.
      reflexivity. }
  rewrite Hphi3, Hmc3, Hphi1, Hmc1, <- Hlen1 in Hmig'. exact Hmig'.
Qed.

Lemma solveNGenerations_in_step_from N (st st' : coordinator) rest log :
  ThreadsDE.solveNGenerations POP_DIM kNProcess_ kMigrationPhi_ kPopSize_
    base_de solver_rng rng fuel N st = Some st' ->
  exists drawn log',
    length drawn = N /\
    Forall (λ d, d <= length (ThreadsDE.solvers_ st)) drawn /\
    run (flat_map (Threaded.in_step (length (ThreadsDE.solvers_ st))) drawn)
      (Threaded.mk (at_wait (ThreadsDE.solvers_ st))
         (ThreadsDE.phi_calls st) (ThreadsDE.migration_calls st)
         (Threaded.solveNGenerations N (length (ThreadsDE.solvers_ st))
          ++ rest) log)
    = Threaded.Next
        (Threaded.mk (at_wait (ThreadsDE.solvers_ st'))
           (ThreadsDE.phi_calls st') (ThreadsDE.migration_calls st')
           rest log').
Proof.
  revert st log. induction N as [|N IH]; intros st log Hrun.
  - injection Hrun as <-. by exists [], log.
  - cbn [ThreadsDE.solveNGenerations] in Hrun.
    destruct (ThreadsDE.solveOneGeneration _ _ _ _ _ _ _ _ st)
      as [st1|] eqn:Hone; [simpl in Hrun|done].
    destruct (solveOneGeneration_in_step st st1
                (Threaded.solveNGenerations N
                   (length (ThreadsDE.solvers_ st)) ++ rest) log Hone)
      as (d & log1 & Hd & Hlen & Hfirst).
    destruct (IH st1 log1 Hrun) as (drawn & log' & HN & Hall & Hrest).
    rewrite Hlen in Hall, Hrest.
    exists (d :: drawn), log'. split; [simpl; by rewrite HN|].
    split; [by constructor|].
    cbn [flat_map Threaded.solveNGenerations].
    rewrite run_app, <- app_assoc, Hfirst. exact Hrest.
Qed.

(** X17.  The sequential reading is one of the interleavings.  Whenever
    [ThreadsDE.solveNGenerations] returns a coordinator, the threads reach
    it: started with every worker at its wait and run under the schedule
    that lets every worker finish its command before the coordinator's
    thread moves on (one [in_step] per generation, with as many migrations
    as the draws allow), the coordinator's thread executes all of
    [solveNGenerations(N)] and leaves the same solvers, with every worker
    back at its wait, and the same positions of its two random
    functions. *)
Theorem solveNGenerations_in_step N (st st' : coordinator) :
  ThreadsDE.solveNGenerations POP_DIM kNProcess_ kMigrationPhi_ kPopSize_
    base_de solver_rng rng fuel N st = Some st' ->
  exists drawn st_t,
    length drawn = N /\
    Forall (λ d, d <= length (ThreadsDE.solvers_ st)) drawn /\
    run (flat_map (Threaded.in_step (length (ThreadsDE.solvers_ st))) drawn)
      (Threaded.call
         (Threaded.solveNGenerations N (length (ThreadsDE.solvers_ st)))
         (Threaded.idle st))
    = Threaded.Next st_t /\
    Threaded.todo st_t = [] /\
    Threaded.solvers_ st_t = Threaded.solvers_ (Threaded.idle st') /\
    Threaded.phi_calls st_t = ThreadsDE.phi_calls st' /\
    Threaded.migration_calls st_t = ThreadsDE.migration_calls st'.
Proof.
  intros Hrun.
  destruct (solveNGenerations_in_step_from N st st' [] [] Hrun)
    as (drawn & log' & HN & Hall & Hthreads).
  rewrite app_nil_r in Hthreads.
  exists drawn. eexists. split; [exact HN|]. split; [exact Hall|].
  split; [exact Hthreads|]. done.
Qed.

End InStep.

(** ** What [getBestCandidate] returns *)

Section BestCandidate.
Import ThreadsDESolver.
Context {POP_TYPE ERROR_TYPE : Type} `{PopArith POP_TYPE, ErrorNum ERROR_TYPE}.
Variable POP_DIM : nat.
Variable kNProcess_ : nat.
Variable kPopSize_ : nat.
Variable base_de : BaseDE POP_TYPE ERROR_TYPE.
Variable solver_rng : nat -> ThreadsDESolver.Streams.

Local Abbreviation solver := (@ThreadsDESolver.t POP_TYPE ERROR_TYPE).
Local Abbreviation coordinator := (@ThreadsDE.t POP_TYPE ERROR_TYPE).
Local Abbreviation better := (callback_error_evaluation_ base_de).
Local Abbreviation request_all :=
  (ThreadsDE.request_all POP_DIM kNProcess_ kPopSize_ base_de solver_rng).

Lemma Qlt_bool_asymmetric a b : Qlt_bool a b = true -> Qlt_bool b a = false.
Proof.
  intros Hab. destruct (Qlt_bool b a) eqn:Hba; [|done].
  by rewrite <- (Qlt_bool_irreflexive a), (Qlt_bool_transitive _ _ _ Hab Hba).
Qed.

(** The accumulator ends as it started or with the converted error and the
    candidate of one solver's local best, and no local best is below it. *)
Lemma reduce_best_spec (l : list solver) :
  compares_in_double ERROR_TYPE ->
  forall d c r, ThreadsDE.reduce_best l d c = Some r ->
  (r.1 = d \/ Qlt_bool r.1 d = true) /\
  (r = (d, c) \/
   exists s b, In s l /\ best_candidate_ s = Some b /\
               r = (error_to_double b.1, b.2)) /\
  (forall s b, In s l -> best_candidate_ s = Some b ->
     Qlt_bool (error_to_double b.1) r.1 = false).
Proof.
  intros Hcmp. induction l as [|s l IH]; intros d c r; simpl.
  { intros [= <-]. split; [by left|]. split; [by left|done]. }
  unfold waitWork, ThreadsDESolver.getBestCandidate.
  destruct (work_ready_ s); [simpl|done].
  destruct (best_candidate_ s) as [bc|] eqn:Hbc; [simpl|done].
  rewrite Hcmp.
  destruct (Qlt_bool (error_to_double bc.1) d) eqn:Hlt; intros Hr;
    apply IH in Hr as (H1 & H2 & H3).
  - split; [|split].
    + right. destruct H1 as [->|H1]; [done|].
      by apply (Qlt_bool_transitive _ (error_to_double bc.1)).
    + right. destruct H2 as [->|(s' & b' & Hs' & Hb' & ->)].
      { exists s, bc. split; [by left|done]. }
      exists s', b'. split; [by right|done].
    + intros s' b [<-|Hs'] Hb; [|by apply (H3 s')].
      assert (b = bc) as -> by congruence.
      destruct H1 as [->|H1];
        [apply Qlt_bool_irreflexive|by apply Qlt_bool_asymmetric].
  - split; [done|]. split.
    + destruct H2 as [->|(s' & b' & Hs' & Hb' & ->)]; [by left|].
      right. exists s', b'. split; [by right|done].
    + intros s' b [<-|Hs'] Hb; [|by apply (H3 s')].
      assert (b = bc) as -> by congruence.
      destruct H1 as [->|H1]; [done|].
      destruct (Qlt_bool (error_to_double bc.1) r.1) eqn:Hbr; [|done].
      by rewrite (Qlt_bool_transitive _ _ _ Hbr H1) in Hlt.
Qed.


(** The steps of [getBestCandidate]. *)
Lemma getBestCandidate_inv fuel (st st' : coordinator) r :
  ThreadsDE.getBestCandidate POP_DIM kNProcess_ kPopSize_ base_de solver_rng
    fuel st = Some (st', r) ->
  exists st1 s0 first r0,
    request_all GET_BEST_CANDIDATE fuel st = Some st1 /\
    ThreadsDE.solvers_ st1 !! 0 = Some s0 /\
    best_candidate_ s0 = Some first /\
    ThreadsDE.reduce_best (ThreadsDE.solvers_ st1)
      (error_to_double first.1) first.2 = Some r0 /\
    r = (error_of_double r0.1, r0.2) /\
    ThreadsDE.solvers_ st' = ThreadsDE.solvers_ st1 /\
    ThreadsDE.phi_calls st' = ThreadsDE.phi_calls st1 /\
    ThreadsDE.migration_calls st' = ThreadsDE.migration_calls st1.
Proof.
  unfold ThreadsDE.getBestCandidate. intros Hrun.
  destruct (ThreadsDE.request_all _ _ _ _ _ _ _ _) as [st1|] eqn:Hreq;
    [simpl in Hrun|done].
  destruct (ThreadsDE.solvers_ st1 !! 0) as [s0|] eqn:Hs0; [simpl in Hrun|done].
  unfold waitWork, ThreadsDESolver.getBestCandidate in Hrun.
  destruct (work_ready_ s0); [simpl in Hrun|done].
  destruct (best_candidate_ s0) as [first|] eqn:Hfirst; [simpl in Hrun|done].
  destruct (ThreadsDE.reduce_best _ _ _) as [r0|] eqn:Hred;
    [simpl in Hrun|done].
  injection Hrun as <- <-. by exists st1, s0, first, r0.
Qed.

(** The local best the reduction settles on. *)
Lemma getBestCandidate_chosen fuel (st st' : coordinator) r :
  compares_in_double ERROR_TYPE ->
  ThreadsDE.getBestCandidate POP_DIM kNProcess_ kPopSize_ base_de solver_rng
    fuel st = Some (st', r) ->
  exists st1 s b,
    request_all GET_BEST_CANDIDATE fuel st = Some st1 /\
    ThreadsDE.solvers_ st' = ThreadsDE.solvers_ st1 /\
    In s (ThreadsDE.solvers_ st1) /\
    best_candidate_ s = Some b /\
    r = (error_of_double (error_to_double b.1), b.2) /\
    (forall s' b', In s' (ThreadsDE.solvers_ st1) ->
       best_candidate_ s' = Some b' -> less_as_double b'.1 b.1 = false).
Proof.
  intros Hcmp Hrun.
  apply getBestCandidate_inv in Hrun
    as (st1 & s0 & first & r0 & Hreq & Hs0 & Hfirst & Hred & -> & Hs & _).
  apply (reduce_best_spec _ Hcmp) in Hred as (_ & Hfrom & Hleast).
  assert (Hone : exists s b, In s (ThreadsDE.solvers_ st1) /\
                   best_candidate_ s = Some b /\
                   r0 = (error_to_double b.1, b.2)).
  { destruct Hfrom as [->|?]; [|done].
    exists s0, first. split; [by eapply In_lookup|done]. }
  destruct Hone as (s & b & Hin & Hb & ->).
  exists st1, s, b. repeat (split; [done|]). exact Hleast.
Qed.

(** X13.  The reduction of [getBestCandidate], for every [ERROR_TYPE] whose
    [<] against a [double] compares it as a [double]: the call returns the
    candidate of one solver's recorded local best, paired with that local
    best's error converted to [double] and back, and no solver's local best
    has an error that is below it as a [double].  When the conversion is
    exact, the pair returned is that local best itself.  (Whether it is the
    best under [callback_error_evaluation_] depends on that callback
    agreeing with [<].) *)
Theorem getBestCandidate_reduces_numerically fuel (st st' : coordinator) r :
  compares_in_double ERROR_TYPE ->
  ThreadsDE.getBestCandidate POP_DIM kNProcess_ kPopSize_ base_de solver_rng
    fuel st = Some (st', r) ->
  (exists s b,
     In s (ThreadsDE.solvers_ st') /\ best_candidate_ s = Some b /\
     r = (error_of_double (error_to_double b.1), b.2) /\
     forall s' b', In s' (ThreadsDE.solvers_ st') ->
       best_candidate_ s' = Some b' -> less_as_double b'.1 b.1 = false) /\
  (exact_in_double ERROR_TYPE ->
   best_of_local_bests less_as_double (ThreadsDE.solvers_ st') r).
Proof.
  intros Hcmp Hrun.
  apply (getBestCandidate_chosen _ _ _ _ Hcmp) in Hrun
    as (st1 & s & b & _ & -> & Hin & Hb & -> & Hleast).
  split; [by exists s, b|].
  intros Hexact. rewrite Hexact. split.
  - exists s. split; [done|]. by destruct b.
  - done.
Qed.



End BestCandidate.

(** ** [getBestCandidate] does not disturb the run *)


Section Observation.
Import ThreadsDESolver.
Context {POP_TYPE ERROR_TYPE : Type} `{PopArith POP_TYPE, ErrorNum ERROR_TYPE}.
Variable POP_DIM : nat.
Variable kNProcess_ : nat.
Variable kMigrationPhi_ : Q.
Variable kPopSize_ : nat.
Variable base_de : BaseDE POP_TYPE ERROR_TYPE.
Variable solver_rng : nat -> ThreadsDESolver.Streams.
Variable rng : ThreadsDE.Streams.

Local Abbreviation solver := (@ThreadsDESolver.t POP_TYPE ERROR_TYPE).
Local Abbreviation coordinator := (@ThreadsDE.t POP_TYPE ERROR_TYPE).
Local Abbreviation share := (ThreadsDE.share kNProcess_ kPopSize_).
Local Abbreviation request_all :=
  (ThreadsDE.request_all POP_DIM kNProcess_ kPopSize_ base_de solver_rng).
Local Abbreviation migration_loop :=
  (ThreadsDE.migration_loop kMigrationPhi_ rng).
Local Abbreviation generation :=
  (ThreadsDE.solveOneGeneration POP_DIM kNProcess_ kMigrationPhi_ kPopSize_
     base_de solver_rng rng).
Local Abbreviation generations :=
  (ThreadsDE.solveNGenerations POP_DIM kNProcess_ kMigrationPhi_ kPopSize_
     base_de solver_rng rng).
Local Abbreviation untraced :=
  (λ st : coordinator,
     (ThreadsDE.solvers_ st, ThreadsDE.phi_calls st,
      ThreadsDE.migration_calls st)).

















End Observation.

(** ** The further properties at concrete configurations *)

Section FurtherConcrete.
Import ThreadsDESolver.

Lemma cycle_keeps_offering j :
  keeps_offering (random_trials_ (Example.cycle j)).
Proof.
  intros p x y. change (exists q, p <= q /\ q mod 3 <> x /\ q mod 3 <> y).
  assert (H0 : (p * 3) mod 3 = 0) by apply Nat.Div0.mod_mul.
  assert (H1 : (1 + p * 3) mod 3 = 1) by (by rewrite Nat.Div0.mod_add).
  assert (H2 : (2 + p * 3) mod 3 = 2) by (by rewrite Nat.Div0.mod_add).
  destruct (decide (x <> 0 /\ y <> 0)) as [[? ?]|H0'].
  { exists (p * 3). rewrite H0. repeat split; [lia|done..]. }
  destruct (decide (x <> 1 /\ y <> 1)) as [[? ?]|H1'].
  { exists (1 + p * 3). rewrite H1. repeat split; [lia|done..]. }
  exists (2 + p * 3). rewrite H2. repeat split; lia.
Qed.

Lemma cycle_in_range j POP_DIM POP_SIZE :
  j < POP_DIM -> 3 <= POP_SIZE -> in_range POP_DIM POP_SIZE (Example.cycle j).
Proof.
  intros Hj Hsz. split; intros n; simpl; [|done].
  pose proof (Nat.mod_upper_bound n 3). lia.
Qed.

(** Four three-dimensional entities: 4 start dimensions, 8 crossover draws
    and 12 trial indices. *)
Lemma evolve_generation_draws_witness :
  length (pop_candidate_ Example.cube) = 3 /\
  exists s',
    evolve_generation 3 4 Example.minimise (Example.cycle 1) 0 Example.cube
    = Some s' /\
    j_calls s' = 4 /\ cr_calls s' = 8 /\ 12 <= trials_calls s'.
Proof.
  split; [reflexivity|].
  destruct (evolve_generation 3 4 Example.minimise (Example.cycle 1) 0
              Example.cube) as [s'|] eqn:Hrun;
    [|vm_compute in Hrun; discriminate Hrun].
  exists s'. split; [reflexivity|].
  destruct (evolve_generation_draws 3 4 Example.minimise (Example.cycle 1) 0
              Example.cube s' eq_refl Hrun) as (Hj & Hcr & Htr & _).
  split; [exact Hj|]. split; [exact Hcr|exact Htr].
Defined.

(** The entities 4, 1, 3, 8 become 2, 0, -1, 3, each with its own error. *)
Lemma evolve_generation_keeps_errors_current_witness :
  errors_current Example.minimise Example.line /\
  exists s',
    evolve_generation 1 4 Example.minimise (Example.cycle 0) 0 Example.line
    = Some s' /\
    pop_errors_ s' = [2%Q; 0%Q; (-1)%Q; 3%Q] /\
    errors_current Example.minimise s'.
Proof.
  split; [reflexivity|].
  destruct (evolve_generation 1 4 Example.minimise (Example.cycle 0) 0
              Example.line) as [s'|] eqn:Hrun;
    [|vm_compute in Hrun; discriminate Hrun].
  exists s'. split; [reflexivity|].
  pose proof (evolve_generation_keeps_errors_current 1 4 Example.minimise
                (Example.cycle 0) 0 Example.line s' eq_refl Hrun) as Hcur.
  split; [|exact Hcur].
  vm_compute in Hrun. injection Hrun as <-. reflexivity.
Defined.

(** The errors 4, 1, 3, 8: after one generation the local best is -1. *)
Lemma local_best_never_regresses_witness :
  irreflexive (callback_error_evaluation_ Example.minimise) /\
  transitive (callback_error_evaluation_ Example.minimise) /\
  exists s' s'',
    evolve_generation 1 4 Example.minimise (Example.cycle 0) 0 Example.line
    = Some s' /\
    compute_local_best Example.minimise s' = Some s'' /\
    best_candidate_ s'' = Some ((-1)%Q, [(-1)%Q]) /\
    forall i e, pop_errors_ Example.line !! i = Some e ->
      Qlt_bool e (-1)%Q = false.
Proof.
  split; [exact Qlt_bool_irreflexive|]. split; [exact Qlt_bool_transitive|].
  destruct (evolve_generation 1 4 Example.minimise (Example.cycle 0) 0
              Example.line) as [s'|] eqn:Hrun;
    [|vm_compute in Hrun; discriminate Hrun].
  destruct (compute_local_best Example.minimise s') as [s''|] eqn:Hbest;
    [|vm_compute in Hrun; injection Hrun as <-; vm_compute in Hbest;
      discriminate Hbest].
  assert (Hbc : best_candidate_ s'' = Some ((-1)%Q, [(-1)%Q])).
  { vm_compute in Hrun. injection Hrun as <-.
    vm_compute in Hbest. injection Hbest as <-. reflexivity. }
  exists s', s''. split; [reflexivity|]. split; [exact Hbest|].
  split; [exact Hbc|].
  exact (local_best_never_regresses 1 4 Example.minimise (Example.cycle 0) 0
           Example.line s' s'' _ _ Qlt_bool_irreflexive Qlt_bool_transitive
           Hrun Hbest Hbc).
Defined.


(** With crossover draws 0 every dimension of the trial is
    (4,1,3) + ((8,7,2) - (9,6,5)) = (3,2,0), whatever the slot. *)
Lemma mutation_full_crossover_witness :
  always_crosses Example.minimise Example.stutter /\
  length (pop_candidate_ Example.cube) = 3 /\
  exists s',
    mutation 3 Example.minimise Example.stutter 2 0 Example.cube = Some s' /\
    pop_candidate_ s' = [3%Q; 2%Q; 0%Q] /\
    pop_candidate_ <$>
      mutation 3 Example.minimise Example.stutter 2 3 Example.cube
    = Some (pop_candidate_ s').
Proof.
  split; [intros n; reflexivity|]. split; [reflexivity|].
  destruct (mutation 3 Example.minimise Example.stutter 2 0 Example.cube)
    as [s'|] eqn:Hrun; [|vm_compute in Hrun; discriminate Hrun].
  destruct (mutation_full_crossover 3 Example.minimise Example.stutter 2 0
              Example.cube s' (λ n, eq_refl) eq_refl Hrun)
    as (it0 & it1 & it2 & tr & t0 & t1 & t2 & _ & _ & _ & _ & _ & _ & Hany).
  exists s'. split; [reflexivity|]. split; [|exact (Hany 3)].
  vm_compute in Hrun. injection Hrun as <-. reflexivity.
Defined.


Lemma quads_shaped : shaped 1 2 8 Example.quads.
Proof. apply init_shaped. vm_compute. lia. Qed.

(** Two solvers of four entities, three generations. *)
Lemma solveNGenerations_keeps_shape_witness :
  shaped 1 2 8 Example.quads /\
  exists st',
    ThreadsDE.solveNGenerations 1 2 (1 # 2)%Q 8 Example.minimise
      (λ _, Example.cycle 0) Example.alternate 0 3 Example.quads = Some st' /\
    shaped 1 2 8 st'.
Proof.
  split; [exact quads_shaped|].
  destruct (ThreadsDE.solveNGenerations 1 2 (1 # 2)%Q 8 Example.minimise
              (λ _, Example.cycle 0) Example.alternate 0 3 Example.quads)
    as [st'|] eqn:Hrun; [|vm_compute in Hrun; discriminate Hrun].
  exists st'. split; [reflexivity|].
  exact (solveNGenerations_keeps_shape 1 2 (1 # 2)%Q 8 Example.minimise
           (λ _, Example.cycle 0) Example.alternate 0 3 Example.quads st'
           quads_shaped Hrun).
Defined.

(** Three generations of two solvers: 6 draws of [random_phi_], of which
    the draws 1, 3 and 5 allow a migration. *)
Lemma solveNGenerations_draws_witness :
  exists st',
    ThreadsDE.solveNGenerations 1 2 (1 # 2)%Q 8 Example.minimise
      (λ _, Example.cycle 0) Example.alternate 0 3 Example.quads = Some st' /\
    length (ThreadsDE.solvers_ st') = 2 /\
    ThreadsDE.phi_calls st' = 6 /\
    ThreadsDE.migration_calls st' = 3 /\
    ThreadsDE.migration_calls st' <= 6.
Proof.
  destruct (ThreadsDE.solveNGenerations 1 2 (1 # 2)%Q 8 Example.minimise
              (λ _, Example.cycle 0) Example.alternate 0 3 Example.quads)
    as [st'|] eqn:Hrun; [|vm_compute in Hrun; discriminate Hrun].
  destruct (solveNGenerations_draws 1 2 (1 # 2)%Q 8 Example.minimise
              (λ _, Example.cycle 0) Example.alternate 0 3 Example.quads st'
              Hrun) as (Hn & Hphi & _ & Hmc).
  exists st'. split; [reflexivity|]. split; [exact Hn|].
  split; [exact Hphi|]. split; [|exact Hmc].
  vm_compute in Hrun. injection Hrun as <-. reflexivity.
Defined.

(** Eight entities asked for, three solvers: two entities each, six in
    all. *)
Lemma init_partition_witness :
  0 < 3 /\
  length (ThreadsDE.solvers_ Example.triple) = 3 /\
  map population_ (ThreadsDE.solvers_ Example.triple)
  = [[[4%Q]; [1%Q]]; [[3%Q]; [8%Q]]; [[7%Q]; [2%Q]]] /\
  entities Example.triple = 8 - 8 mod 3.
Proof.
  split; [lia|].
  destruct (init_partition 1 3 8 Example.minimise ltac:(lia))
    as (Hn & _ & Hsum).
  split; [exact Hn|]. split; [reflexivity|exact Hsum].
Defined.

(** The maximising pair of C1: the local bests are 5 and 3 and the call
    returns 3, the least as a [double]. *)
Lemma getBestCandidate_reduces_numerically_witness :
  compares_in_double Q /\ exact_in_double Q /\
  exists st',
    ThreadsDE.getBestCandidate 1 2 8 Example.maximise
      (λ _, Example.cycle 0) 0 Example.pair = Some (st', (3%Q, [3%Q])) /\
    best_of_local_bests less_as_double (ThreadsDE.solvers_ st')
      (3%Q, [3%Q]).
Proof.
  split; [intros e d; reflexivity|]. split; [intros e; reflexivity|].
  destruct (ThreadsDE.getBestCandidate 1 2 8 Example.maximise
              (λ _, Example.cycle 0) 0 Example.pair)
    as [[st' r]|] eqn:Hrun; [|vm_compute in Hrun; discriminate Hrun].
  assert (Hr : r = (3%Q, [3%Q])).
  { vm_compute in Hrun. by injection Hrun as _ <-. }
  subst r. exists st'. split; [reflexivity|].
  exact (proj2 (getBestCandidate_reduces_numerically 1 2 8 Example.maximise
                  (λ _, Example.cycle 0) 0 Example.pair st' _
                  (λ e d, eq_refl) Hrun) (λ e, eq_refl)).
Defined.




(** Four entities with trial indices 0, 1, 2, 0, ...: a generation
    completes. *)
Lemma evolve_generation_returns_witness :
  in_range 1 4 (Example.cycle 0) /\
  keeps_offering (random_trials_ (Example.cycle 0)) /\
  well_formed 1 4 Example.line /\
  exists fuel s',
    (forall fuel', fuel <= fuel' ->
       evolve_generation 1 4 Example.minimise (Example.cycle 0) fuel'
         Example.line = Some s') /\
    well_formed 1 4 s'.
Proof.
  assert (Hr : in_range 1 4 (Example.cycle 0))
    by (apply cycle_in_range; lia).
  assert (Hwf : well_formed 1 4 Example.line)
    by (apply start_well_formed; lia).
  split; [exact Hr|]. split; [apply cycle_keeps_offering|].
  split; [exact Hwf|].
  exact (evolve_generation_returns 1 4 Example.minimise (Example.cycle 0)
           Example.line Hr (cycle_keeps_offering 0) Hwf).
Defined.

End FurtherConcrete.

(** ** The coordinator and the workers, interleaved

    [migration] waits on a solver only when its draw allows the migration
    (line 408 is inside the [if] of line 407), so a solver that is not
    drawn still has the request of line 403 outstanding when
    [solveOneGeneration] returns, and the next request to it meets a worker
    that has not finished the previous one. *)

Section Interleavings.

(** Two solvers of four entities, migration probability 1/2, the draws of
    [Example.alternate]: 3/4 for solver 0 and 1/4 for solver 1. *)
Local Abbreviation run_quads :=
  (Threaded.run 1 2 (1 # 2)%Q 8 Example.minimise (λ _, Example.cycle 0)
     Example.alternate 0).

Local Abbreviation quads_deadlocked :=
  (Threaded.deadlocked 1 2 (1 # 2)%Q 8 Example.minimise
     (λ _, Example.cycle 0) Example.alternate 0).

(** C2.  The coordinator does not wait on every solver during migration,
    and the request it leaves outstanding breaks the next generation.  With
    two solvers, migration probability 1/2 and the draws 3/4 and 1/4, there
    is a schedule under which [solveOneGeneration] returns after the
    statements [Draw 0], [Draw 1], [WaitWork 1], [Copy 1] of [migration]:
    solver 0 has not been waited on since its local best was requested,
    its worker is still at the wait of its loop with that request pending,
    not ready, and no local best computed.  And there is a schedule of two
    generations under which the stores of that worker cross the next
    request to it, after which the coordinator is blocked in [waitWork] of
    solver 0 and both workers are blocked at their waits, for ever. *)
Theorem migration_leaves_request_outstanding :
  (exists st' s0,
     run_quads Example.worker_late
       (Threaded.call (Threaded.solveOneGeneration 2) Example.quads_threads)
     = Threaded.Next st' /\
     Threaded.todo st' = [] /\
     drop 14 (Threaded.log st')
     = [Threaded.Draw 0; Threaded.Draw 1; Threaded.WaitWork 1;
        Threaded.Copy 1] /\
     ~ In (Threaded.WaitWork 0) (drop 8 (Threaded.log st')) /\
     Threaded.solvers_ st' !! 0 = Some (s0, Threaded.AtWait) /\
     ThreadsDESolver.pending_work_ s0 = true /\
     ThreadsDESolver.work_ready_ s0 = false /\
     ThreadsDESolver.work_type_ s0 = GET_BEST_CANDIDATE /\
     ThreadsDESolver.best_candidate_ s0 = None) /\
  (exists st'',
     run_quads (Example.worker_between ++ Example.crossed_stores)
       (Threaded.call (Threaded.solveNGenerations 2 2)
          Example.quads_threads)
     = Threaded.Next st'' /\
     hd_error (Threaded.todo st'') = Some (Threaded.WaitWork 0) /\
     quads_deadlocked st'').
Proof.
  split.
  - eexists. eexists. split; [vm_compute; reflexivity|].
    split; [reflexivity|]. split; [reflexivity|].
    split; [simpl; intros Hin; intuition discriminate|].
    split; [reflexivity|]. repeat split.
  - eexists. split; [vm_compute; reflexivity|].
    split; [reflexivity|]. split; [discriminate|].
    intros [|[|[|k]]]; vm_compute; reflexivity.
Qed.

(** C3.  The final subpopulations depend on the schedule of the threads.
    Two runs of [solveNGenerations(2)] from the same two subpopulations
    (4, 1, 3, 8 and 7, 2, 9, 6), with the same strategy and the same random
    functions: both complete, and the coordinator's thread executes the
    same statements in both.  In the first, every worker finishes its
    command before the coordinator moves on, and the result is that of the
    sequential reading [ThreadsDE.solveNGenerations].  In the second, the
    worker of solver 0 ends the local best command of the first generation
    after the second generation was requested of it: the request is lost,
    the coordinator's wait is answered by the late [work_ready_ = true],
    and solver 0 ends with the subpopulation it had after one
    generation. *)
Theorem solveNGenerations_depends_on_schedule :
  exists st1 st2,
    run_quads (Example.in_step ++ Example.in_step)
      (Threaded.call (Threaded.solveNGenerations 2 2) Example.quads_threads)
    = Threaded.Next st1 /\
    run_quads (Example.worker_between ++ Example.overtaken)
      (Threaded.call (Threaded.solveNGenerations 2 2) Example.quads_threads)
    = Threaded.Next st2 /\
    Threaded.todo st1 = [] /\ Threaded.todo st2 = [] /\
    Threaded.log st1 = Threaded.log st2 /\
    Threaded.subpopulations st1
    = [([[-13]; [-16]; [-40]; [-1]], [-13; -28; -40; -1]);
       ([[0]; [-7]; [-16]; [6]], [0; -7; -16; 6])]%Q /\
    Threaded.subpopulations st2
    = [([[2]; [-16]; [-1]; [3]], [2; 0; -1; 3]);
       ([[0]; [-7]; [-16]; [6]], [0; -7; -16; 6])]%Q /\
    Threaded.subpopulations st1 <> Threaded.subpopulations st2 /\
    subpopulations
      <$> ThreadsDE.solveNGenerations 1 2 (1 # 2)%Q 8 Example.minimise
            (λ _, Example.cycle 0) Example.alternate 0 2 Example.quads
    = Some (Threaded.subpopulations st1).
Proof.
  eexists. eexists. split; [vm_compute; reflexivity|].
  split; [vm_compute; reflexivity|].
  split; [reflexivity|]. split; [reflexivity|]. split; [reflexivity|].
  split; [reflexivity|]. split; [reflexivity|].
  split; [discriminate|]. vm_compute. reflexivity.
Qed.

(** Two generations of the two solvers of [Example.quads], in step. *)
Lemma solveNGenerations_in_step_witness :
  exists st' drawn st_t,
    ThreadsDE.solveNGenerations 1 2 (1 # 2)%Q 8 Example.minimise
      (λ _, Example.cycle 0) Example.alternate 0 2 Example.quads
    = Some st' /\
    length drawn = 2 /\
    run_quads (flat_map (Threaded.in_step 2) drawn)
      (Threaded.call (Threaded.solveNGenerations 2 2) Example.quads_threads)
    = Threaded.Next st_t /\
    Threaded.todo st_t = [] /\
    Threaded.solvers_ st_t = Threaded.solvers_ (Threaded.idle st').
Proof.
  destruct (ThreadsDE.solveNGenerations 1 2 (1 # 2)%Q 8 Example.minimise
              (λ _, Example.cycle 0) Example.alternate 0 2 Example.quads)
    as [st'|] eqn:Hrun; [|vm_compute in Hrun; discriminate Hrun].
  destruct (solveNGenerations_in_step 1 2 (1 # 2)%Q 8 Example.minimise
              (λ _, Example.cycle 0) Example.alternate 0 2 Example.quads
              st' Hrun)
    as (drawn & st_t & HN & _ & Hthreads & Htodo & Hs & _).
  exists st', drawn, st_t. split; [reflexivity|]. split; [exact HN|].
  split; [exact Hthreads|]. split; [exact Htodo|exact Hs].
Defined.

End Interleavings.

(** ** The accumulator of [getBestCandidate] with integer errors *)

Section IntegerErrors.

#[local] Existing Instance Example.int64_errors.

(** [ERROR_TYPE = int64_t], two solvers of one entity each: the candidate 0
    with the error 2^53 + 1 and the candidate 1 with the error 2^53.  The
    comparison is that of the values as [double], which are equal, so the
    call returns the candidate 0; its error went through [min_error] and
    comes back as 2^53.  No solver holds that pair. *)
Lemma getBestCandidate_rounds_int64 :
  compares_in_double Z /\
  ~ exact_in_double Z /\
  exists st',
    ThreadsDE.getBestCandidate 1 2 2 Example.large_errors
      (λ _, Example.cycle 0) 0 (ThreadsDE.init 1 2 2 Example.large_errors)
    = Some (st', ((2 ^ 53)%Z, [0%Q])) /\
    map ThreadsDESolver.best_candidate_ (ThreadsDE.solvers_ st')
    = [Some ((2 ^ 53 + 1)%Z, [0%Q]); Some ((2 ^ 53)%Z, [1%Q])].
Proof.
  split; [intros e d; reflexivity|]. split.
  - intros Hexact. specialize (Hexact (2 ^ 53 + 1)%Z). vm_compute in Hexact.
    discriminate Hexact.
  - eexists. split; [vm_compute; reflexivity|]. vm_compute. reflexivity.
Qed.

End IntegerErrors.
